(** * PLAAFP assistant: the record store, the template renderer, the
      preview-edit (reverse-sync) engine and the saved documents of
      [src/index.tsx].

    The development follows the source file top-down: JavaScript strings and
    the few built-ins the code calls, the data model (objects as finite maps,
    because the reverse-sync engine reads and writes properties by computed
    name), the helper functions, the store handlers, the renderer and the
    reverse-sync engine; then the handlers that save, load and delete
    documents, with the browser's store.  The theorems come after the
    definitions. *)

From stdpp Require Import gmap list strings.
From Stdlib Require Import ZArith NArith Ascii Lia.


(* ===================================================================== *)
(** ** JavaScript strings *)
(* ===================================================================== *)

(** A JavaScript string is a sequence of UTF-16 code units. *)
Abbreviation jsstring := (list N).

Module Js.

(** String literals of this file are written as Rocq strings (UTF-8 bytes)
    and decoded to code units by [u]; every character of the source's
    literals lies in the basic plane, so three-byte sequences suffice. *)
Fixpoint bytes (s : string) : list N :=
  match s with
  | EmptyString => []
  | String a s' => N_of_ascii a :: bytes s'
  end.

Fixpoint utf16 (bs : list N) : jsstring :=
  match bs with
  | [] => []
  | b0 :: rest =>
      if (b0 <? 128)%N then b0 :: utf16 rest
      else if (b0 <? 224)%N then
        match rest with
        | b1 :: rest' => ((b0 - 192) * 64 + (b1 - 128))%N :: utf16 rest'
        | [] => []
        end
      else
        match rest with
        | b1 :: b2 :: rest' =>
            ((b0 - 224) * 4096 + (b1 - 128) * 64 + (b2 - 128))%N :: utf16 rest'
        | _ => []
        end
  end.

Definition u (s : string) : jsstring := utf16 (bytes s).

(** [WhiteSpace] and [LineTerminator] of ECMAScript: what [trim] and
    [parseInt] strip. *)
Definition isWhiteSpace (c : N) : bool :=
  ((9 <=? c) && (c <=? 13) || (c =? 32) || (c =? 160) || (c =? 5760)
   || (8192 <=? c) && (c <=? 8202) || (c =? 8232) || (c =? 8233)
   || (c =? 8239) || (c =? 8287) || (c =? 12288) || (c =? 65279))%N.

Fixpoint trimStart (s : jsstring) : jsstring :=
  match s with
  | c :: s' => if isWhiteSpace c then trimStart s' else s
  | [] => []
  end.

Definition trimEnd (s : jsstring) : jsstring := reverse (trimStart (reverse s)).

(** [String.prototype.trim] *)
Definition trim (s : jsstring) : jsstring := trimEnd (trimStart s).

(** [str.replace(/c/g, rep)] for a one-character pattern. *)
Definition replaceAll (c : N) (rep : jsstring) (s : jsstring) : jsstring :=
  flat_map (λ x, if (x =? c)%N then rep else [x]) s.

(** [c.toUpperCase()] of a one-unit string.  Only the ASCII letters are
    mapped; the Unicode case table beyond them is not part of the model
    (the form offers the values [normative] and [relative] for the one
    field that is capitalised). *)
Definition toUpperCase1 (c : N) : jsstring :=
  if ((97 <=? c) && (c <=? 122))%N then [(c - 32)%N] else [c].

(** [Number.prototype.toString] on a non-negative integer. *)
Fixpoint digits (fuel : nat) (n : N) : jsstring :=
  match fuel with
  | O => []
  | S fuel' =>
      if (n <? 10)%N then [(48 + n)%N]
      else digits fuel' (n / 10)%N ++ [(48 + n mod 10)%N]
  end.

Definition numToString (n : N) : jsstring := digits (S (N.to_nat (N.log2 n))) n.

Definition isDigit (c : N) : bool := ((48 <=? c) && (c <=? 57))%N.

Fixpoint takeDigits (s : jsstring) : jsstring :=
  match s with
  | c :: s' => if isDigit c then c :: takeDigits s' else []
  | [] => []
  end.

Definition digitsValue (ds : jsstring) : Z :=
  fold_left (λ acc c, acc * 10 + (Z.of_N c - 48))%Z ds 0%Z.

(** [parseInt(s, 10)]: leading white space is skipped, a sign is accepted,
    the longest prefix of decimal digits is read and the rest is ignored;
    [None] stands for [NaN].  The result is the exact integer (the engine
    rounds to a double above 2^53, far beyond any list length). *)
Definition parseInt (s : jsstring) : option Z :=
  let s1 := trimStart s in
  let '(negative, s2) :=
    match s1 with
    | 45%N :: r => (true, r)
    | 43%N :: r => (false, r)
    | _ => (false, s1)
    end in
  match takeDigits s2 with
  | [] => None
  | ds => Some (if negative then (- digitsValue ds)%Z else digitsValue ds)
  end.

(** The string iterator, used by spread: one string per code point, a
    surrogate pair staying together. *)
Definition isHigh (c : N) : bool := ((55296 <=? c) && (c <=? 56319))%N.
Definition isLow (c : N) : bool := ((56320 <=? c) && (c <=? 57343))%N.

Fixpoint codePoints (s : jsstring) : list jsstring :=
  match s with
  | [] => []
  | c :: s' =>
      match s' with
      | c' :: s'' =>
          if isHigh c && isLow c' then [c; c'] :: codePoints s''
          else [c] :: codePoints s'
      | [] => [[c]]
      end
  end.

End Js.
Export Js.

(* ===================================================================== *)
(** ** Results of code that can throw *)
(* ===================================================================== *)

(** The only exception the modelled code can raise is a [TypeError]:
    reading a property of [undefined], calling something that is not a
    function, or (the file is an ES module, hence strict code) assigning a
    property on a primitive string. *)
Inductive res (A : Type) : Type :=
  | OK (a : A)
  | TypeError.
Arguments OK {A} a.
Arguments TypeError {A}.

#[global] Instance res_eq_dec {A} `{EqDecision A} : EqDecision (res A).
Proof. solve_decision. Defined.

#[global] Instance res_ret : MRet res := λ A a, OK a.
#[global] Instance res_bind : MBind res := λ A B f m,
  match m with OK a => f a | TypeError => TypeError end.
#[global] Instance res_fmap : FMap res := λ A B f m,
  match m with OK a => OK (f a) | TypeError => TypeError end.

(** [xs.forEach] / [xs.map] with a callback that can throw, the callback
    receiving the element and its index. *)
Fixpoint forEachFrom {A B} (f : A → nat → res (list B)) (i : nat) (xs : list A)
  : res (list B) :=
  match xs with
  | [] => OK []
  | x :: xs' => ys ← f x i; zs ← forEachFrom f (S i) xs'; OK (ys ++ zs)
  end.

(* ===================================================================== *)
(** ** Data model (the three interfaces) *)
(* ===================================================================== *)

(** Objects are finite maps from property names to values: the reverse-sync
    engine indexes them with names read from the markup ([(x as any)[field]]),
    so the set of keys and the kind of value under a key are run-time facts.
    A section property holds a string or, for [progressDataSources], a list
    of strings. *)
Inductive fval : Type :=
  | FStr (s : jsstring)
  | FStrs (l : list jsstring).

Abbreviation section := (gmap jsstring fval).

(** An element of a section list is a section object; a string primitive can
    appear there only after the list has been respread from a string. *)
Inductive elem : Type :=
  | EStr (s : jsstring)
  | EObj (o : section).

(** A top-level property of [PlaafpData] holds a string or a list. *)
Inductive tval : Type :=
  | TStr (s : jsstring)
  | TArr (l : list elem).

Abbreviation PlaafpData := (gmap jsstring tval).

#[global] Instance fval_eq_dec : EqDecision fval.
Proof. solve_decision. Defined.
#[global] Instance elem_eq_dec : EqDecision elem.
Proof. solve_decision. Defined.
#[global] Instance tval_eq_dec : EqDecision tval.
Proof. solve_decision. Defined.

(** The property names the code spells out, as code units. *)
Definition kAcademicSections : jsstring := Eval vm_compute in u "academicSections".
Definition kPerformanceSummarySections : jsstring :=
  Eval vm_compute in u "performanceSummarySections".
Definition kProto : jsstring := Eval vm_compute in u "__proto__".
Definition kAcademic : jsstring := Eval vm_compute in u "academic".
Definition kSummary : jsstring := Eval vm_compute in u "summary".

(** [o[k] = v] on an ordinary object: an own property is created or
    overwritten, except that the inherited [__proto__] setter swallows a
    primitive value without creating a property. *)
Definition setProp {V} (k : jsstring) (v : V) (o : gmap jsstring V) : gmap jsstring V :=
  if bool_decide (k = kProto) && bool_decide (o !! k = None) then o else <[k := v]> o.

(** [const initialAcademicSection: Omit<AcademicSection, 'id'>] *)
Definition initialAcademicSection : section :=
  list_to_map
    [ (u "subject", FStr []); (u "staarProficient", FStr []); (u "staarDeficits", FStr []);
      (u "progressDataSources", FStrs []); (u "currentData", FStr []);
      (u "performanceComparison", FStr []);
      (u "noProgressReason", FStr []); (u "readingFluency", FStr []);
      (u "readingComprehension", FStr []);
      (u "mathProblemSolving", FStr []); (u "supportsPerformance", FStr []);
      (u "classroomStrengths", FStr []);
      (u "classroomDeficits", FStr []); (u "deficitsEvidence", FStr []);
      (u "withSupports", FStr []);
      (u "withoutSupports", FStr []); (u "peerComparisonGradeLevel", FStr []);
      (u "peerComparisonStudent", FStr []);
      (u "benchmarkPercentile", FStr []); (u "peerBenchmarkPercentile", FStr []);
      (u "strengthsDespiteDeficits", FStr []); (u "criticalNeeds", FStr []);
      (u "independentAccessImpact", FStr []) ].

(** [const initialPerformanceSummarySection: Omit<PerformanceSummarySection, 'id'>] *)
Definition initialPerformanceSummarySection : section :=
  list_to_map
    [ (u "subject", FStr []); (u "passedStateAssessment", FStr []);
      (u "taksScore", FStr []); (u "rawScore", FStr []);
      (u "percentCorrect", FStr []); (u "gradeInSubject", FStr []);
      (u "accommodations", FStr []); (u "needs", FStr []);
      (u "receivesSpecialEdSupport", FStr []); (u "strengths", FStr []) ].

(** The names of the flat string fields of [PlaafpData], in the order of
    [initialPlaafpData]. *)
Definition flatFields : list jsstring :=
  map u [ "studentName"; "grade"; "disabilities"; "subjects";
          "cognitiveDeficits"; "academicDeficits"; "disabilityImpact";
          "deficitType"; "specialEdSupport"; "relatedServices";
          "accommodations";
          "functionalStrengths"; "functionalDeficits"; "functionalDataSource";
          "functionalImpact"; "transitionStrengths"; "transitionSupportNeeds";
          "transitionIndependentLiving"; "transitionSchedules";
          "transitionResponsibility"; "transitionParticipation";
          "transitionEmploymentGoal"; "parentEmploymentPlan";
          "parentEmploymentGoal"; "parentLivingPlan"; "parentName" ]%string.

(** [const initialPlaafpData: PlaafpData] *)
Definition initialPlaafpData : PlaafpData :=
  <[kAcademicSections := TArr []]>
    (<[kPerformanceSummarySections := TArr []]>
       (list_to_map (map (λ k, (k, TStr [])) flatFields))).

(* ===================================================================== *)
(** ** Helper functions *)
(* ===================================================================== *)

(** A value read from a property that is expected to hold a string:
    [None] is [undefined]. *)
Abbreviation strval := (option jsstring).

(** [value?.trim()] is truthy *)
Definition trimmedNonEmpty (value : strval) : bool :=
  match value with
  | Some s => match trim s with [] => false | _ => true end
  | None => false
  end.

(** [const fill = (value, placeholder) =>
       value?.trim() ? value.trim() : `(${placeholder})`] *)
Definition fill (value : strval) (placeholder : jsstring) : jsstring :=
  match value with
  | Some s => match trim s with [] => u "(" ++ placeholder ++ u ")" | t => t end
  | None => u "(" ++ placeholder ++ u ")"
  end.

(** [const fillPronoun = (studentName, pronoun) =>
       studentName?.trim() ? pronoun : 'he/she'] *)
Definition fillPronoun (studentName : strval) (pronoun : jsstring) : jsstring :=
  if trimmedNonEmpty studentName then pronoun else u "he/she".

(** [const fillPossessive = (studentName, pronoun) =>
       studentName?.trim() ? `${studentName}'s` : `______'s`]
    (the second parameter is not used by the source either). *)
Definition fillPossessive (studentName : strval) (pronoun : jsstring) : jsstring :=
  match studentName with
  | Some s => if trimmedNonEmpty studentName then s ++ u "'s" else u "______'s"
  | None => u "______'s"
  end.

(** [a || b] on a value that is a string or [undefined]. *)
Definition orElse (a : strval) (b : jsstring) : jsstring :=
  match a with
  | Some (c :: s) => c :: s
  | _ => b
  end.

(** [data[k]] where the code goes on to use the value as a string: a list
    there makes the first string method called on it ([trim], [replace],
    [charAt]) a [TypeError]. *)
Definition getStr (data : PlaafpData) (k : jsstring) : res strval :=
  match data !! k with
  | None => OK None
  | Some (TStr s) => OK (Some s)
  | Some (TArr _) => TypeError
  end.

(** [section[k]] for the keys the renderer reads; none of them is a property
    of a string primitive, so a primitive element yields [undefined]. *)
Definition secStr (e : elem) (k : jsstring) : res strval :=
  match e with
  | EStr _ => OK None
  | EObj o =>
      match o !! k with
      | None => OK None
      | Some (FStr s) => OK (Some s)
      | Some (FStrs _) => TypeError
      end
  end.

(** [x.replace(...)] on [undefined] throws. *)
Definition defined (v : strval) : res jsstring :=
  match v with
  | Some s => OK s
  | None => TypeError
  end.

(* ===================================================================== *)
(** ** Record store: the handlers of [App] *)
(* ===================================================================== *)

Inductive sectionKind : Type := academic | summary.

#[global] Instance sectionKind_eq_dec : EqDecision sectionKind.
Proof. solve_decision. Defined.

Definition kindName (k : sectionKind) : jsstring :=
  match k with academic => kAcademic | summary => kSummary end.

Definition listKey (k : sectionKind) : jsstring :=
  match k with
  | academic => kAcademicSections
  | summary => kPerformanceSummarySections
  end.

Definition initialSection (k : sectionKind) : section :=
  match k with
  | academic => initialAcademicSection
  | summary => initialPerformanceSummarySection
  end.

(** [[...xs]]: spreading [undefined] throws, a string spreads into its code
    points. *)
Definition spreadList (v : option tval) : res (list elem) :=
  match v with
  | None => TypeError
  | Some (TStr s) => OK (EStr <$> codePoints s)
  | Some (TArr l) => OK l
  end.

(** [{...x}]: the own enumerable properties; those of a string primitive are
    its code units under their positions, [undefined] has none. *)
Definition spreadObject (e : option elem) : section :=
  match e with
  | Some (EObj o) => o
  | Some (EStr s) => list_to_map (imap (λ i c, (numToString (N.of_nat i), FStr [c])) s)
  | None => ∅
  end.

(** [handleChange]: [setData(prev => ({ ...prev, [name]: value }))] *)
Definition handleChange (name value : jsstring) (prev : PlaafpData) : PlaafpData :=
  <[name := TStr value]> prev.

(** [handleAcademicChange] and [handlePerformanceSummaryChange]:
<<
    const newSections = [...data.academicSections];
    newSections[index] = { ...newSections[index], [name]: value };
    setData(prev => ({ ...prev, academicSections: newSections }));
>>
    The call sites pass the position of an entry of the list.  Past the end
    the source would grow the array with empty slots, which this model does
    not represent; stdpp's list insert leaves the list as it is there. *)
Definition handleSectionChange (kind : sectionKind) (index : nat)
    (name value : jsstring) (data : PlaafpData) : res PlaafpData :=
  newSections ← spreadList (data !! listKey kind);
  OK (<[listKey kind :=
          TArr (<[index := EObj (<[name := FStr value]> (spreadObject (newSections !! index)))]>
                  newSections)]> data).

Definition handleAcademicChange := handleSectionChange academic.
Definition handlePerformanceSummaryChange := handleSectionChange summary.

(** [{ id: Date.now().toString(), ...initialAcademicSection }]; [now] is the
    reading of the clock. *)
Definition newSection (kind : sectionKind) (now : N) : section :=
  <[u "id" := FStr (numToString now)]> (initialSection kind).

(** [handleAddAcademicSection] and [handleAddPerformanceSummarySection]:
<<
    setData(prev => ({ ...prev,
      academicSections: [...prev.academicSections,
                         { id: Date.now().toString(), ...initialAcademicSection }] }));
>> *)
Definition handleAddSection (kind : sectionKind) (now : N) (prev : PlaafpData)
  : res PlaafpData :=
  old ← spreadList (prev !! listKey kind);
  OK (<[listKey kind := TArr (old ++ [EObj (newSection kind now)])]> prev).

Definition handleAddAcademicSection := handleAddSection academic.
Definition handleAddPerformanceSummarySection := handleAddSection summary.

(* ===================================================================== *)
(** ** Template renderer: [generatePreviewHtml] *)
(* ===================================================================== *)

(** [const sanitize = (str) =>
       str.replace(/&/g, "&amp;").replace(/</g, "&lt;").replace(/>/g, "&gt;")] *)
Definition sanitize (str : jsstring) : jsstring :=
  replaceAll 62 (u "&gt;") (replaceAll 60 (u "&lt;") (replaceAll 38 (u "&amp;") str)).

(** The double quote, written by its code. *)
Definition dq : jsstring := [34%N].

(** [editableSpan]:
<<
    const indexAttr = index !== undefined ? `data-index="${index}"` : '';
    const sectionAttr = sectionType ? `data-section-type="${sectionType}"` : '';
    const sanitizedValue = sanitize(value);
    return `<span class="editable-field" data-field="${field}" ${indexAttr} ${sectionAttr}>${sanitizedValue}</span>`;
>> *)
Definition editableSpan (field value : jsstring) (sectionType : option sectionKind)
    (index : option nat) : jsstring :=
  let indexAttr :=
    match index with
    | Some i => u "data-index=" ++ dq ++ numToString (N.of_nat i) ++ dq
    | None => []
    end in
  let sectionAttr :=
    match sectionType with
    | Some k => u "data-section-type=" ++ dq ++ kindName k ++ dq
    | None => []
    end in
  let sanitizedValue := sanitize value in
  u "<span class=" ++ dq ++ u "editable-field" ++ dq ++ u " data-field=" ++ dq ++ field ++ dq
    ++ u " " ++ indexAttr ++ u " " ++ sectionAttr ++ u ">" ++ sanitizedValue ++ u "</span>".

(** The rendered document is kept as the sequence of pieces the template
    literals splice together, so that both the markup string and the located
    elements a browser finds in it are read off the same value. *)
Inductive node : Type :=
  | Text (s : jsstring)
      (** template text, or an interpolation that went through [sanitize] *)
  | Unescaped (s : jsstring)
      (** an interpolation spliced in as it is *)
  | Span (field value : jsstring) (sectionType : option sectionKind) (index : option nat).
      (** the result of [editableSpan] *)

#[global] Instance node_eq_dec : EqDecision node.
Proof. solve_decision. Defined.

Definition nodeHtml (n : node) : jsstring :=
  match n with
  | Text s => s
  | Unescaped s => s
  | Span field value sectionType index => editableSpan field value sectionType index
  end.

(** [htmlParts.join('')] *)
Definition joinParts (parts : list node) : jsstring := concat (nodeHtml <$> parts).

(** Evaluation of the interpolations of one template literal, left to right. *)
Fixpoint template (pieces : list (res node)) : res (list node) :=
  match pieces with
  | [] => OK []
  | p :: ps => n ← p; ns ← template ps; OK (n :: ns)
  end.

Section Pieces.

(** [data.studentName], and [studentName] and [parentName] as bound at the
    top of [generatePreviewHtml]. *)
Variable data : PlaafpData.
Variable rawName : strval.
Variable studentName parentName : jsstring.

Definition txt (s : string) : res node := OK (Text (u s)).

(** [${sanitize(e)}] *)
Definition esc (s : jsstring) : res node := OK (Text (sanitize s)).

(** [${e}], no [sanitize] *)
Definition raw (s : jsstring) : res node := OK (Unescaped s).

(** [${editableSpan(field, value)}] *)
Definition span (field : string) (value : jsstring) : res node :=
  OK (Span (u field) value None None).

(** [${editableSpan(field, fill(data.field, placeholder))}] *)
Definition fillSpan (field placeholder : string) : res node :=
  v ← getStr data (u field);
  OK (Span (u field) (fill v (u placeholder)) None None).

(** [${editableSpan(field, fill(section.field, placeholder), kind, index)}] *)
Definition secSpan (kind : sectionKind) (sec : elem) (index : nat)
    (field placeholder : string) : res node :=
  v ← secStr sec (u field);
  OK (Span (u field) (fill v (u placeholder)) (Some kind) (Some index)).

(** [${data.deficitType
        ? `${data.deficitType.charAt(0).toUpperCase() + data.deficitType.slice(1)}`
        : '‚òê normative ‚òê relative'}] *)
Definition deficitTypePiece : res node :=
  v ← getStr data (u "deficitType");
  raw (match v with
       | Some (c :: rest) => toUpperCase1 c ++ rest
       | _ => u "‚òê normative ‚òê relative"
       end).

Definition introParts : res (list node) :=
  template
    [ txt "<strong>Introductory Paragraph</strong>";
      txt "<p>"; span "studentName" studentName; txt " is a ";
      fillSpan "grade" "grade"; txt " grade student diagnosed with a ";
      fillSpan "disabilities" "disability(ies)"; txt " disability(ies). ";
      esc studentName;
      txt " is currently receiving enrolled grade-level instruction in ";
      fillSpan "subjects" "subjects/courses";
      txt " in the general education classroom. ";
      esc (fillPossessive rawName studentName);
      txt " full individual evaluation indicates that ";
      raw (fillPronoun rawName (u "he/she"));
      txt " has cognitive deficits in ";
      fillSpan "cognitiveDeficits" "cognitive areas";
      txt " and academic deficits in ";
      fillSpan "academicDeficits" "academic areas"; txt ".</p>";
      txt "<p>The student‚Äôs disability affects their ability to ";
      fillSpan "disabilityImpact" "describe impact on access/progress";
      txt ". These deficits are noted as "; deficitTypePiece;
      txt " according to cognitive and achievement assessments.</p>";
      txt "<p>Currently, "; esc studentName; txt " receives ";
      fillSpan "specialEdSupport" "special education/resource support";
      txt " and "; fillSpan "relatedServices" "related services";
      txt " with accommodations including ";
      fillSpan "accommodations" "list of accommodations"; txt ".</p>" ].

(** The callback of [data.academicSections.forEach((section, index) => ...)] *)
Definition academicParts (sec : elem) (index : nat) : res (list node) :=
  let f := secSpan academic sec index in
  subject ← secStr sec (u "subject");
  template
    [ txt "<strong>Academics: ";
      esc (orElse subject (u "(Subject " ++ numToString (N.of_nat (index + 1)) ++ u ")"));
      txt "</strong>";
      txt "<p>On the spring STAAR "; f "subject" "subject/course";
      txt " assessment, "; esc studentName; txt " was relatively proficient in ";
      f "staarProficient" "TEKS Student Expectations"; txt ". ";
      esc studentName; txt " demonstrated deficits in ";
      f "staarDeficits" "Student Essential Outcome or TEKS"; txt ".</p>";
      txt "<p>Baseline data shows that "; esc studentName; txt " performs at ";
      f "readingFluency" "score/percentile"; txt " in reading fluency, ";
      f "readingComprehension" "score/percentile"; txt " in reading comprehension, and ";
      f "mathProblemSolving" "score/percentile"; txt " in math problem-solving.</p>";
      txt "<p>In the classroom setting, "; esc studentName; txt " is able to ";
      f "classroomStrengths" "strengths"; txt ". However, ";
      raw (fillPronoun rawName (u "he/she"));
      txt " demonstrates deficits in the classroom in ";
      f "classroomDeficits" "needs‚Äîaligned with STAAR weak areas";
      txt ", as evidenced by ";
      f "deficitsEvidence" "work samples, CBM, rubrics"; txt ".</p>";
      txt "<p>Critical areas of need remain "; f "criticalNeeds" "area";
      txt ", which affect independent access to the grade-level curriculum.</p>" ].

Definition functionalParts : res (list node) :=
  template
    [ txt "<strong>Functional</strong>";
      txt "<p>According to ";
      fillSpan "functionalDataSource" "teacher information, observation, etc.";
      txt ", "; esc studentName; txt " has strengths in ";
      fillSpan "functionalStrengths" "functional strengths";
      txt ". However, according to the same sources, "; esc studentName;
      txt " has deficits in ";
      fillSpan "functionalDeficits" "functional deficits and data";
      txt ". At this time, these functional deficits are negatively impacting ";
      esc (fillPossessive rawName studentName); txt " rate of progress by ";
      fillSpan "functionalImpact" "describe impact"; txt ".</p>" ].

Definition transitionParts : res (list node) :=
  template
    [ txt "<strong>Transition (Secondary)</strong>";
      txt "<p>According to teacher survey and classroom observation, ";
      esc studentName; txt " was relatively proficient in ";
      fillSpan "transitionStrengths" "strengths - Life Skills, Community experiences, etc.";
      txt ". In order to progress in independent living, employment, post-secondary educational training, and community experiences ";
      esc studentName; txt " will need support in ";
      fillSpan "transitionSupportNeeds" "support areas"; txt ".</p>";
      txt "<p>"; esc studentName; txt " would like to work in the ";
      fillSpan "transitionEmploymentGoal" "area of employment";
      txt " after high school.</p>";
      txt "<p>"; span "parentName" parentName; txt " plans for him/her to work ";
      fillSpan "parentEmploymentPlan" "full or part";
      txt " time when he/she graduates. "; span "parentName" parentName;
      txt " would like to see "; esc studentName; txt " work in ";
      fillSpan "parentEmploymentGoal" "employment area";
      txt " industry after their educational career. ";
      span "parentName" parentName; txt " is planning for "; esc studentName;
      txt " to live ";
      fillSpan "parentLivingPlan" "with a friend / independently / at home";
      txt " after educational career.</p>" ].

(** The callback of [data.performanceSummarySections.forEach(...)] *)
Definition summaryParts (sec : elem) (index : nat) : res (list node) :=
  let f := secSpan summary sec index in
  template
    [ txt "<p>"; esc studentName; txt " ";
      f "passedStateAssessment" "passed/did not pass"; txt " the ";
      f "subject" "subject"; txt " state assessment with a performance of ";
      f "taksScore" "TAKS score"; txt ", obtaining a raw score of ";
      f "rawScore" "raw score"; txt " which was ";
      f "percentCorrect" "% correct"; txt " correct. "; esc studentName;
      txt " is currently making or made a ";
      f "gradeInSubject" "grade in subject"; txt ". "; esc studentName;
      txt " requires accommodations/modifications/assistive technology of ";
      f "accommodations" "accommodations/assist tech";
      txt " due to his/her disability and "; f "needs" "needs"; txt ". ";
      esc (fillPronoun rawName (u "He/She")); txt " ";
      f "receivesSpecialEdSupport" "receives/does not receive";
      txt " special education support in ";
      (subject ← secStr sec (u "subject"); s ← defined subject;
       OK (Span (u "subject") s (Some summary) (Some index)));
      txt ". In "; f "subject" "subject"; txt " "; esc studentName;
      txt " exhibits skills of ";
      f "strengths" "PLAAFP strengths for subject"; txt ".</p>" ].

End Pieces.

(** [data.academicSections.forEach(...)]: only an array has [forEach]. *)
Definition academicBlocks (data : PlaafpData) (rawName : strval)
    (studentName : jsstring) : res (list node) :=
  match data !! kAcademicSections with
  | Some (TArr l) => forEachFrom (academicParts rawName studentName) 0 l
  | _ => TypeError
  end.

(** [if (data.performanceSummarySections.length > 0) { ... forEach ... }]:
    a string has a [length] too, but no [forEach]. *)
Definition summaryBlocks (data : PlaafpData) (rawName : strval)
    (studentName : jsstring) : res (list node) :=
  match data !! kPerformanceSummarySections with
  | Some (TArr []) | Some (TStr []) => OK []
  | Some (TArr l) =>
      blocks ← forEachFrom (summaryParts rawName studentName) 0 l;
      OK (Text (u "<strong>Summary of Performance</strong>") :: blocks)
  | Some (TStr _) | None => TypeError
  end.

(** The pieces pushed on [htmlParts], in order. *)
Definition generatePreviewParts (data : PlaafpData) : res (list node) :=
  rawName ← getStr data (u "studentName");
  rawParent ← getStr data (u "parentName");
  let studentName := orElse rawName (u "______ (student name)") in
  let parentName := orElse rawParent (u "______ (parent name)") in
  intro ← introParts data rawName studentName;
  acad ← academicBlocks data rawName studentName;
  func ← functionalParts data rawName studentName;
  trans ← transitionParts data studentName parentName;
  summ ← summaryBlocks data rawName studentName;
  OK (intro ++ acad ++ func ++ trans ++ summ).

(** [generatePreviewHtml] *)
Definition generatePreviewHtml (data : PlaafpData) : res jsstring :=
  joinParts <$> generatePreviewParts data.

(* ===================================================================== *)
(** ** Reverse-sync engine: [handlePreviewEdit] *)
(* ===================================================================== *)

(** One element of [parserDiv.querySelectorAll('.editable-field[data-field]')]:
    its [dataset.field], [dataset.index], [dataset.sectionType] and
    [innerText].  Parsing the markup is the browser's work; the engine sees
    the markup only through this list, in document order. *)
Record element : Type := Element {
  dataField : jsstring;
  dataIndex : option jsstring;
  dataSectionType : option jsstring;
  innerText : jsstring
}.

#[global] Instance element_eq_dec : EqDecision element.
Proof. solve_decision. Defined.

(** The located elements of a rendered document.  A [Span] piece is one
    element; its text is the value that was escaped into it, as long as the
    value holds no U+0000 and no carriage return, which the HTML parser
    drops or turns into line feeds.  Text pieces carry no element.  An
    unescaped interpolation containing [<] could open elements of its own.
    Where the browser would rewrite a text or find other elements the model
    does not follow it and answers [None]. *)
Definition hasTagOpen (s : jsstring) : bool := existsb (λ c, (c =? 60)%N) s.

Definition parserRewrites (s : jsstring) : bool :=
  existsb (λ c, (c =? 0)%N || (c =? 13)%N) s.

Fixpoint locatedElements (parts : list node) : option (list element) :=
  match parts with
  | [] => Some []
  | Text _ :: ps => locatedElements ps
  | Unescaped s :: ps => if hasTagOpen s then None else locatedElements ps
  | Span field value sectionType index :: ps =>
      if parserRewrites value then None
      else
        es ← locatedElements ps;
        Some (Element field ((λ i, numToString (N.of_nat i)) <$> index)
                      (kindName <$> sectionType) value :: es)
  end.

(** [p[field]] on a string primitive [p], when that is a string: the code
    unit at position [field].  Every other property of a primitive
    ([length], the methods) is not a string. *)
Definition stringProp (p field : jsstring) : option jsstring :=
  i ← list_find (λ i, numToString (N.of_nat i) = field) (seq 0 (length p)) ≫= (λ x, Some x.2);
  c ← p !! i;
  Some [c].

(** [xs[index]] for the number [parseInt] returned: only a non-negative
    integer names a position ([NaN] and negative numbers name no element). *)
Definition position (index : option Z) : option nat :=
  z ← index;
  if (0 <=? z)%Z then Some (Z.to_nat z) else None.

Definition atIndex {A} (xs : list A) (index : option Z) : option A :=
  i ← position index; xs !! i.

(** [(p as any)[field] !== value] followed by [(p as any)[field] = value]
    for a truthy string primitive [p]: assigning a property on a primitive
    throws in strict code. *)
Definition syncPrimitive {A} (p field value : jsstring) : res (option A) :=
  match p with
  | [] => OK None
  | _ => if bool_decide (stringProp p field = Some value) then OK None else TypeError
  end.

(** The guarded assignment of one branch,
<<
    newData.academicSections[index]
      && (newData.academicSections[index] as any)[field] !== value
>>
    followed, when it holds, by
    [(newData.academicSections[index] as any)[field] = value].  The answer is
    the updated [newData] when the guard held, [None] when it did not. *)
Definition syncSection (key : jsstring) (newData : PlaafpData) (index : option Z)
    (field value : jsstring) : res (option PlaafpData) :=
  match newData !! key with
  | None => TypeError
  | Some (TStr s) =>
      match atIndex s index with
      | Some c => syncPrimitive [c] field value
      | None => OK None
      end
  | Some (TArr l) =>
      match position index with
      | None => OK None
      | Some i =>
          match l !! i with
          | None => OK None
          | Some (EStr p) => syncPrimitive p field value
          | Some (EObj o) =>
              if bool_decide (o !! field = Some (FStr value)) then OK None
              else OK (Some (<[key := TArr (<[i := EObj (setProp field (FStr value) o)]> l)]>
                               newData))
          end
      end
  end.

(** The body of [fields.forEach(fieldElement => ...)], on the pair
    [(newData, changed)]. *)
Definition syncField (st : PlaafpData * bool) (fieldElement : element)
  : res (PlaafpData * bool) :=
  let '(newData, changed) := st in
  let field := dataField fieldElement in
  let value := innerText fieldElement in
  match field with
  | [] => OK st
  | _ =>
      match dataIndex fieldElement with
      | Some indexStr =>
          let index := parseInt indexStr in
          let mark (r : option PlaafpData) : PlaafpData * bool :=
            match r with Some newData' => (newData', true) | None => st end in
          if bool_decide (dataSectionType fieldElement = Some kAcademic) then
            mark <$> syncSection kAcademicSections newData index field value
          else if bool_decide (dataSectionType fieldElement = Some kSummary) then
            mark <$> syncSection kPerformanceSummarySections newData index field value
          else OK st
      | None =>
          if bool_decide (newData !! field = Some (TStr value)) then OK st
          else OK (setProp field (TStr value) newData, true)
      end
  end.

Fixpoint forEachField (st : PlaafpData * bool) (fields : list element)
  : res (PlaafpData * bool) :=
  match fields with
  | [] => OK st
  | fieldElement :: rest => st' ← syncField st fieldElement; forEachField st' rest
  end.

(** What the updater passed to [setData] returns: [currentData] itself, or
    the modified deep copy. *)
Inductive outcome : Type :=
  | Same
  | Replaced (newData : PlaafpData).

#[global] Instance outcome_eq_dec : EqDecision outcome.
Proof. solve_decision. Defined.

(** [handlePreviewEdit], on the located elements of [html].
    [JSON.parse(JSON.stringify(currentData))] is a deep copy, equal in value
    to [currentData]. *)
Definition handlePreviewEdit (fields : list element) (currentData : PlaafpData)
  : res outcome :=
  match forEachField (currentData, false) fields with
  | OK (newData, changed) => OK (if changed then Replaced newData else Same)
  | TypeError => TypeError
  end.

(** The record held by the store after the updater ran. *)
Definition commit (currentData : PlaafpData) (o : outcome) : PlaafpData :=
  match o with
  | Same => currentData
  | Replaced newData => newData
  end.

(* ===================================================================== *)
(** ** Vocabulary of the statements *)
(* ===================================================================== *)

(** The subsection an element of the markup points at: kind [kind],
    position [i]. *)
Definition targets (e : element) (kind : sectionKind) (i : nat) : Prop :=
  ∃ indexStr, dataIndex e = Some indexStr
              ∧ dataSectionType e = Some (kindName kind)
              ∧ position (parseInt indexStr) = Some i.

(** The entry at position [i] of the list of kind [kind]. *)
Definition sectionAt (data : PlaafpData) (kind : sectionKind) (i : nat) : option elem :=
  match data !! listKey kind with
  | Some (TArr l) => l !! i
  | _ => None
  end.

(** The [id] of a list entry. *)
Definition idOf (e : elem) : option fval :=
  match e with
  | EObj o => o !! u "id"
  | EStr _ => None
  end.

(** The placeholder each field is filled with: the pairs
    [fill(data.f, p)] and [fill(section.f, p)] of [generatePreviewHtml]. *)
Definition topPlaceholders : list (string * string) :=
  [ ("grade", "grade"); ("disabilities", "disability(ies)");
    ("subjects", "subjects/courses"); ("cognitiveDeficits", "cognitive areas");
    ("academicDeficits", "academic areas");
    ("disabilityImpact", "describe impact on access/progress");
    ("specialEdSupport", "special education/resource support");
    ("relatedServices", "related services");
    ("accommodations", "list of accommodations");
    ("functionalDataSource", "teacher information, observation, etc.");
    ("functionalStrengths", "functional strengths");
    ("functionalDeficits", "functional deficits and data");
    ("functionalImpact", "describe impact");
    ("transitionStrengths", "strengths - Life Skills, Community experiences, etc.");
    ("transitionSupportNeeds", "support areas");
    ("transitionEmploymentGoal", "area of employment");
    ("parentEmploymentPlan", "full or part");
    ("parentEmploymentGoal", "employment area");
    ("parentLivingPlan", "with a friend / independently / at home") ]%string.

Definition academicPlaceholders : list (string * string) :=
  [ ("subject", "subject/course");
    ("staarProficient", "TEKS Student Expectations");
    ("staarDeficits", "Student Essential Outcome or TEKS");
    ("readingFluency", "score/percentile");
    ("readingComprehension", "score/percentile");
    ("mathProblemSolving", "score/percentile");
    ("classroomStrengths", "strengths");
    ("classroomDeficits", "needs‚Äîaligned with STAAR weak areas");
    ("deficitsEvidence", "work samples, CBM, rubrics");
    ("criticalNeeds", "area") ]%string.

Definition summaryPlaceholders : list (string * string) :=
  [ ("passedStateAssessment", "passed/did not pass"); ("subject", "subject");
    ("taksScore", "TAKS score"); ("rawScore", "raw score");
    ("percentCorrect", "% correct"); ("gradeInSubject", "grade in subject");
    ("accommodations", "accommodations/assist tech"); ("needs", "needs");
    ("receivesSpecialEdSupport", "receives/does not receive");
    ("strengths", "PLAAFP strengths for subject") ]%string.

Definition sectionPlaceholders (kind : sectionKind) : list (string * string) :=
  match kind with
  | academic => academicPlaceholders
  | summary => summaryPlaceholders
  end.

Fixpoint placeholderOf (table : list (string * string)) (field : jsstring)
  : option jsstring :=
  match table with
  | [] => None
  | (f, p) :: table' =>
      if bool_decide (u f = field) then Some (u p) else placeholderOf table' field
  end.

(** Where the text of a rendered span comes from.  A flat field is shown
    through [fill], except the two names, which use [||]; a subsection field
    is shown through [fill] and carries its kind and position, except the
    one span of a summary paragraph that shows [section.subject] as it is. *)
Definition spanOrigin (data : PlaafpData) (n : node) : Prop :=
  match n with
  | Text _ | Unescaped _ => True
  | Span field value None None =>
      ∃ v, getStr data field = OK v
           ∧ ((field = u "studentName" ∧ value = orElse v (u "______ (student name)"))
              ∨ (field = u "parentName" ∧ value = orElse v (u "______ (parent name)"))
              ∨ (∃ p, placeholderOf topPlaceholders field = Some p ∧ value = fill v p))
  | Span field value (Some kind) (Some i) =>
      ∃ sec v, sectionAt data kind i = Some sec ∧ secStr sec field = OK v
               ∧ ((∃ p, placeholderOf (sectionPlaceholders kind) field = Some p
                        ∧ value = fill v p)
                  ∨ (kind = summary ∧ field = u "subject" ∧ v = Some value))
  | Span _ _ _ _ => False
  end.

(** The located element of a span. *)
Definition spanElement (field value : jsstring) (sectionType : option sectionKind)
    (index : option nat) : element :=
  Element field ((λ i, numToString (N.of_nat i)) <$> index) (kindName <$> sectionType) value.

(** [needle] occurs in [hay] ([hay.includes(needle)]). *)
Fixpoint startsWith (needle hay : jsstring) : bool :=
  match needle, hay with
  | [], _ => true
  | c :: needle', c' :: hay' => (c =? c')%N && startsWith needle' hay'
  | _ :: _, [] => false
  end.

Fixpoint includes (needle hay : jsstring) : bool :=
  startsWith needle hay
  || match hay with
     | [] => false
     | _ :: hay' => includes needle hay'
     end.

(** A text of the form "(...)". *)
Definition parenthesised (s : jsstring) : Prop := ∃ p, s = u "(" ++ p ++ u ")".

(** The names the forms pass to the section handlers ([AcademicsStep],
    [PerformanceSummaryStep]). *)
Definition sectionFormFields (kind : sectionKind) : list jsstring :=
  (λ fp, u fp.1) <$> sectionPlaceholders kind.

(** The keys of a section object of kind [kind]. *)
Definition sectionKeys (kind : sectionKind) : list jsstring :=
  u "id" :: (map_to_list (initialSection kind)).*1.

(** The records the application can hold: the initial one and whatever the
    handlers make of a record it can hold.  [handleChange] is called by the
    form with the name of one of the flat fields, the section handlers with
    the position of a section of the list and the name of one of its inputs;
    the preview may hand any markup to [handlePreviewEdit]. *)
Inductive reachable : PlaafpData → Prop :=
  | reach_initial : reachable initialPlaafpData
  | reach_change data name value :
      reachable data → name ∈ flatFields →
      reachable (handleChange name value data)
  | reach_section_change data kind index name value o data' :
      reachable data → sectionAt data kind index = Some (EObj o) →
      name ∈ sectionFormFields kind →
      handleSectionChange kind index name value data = OK data' →
      reachable data'
  | reach_add data kind now data' :
      reachable data → handleAddSection kind now data = OK data' →
      reachable data'
  | reach_preview_edit data fields o :
      reachable data → handlePreviewEdit fields data = OK o →
      reachable (commit data o).

(** The two assignments of the scan: a located element that makes a
    difference either writes a top-level property or a property of the
    section object it resolves to. *)
Inductive syncWrite (newData : PlaafpData) (e : element) : PlaafpData → Prop :=
  | write_top :
      dataIndex e = None → dataField e ≠ [] →
      newData !! dataField e ≠ Some (TStr (innerText e)) →
      syncWrite newData e (setProp (dataField e) (TStr (innerText e)) newData)
  | write_section kind i l o :
      targets e kind i → dataField e ≠ [] →
      newData !! listKey kind = Some (TArr l) → l !! i = Some (EObj o) →
      o !! dataField e ≠ Some (FStr (innerText e)) →
      syncWrite newData e
        (<[listKey kind :=
             TArr (<[i := EObj (setProp (dataField e) (FStr (innerText e)) o)]> l)]> newData).


(** A top-level locator that names one of the two lists. *)
Definition namesList (kind : sectionKind) (e : element) : Prop :=
  dataIndex e = None ∧ dataField e = listKey kind.

#[global] Instance namesList_dec kind e : Decision (namesList kind e).
Proof. unfold namesList. apply _. Defined.

(** A subsection locator that names the field [id]. *)
Definition namesId (e : element) : Prop :=
  dataIndex e ≠ None ∧ dataField e = u "id".

#[global] Instance namesId_dec e : Decision (namesId e).
Proof. unfold namesId. apply _. Defined.

(** The located elements of the markup rendered for [data], where the model
    covers both steps. *)
Definition renderedElements (data : PlaafpData) : option (list element) :=
  match generatePreviewParts data with
  | OK parts => locatedElements parts
  | TypeError => None
  end.

(** The outcome of a preview edit that does not throw. *)
Definition editOutcome (fields : list element) (data : PlaafpData) : outcome :=
  match handlePreviewEdit fields data with
  | OK o => o
  | TypeError => Same
  end.

(** *** Concrete records and markups of the examples *)

(** The empty record after one academic section was added at clock reading
    [1700000000000]. *)
Definition oneAcademic : PlaafpData :=
  <[kAcademicSections := TArr [EObj (newSection academic 1700000000000)]]>
    initialPlaafpData.

(** A markup whose first located element names the list itself and whose
    second addresses position 0 of that list. *)
Definition markupNamingList : list element :=
  [ Element (u "academicSections") None None (u "x");
    Element (u "subject") (Some (u "0")) (Some (u "academic")) (u "y") ].

(** A markup with one located element that names [id] of the first academic
    section. *)
Definition markupNamingId : list element :=
  [ Element (u "id") (Some (u "0")) (Some (u "academic")) (u "42") ].


Definition markupSubjectEdit : list element :=
  [ Element (u "subject") (Some (u "0")) (Some (u "academic")) (u "Math") ].

(** The markup rendered for the empty record, with the text of the [grade]
    span (the second located element) replaced by [5]. *)
Definition markupGradeEdited : list element :=
  <[1%nat := Element (u "grade") None None (u "5")]>
    (default [] (renderedElements initialPlaafpData)).

(** The empty record with [<script>] as deficit type, and with [<script>]
    as student name. *)
Definition recordScriptDeficit : PlaafpData :=
  <[u "deficitType" := TStr (u "<script>")]> initialPlaafpData.

Definition recordScriptName : PlaafpData :=
  <[u "studentName" := TStr (u "<script>")]> initialPlaafpData.

(** The empty record with a student name made of one space. *)
Definition recordBlankName : PlaafpData :=
  <[u "studentName" := TStr (u " ")]> initialPlaafpData.

(** The text of the [n]-th located span of a rendered document. *)
Definition spanTexts (parts : list node) : list jsstring :=
  omap (λ n, match n with Span _ value _ _ => Some value | _ => None end) parts.

(** Every flat field and every field of every section holds a string. *)
Definition allStrings (data : PlaafpData) : Prop :=
  (∀ k, k ∈ flatFields → ∃ s, data !! k = Some (TStr s))
  ∧ ∀ kind l i o k,
      data !! listKey kind = Some (TArr l) → l !! i = Some (EObj o) →
      k ∈ sectionKeys kind → ∃ s, o !! k = Some (FStr s).

(** The same, [progressDataSources] being allowed to hold a list of
    strings. *)
Definition stringsAndSources (data : PlaafpData) : Prop :=
  (∀ k, k ∈ flatFields → ∃ s, data !! k = Some (TStr s))
  ∧ ∀ kind l i o k,
      data !! listKey kind = Some (TArr l) → l !! i = Some (EObj o) →
      k ∈ sectionKeys kind →
      (∃ s, o !! k = Some (FStr s))
      ∨ (k = u "progressDataSources" ∧ ∃ ss, o !! k = Some (FStrs ss)).

(** The student name is not empty. *)
Definition nameGiven (data : PlaafpData) : Prop :=
  ∃ c s, data !! u "studentName" = Some (TStr (c :: s)).

(** Both lists hold section objects whose subject is a non-empty string
    without white space at either end. *)
Definition subjectsSettled (data : PlaafpData) : Prop :=
  ∀ kind, ∃ l,
    data !! listKey kind = Some (TArr l)
    ∧ Forall (λ e, ∃ o s, e = EObj o ∧ o !! u "subject" = Some (FStr s)
                          ∧ s ≠ [] ∧ trim s = s) l.

(** The pieces rendered for [data], when rendering does not throw. *)
Definition renderedParts (data : PlaafpData) : list node :=
  match generatePreviewParts data with
  | OK parts => parts
  | TypeError => []
  end.

(** The markup rendered for the empty record, unedited. *)
Definition markupOfEmpty : list element :=
  default [] (renderedElements initialPlaafpData).

(** A record with a student name and one section of each kind, each with a
    subject. *)
Definition recordJordan : PlaafpData :=
  <[u "studentName" := TStr (u "Jordan")]>
    (<[kAcademicSections :=
         TArr [EObj (<[u "subject" := FStr (u "Math")]>
                       (newSection academic 1700000000000))]]>
       (<[kPerformanceSummarySections :=
            TArr [EObj (<[u "subject" := FStr (u "Math")]>
                          (newSection summary 1700000000001))]]>
          initialPlaafpData)).

(** The markup rendered for [recordJordan], unedited. *)
Definition markupOfJordan : list element :=
  default [] (renderedElements recordJordan).

(** *** The markup of a located element *)

(** [name="value"], an attribute of a start tag. *)
Definition attribute (name : string) (value : jsstring) : jsstring :=
  u name ++ u "=" ++ dq ++ value ++ dq.

(** The markup of the located element [e]: a [span] of class
    [editable-field] whose attributes [data-field], [data-index] and
    [data-section-type] hold the locator ([dataset.field], [dataset.index],
    [dataset.sectionType]) and whose content is the text, with [&], [<]
    and [>] escaped.  An attribute the element does not have is not
    written; the blanks between the attributes are those of the code. *)
Definition spanMarkup (e : element) : jsstring :=
  u "<span " ++ attribute "class" (u "editable-field")
    ++ u " " ++ attribute "data-field" (dataField e)
    ++ u " " ++ from_option (attribute "data-index") [] (dataIndex e)
    ++ u " " ++ from_option (attribute "data-section-type") [] (dataSectionType e)
    ++ u ">" ++ sanitize (innerText e) ++ u "</span>".

(** The located span of the flat field [field] showing [text], and the one
    of the field [field] of the section of kind [kind] at position [i]: the
    position is written in decimal. *)
Definition flatSpan (field text : jsstring) : jsstring :=
  spanMarkup (Element field None None text).

Definition sectionSpan (kind : sectionKind) (i : nat) (field text : jsstring) : jsstring :=
  spanMarkup (Element field (Some (numToString (N.of_nat i))) (Some (kindName kind)) text).

(** [needle] occurs in [hay]. *)
Definition occursIn (needle hay : jsstring) : Prop := includes needle hay = true.

#[global] Instance occursIn_dec needle hay : Decision (occursIn needle hay).
Proof. unfold occursIn. apply _. Defined.

(** The text [fill] shows for a missing or blank value. *)
Definition inParentheses (placeholder : string) : jsstring :=
  u "(" ++ u placeholder ++ u ")".


(* ===================================================================== *)
(** ** Saved documents and [localStorage]: the other handlers of [App] *)
(* ===================================================================== *)

(** The names [Object.prototype] defines.  Indexing an ordinary object with
    one of them finds the inherited value when the object has no property
    of its own under that name. *)
Definition objectPrototypeKeys : list jsstring :=
  Eval vm_compute in
    map u [ "constructor"; "__defineGetter__"; "__defineSetter__"; "hasOwnProperty";
            "__lookupGetter__"; "__lookupSetter__"; "isPrototypeOf";
            "propertyIsEnumerable"; "toString"; "valueOf"; "__proto__";
            "toLocaleString" ]%string.

(** [savedPlaafps[id]] *)
Inductive indexed : Type :=
  | Own (doc : PlaafpData)
  | Inherited
  | Undefined.

Definition getDoc (docs : gmap jsstring PlaafpData) (id : jsstring) : indexed :=
  match docs !! id with
  | Some doc => Own doc
  | None => if bool_decide (id ∈ objectPrototypeKeys) then Inherited else Undefined
  end.

(** A string or [null] is truthy when it is a non-empty string. *)
Definition truthy (s : option jsstring) : bool :=
  match s with
  | Some (_ :: _) => true
  | _ => false
  end.

(** The text stored under ['plaafp-documents'], by what [JSON.parse] makes of
    it.  [JSON.parse(JSON.stringify(docs))] is equal in value to [docs]. *)
Inductive documentsText : Type :=
  | Stringified (docs : gmap jsstring PlaafpData)
      (** [JSON.stringify(docs)] *)
  | EmptyText
      (** the empty string, which is falsy *)
  | Malformed
      (** a text on which [JSON.parse] throws *)
  | Foreign.
      (** JSON for anything else; the model does not follow the application
          on it *)

(** The three items of [localStorage] the application uses.  The store is
    there: [getItem] and [removeItem] answer and do not throw; [setItem]
    throws when the store has no room for the item. *)
Record storage : Type := Storage {
  geminiApiKey : option jsstring;          (** ['gemini-api-key'] *)
  plaafpDocuments : option documentsText;  (** ['plaafp-documents'] *)
  plaafpCurrentId : option jsstring        (** ['plaafp-current-id'] *)
}.

#[global] Instance documentsText_eq_dec : EqDecision documentsText.
Proof. solve_decision. Defined.
#[global] Instance storage_eq_dec : EqDecision storage.
Proof. solve_decision. Defined.

Definition emptyStorage : storage := Storage None None None.

(** The argument of [setActiveField]. *)
Record activeFieldInfo : Type := ActiveFieldInfo {
  activeName : jsstring;            (** [field] *)
  activeLabel : jsstring;           (** [label] *)
  academicIndex : option nat;
  summaryIndex : option nat
}.

(** The state of [App] these handlers read and write, with the browser's
    store.  The state of the loading overlay and of the suggestion dialog,
    which they do not touch, is left out. *)
Record appState : Type := AppState {
  apiKey : option jsstring;
  data : PlaafpData;
  currentStep : nat;
  activeField : option activeFieldInfo;
  savedPlaafps : gmap jsstring PlaafpData;
  currentPlaafpId : option jsstring;
  localStorage : storage
}.

#[global] Instance activeFieldInfo_eq_dec : EqDecision activeFieldInfo.
Proof. solve_decision. Defined.
#[global] Instance appState_eq_dec : EqDecision appState.
Proof. solve_decision. Defined.

(** The state setters of [useState]. *)
Definition setApiKey (v : option jsstring) (st : appState) : appState :=
  AppState v (data st) (currentStep st) (activeField st) (savedPlaafps st)
           (currentPlaafpId st) (localStorage st).

Definition setData (v : PlaafpData) (st : appState) : appState :=
  AppState (apiKey st) v (currentStep st) (activeField st) (savedPlaafps st)
           (currentPlaafpId st) (localStorage st).

Definition setCurrentStep (v : nat) (st : appState) : appState :=
  AppState (apiKey st) (data st) v (activeField st) (savedPlaafps st)
           (currentPlaafpId st) (localStorage st).

Definition setActiveField (v : option activeFieldInfo) (st : appState) : appState :=
  AppState (apiKey st) (data st) (currentStep st) v (savedPlaafps st)
           (currentPlaafpId st) (localStorage st).

Definition setSavedPlaafps (v : gmap jsstring PlaafpData) (st : appState) : appState :=
  AppState (apiKey st) (data st) (currentStep st) (activeField st) v
           (currentPlaafpId st) (localStorage st).

Definition setCurrentPlaafpId (v : option jsstring) (st : appState) : appState :=
  AppState (apiKey st) (data st) (currentStep st) (activeField st) (savedPlaafps st)
           v (localStorage st).

(** [localStorage.setItem] and [localStorage.removeItem], by key. *)
Definition onStorage (f : storage → storage) (st : appState) : appState :=
  AppState (apiKey st) (data st) (currentStep st) (activeField st) (savedPlaafps st)
           (currentPlaafpId st) (f (localStorage st)).

Definition setApiKeyItem (key : jsstring) (s : storage) : storage :=
  Storage (Some key) (plaafpDocuments s) (plaafpCurrentId s).

Definition setDocumentsItem (docs : gmap jsstring PlaafpData) (s : storage) : storage :=
  Storage (geminiApiKey s) (Some (Stringified docs)) (plaafpCurrentId s).

Definition removeDocumentsItem (s : storage) : storage :=
  Storage (geminiApiKey s) None (plaafpCurrentId s).

Definition setCurrentIdItem (id : jsstring) (s : storage) : storage :=
  Storage (geminiApiKey s) (plaafpDocuments s) (Some id).

Definition removeCurrentIdItem (s : storage) : storage :=
  Storage (geminiApiKey s) (plaafpDocuments s) None.

(** The state [App] is mounted with. *)
Definition initialApp (store : storage) : appState :=
  AppState None initialPlaafpData 0 None ∅ None store.

(** The first effect:
<<
    const savedKey = localStorage.getItem('gemini-api-key');
    if (savedKey) { setApiKey(savedKey); }
>> *)
Definition loadApiKeyEffect (st : appState) : appState :=
  let savedKey := geminiApiKey (localStorage st) in
  if truthy savedKey then setApiKey savedKey st else st.

(** The second effect, which runs when [apiKey] has changed:
<<
    if (!apiKey) return;
    try {
      const allDocsRaw = localStorage.getItem('plaafp-documents');
      const docs = allDocsRaw ? JSON.parse(allDocsRaw) : {};
      setSavedPlaafps(docs);
      const currentId = localStorage.getItem('plaafp-current-id');
      if (currentId && typeof currentId === 'string' && docs[currentId]) {
        setCurrentPlaafpId(currentId);
        setData(docs[currentId]);
      } else {
        setData(initialPlaafpData);
        setCurrentPlaafpId(null);
        localStorage.removeItem('plaafp-current-id');
      }
    } catch (error) {
      setData(initialPlaafpData); setSavedPlaafps({}); setCurrentPlaafpId(null);
    }
>>
    The answer is [None] where the model does not follow the code: on a
    stored text that is JSON for something else than a map of documents,
    and where [docs[currentId]] finds a value inherited from
    [Object.prototype]. *)
Definition loadDocumentsEffect (st : appState) : option appState :=
  if negb (truthy (apiKey st)) then Some st
  else
    let reset (docs : gmap jsstring PlaafpData) : appState :=
      onStorage removeCurrentIdItem
        (setCurrentPlaafpId None (setData initialPlaafpData (setSavedPlaafps docs st))) in
    let withDocs (docs : gmap jsstring PlaafpData) : option appState :=
      let currentId := plaafpCurrentId (localStorage st) in
      if truthy currentId then
        match getDoc docs (default [] currentId) with
        | Own doc => Some (setData doc (setCurrentPlaafpId currentId (setSavedPlaafps docs st)))
        | Inherited => None
        | Undefined => Some (reset docs)
        end
      else Some (reset docs) in
    match plaafpDocuments (localStorage st) with
    | None | Some EmptyText => withDocs ∅
    | Some (Stringified docs) => withDocs docs
    | Some Malformed =>
        Some (setCurrentPlaafpId None (setSavedPlaafps ∅ (setData initialPlaafpData st)))
    | Some Foreign => None
    end.

(** A write to the store other than those of [handleSave] is made outside
    any [try]: when the store has no room, [localStorage.setItem] throws
    out of the handler.  The state updates made before it stay (React
    applies them all the same), the statements after it are not reached,
    and the application goes on.  For these handlers [accepted] tells
    whether the store takes the write. *)

(** [handleSaveApiKey]:
    [localStorage.setItem('gemini-api-key', key); setApiKey(key);] *)
Definition handleSaveApiKey (accepted : bool) (key : jsstring) (st : appState) : appState :=
  if accepted then setApiKey (Some key) (onStorage (setApiKeyItem key) st) else st.

Module ApiKeyModal.

(** [handleSave] of [ApiKeyModal], [apiKey] being the text of its input:
    [if (apiKey.trim()) { onSave(apiKey.trim()); } else { alert(...); }],
    where [onSave] is [handleSaveApiKey]. *)
Definition handleSave (accepted : bool) (apiKey : jsstring) (st : appState) : appState :=
  match trim apiKey with
  | [] => st
  | key => handleSaveApiKey accepted key st
  end.

End ApiKeyModal.

(** [handleNew] *)
Definition handleNew (st : appState) : appState :=
  setCurrentStep 0
    (setActiveField None
       (onStorage removeCurrentIdItem
          (setCurrentPlaafpId None (setData initialPlaafpData st)))).

(** [handleClearAll]; [confirmed] is the answer of [window.confirm]. *)
Definition handleClearAll (confirmed : bool) (st : appState) : appState :=
  if confirmed then handleNew (onStorage removeDocumentsItem (setSavedPlaafps ∅ st))
  else st.

(** [handleSave]:
<<
    if (!data.studentName.trim()) { alert(...); return; }
    const idToSave = currentPlaafpId || Date.now().toString();
    const newSavedPlaafps = { ...savedPlaafps, [idToSave]: data };
    setSavedPlaafps(newSavedPlaafps);
    setCurrentPlaafpId(idToSave);
    try {
      localStorage.setItem('plaafp-documents', JSON.stringify(newSavedPlaafps));
      localStorage.setItem('plaafp-current-id', idToSave);
      alert('Document saved!');
    } catch (error) { alert('Error saving document.'); }
>>
    [now] is the reading of the clock; [accepted] is the number of writes
    the store takes before it throws for lack of room (two or more: both
    are taken).  The alerts change nothing. *)
Definition handleSave (now : N) (accepted : nat) (st : appState) : res appState :=
  studentName ← getStr (data st) (u "studentName") ≫= defined;
  match trim studentName with
  | [] => OK st
  | _ =>
      let idToSave := orElse (currentPlaafpId st) (numToString now) in
      let newSavedPlaafps := <[idToSave := data st]> (savedPlaafps st) in
      let st' := setCurrentPlaafpId (Some idToSave) (setSavedPlaafps newSavedPlaafps st) in
      OK (match accepted with
          | 0 => st'
          | 1 => onStorage (setDocumentsItem newSavedPlaafps) st'
          | _ => onStorage (setCurrentIdItem idToSave)
                   (onStorage (setDocumentsItem newSavedPlaafps) st')
          end)
  end.

(** [handleLoad]:
<<
    if (savedPlaafps[id]) {
      setData(savedPlaafps[id]); setCurrentPlaafpId(id);
      localStorage.setItem('plaafp-current-id', id);
      setActiveField(null); setCurrentStep(0);
    }
>>
    When the store refuses the write, the record and the open id are set
    and the rest is not reached.  An inherited value is truthy as well, but
    no record: the model does not follow the code there. *)
Definition handleLoad (accepted : bool) (id : jsstring) (st : appState)
  : option appState :=
  match getDoc (savedPlaafps st) id with
  | Own doc =>
      let st' := setCurrentPlaafpId (Some id) (setData doc st) in
      Some (if accepted
            then setCurrentStep 0 (setActiveField None (onStorage (setCurrentIdItem id) st'))
            else st')
  | Inherited => None
  | Undefined => Some st
  end.

(** [handleDelete]:
<<
    if (!window.confirm(`... "${savedPlaafps[id].studentName}"? ...`)) { return; }
    const newSavedPlaafps = { ...savedPlaafps };
    delete newSavedPlaafps[id];
    setSavedPlaafps(newSavedPlaafps);
    localStorage.setItem('plaafp-documents', JSON.stringify(newSavedPlaafps));
    if (currentPlaafpId === id) { handleNew(); }
>>
    Reading [studentName] of [undefined] throws before the question is
    asked.  When the store refuses the write, the document is gone from
    [savedPlaafps] only, and [handleNew] is not reached. *)
Definition handleDelete (confirmed accepted : bool) (id : jsstring) (st : appState)
  : res appState :=
  match getDoc (savedPlaafps st) id with
  | Undefined => TypeError
  | _ =>
      if negb confirmed then OK st
      else
        let newSavedPlaafps := delete id (savedPlaafps st) in
        let st' := setSavedPlaafps newSavedPlaafps st in
        if accepted then
          let st'' := onStorage (setDocumentsItem newSavedPlaafps) st' in
          OK (if bool_decide (currentPlaafpId st = Some id) then handleNew st'' else st'')
        else OK st'
  end.

(** *** Sessions *)

(** What the user can do between two loads of the page, with the answers
    of the environment: the reading of the clock, the answer to a
    question, whether the store takes a write. *)
Inductive action : Type :=
  | EnterKey (accepted : bool) (input : jsstring)
      (** [Save and Continue] of the API key dialog *)
  | Change (name value : jsstring)
  | SectionChange (kind : sectionKind) (index : nat) (name value : jsstring)
  | AddSection (kind : sectionKind) (now : N)
  | PreviewEdit (fields : list element)
  | Focus (info : activeFieldInfo)
  | GoTo (step : nat)
  | Save (now : N) (accepted : nat)
  | New
  | Load (accepted : bool) (id : jsstring)
  | Delete (confirmed accepted : bool) (id : jsstring)
  | ClearAll (confirmed : bool).

Definition ok {A} (r : res A) : option A :=
  match r with
  | OK a => Some a
  | TypeError => None
  end.

(** [App] shows the key dialog alone until a key is known
    ([if (!apiKey) return <ApiKeyModal .../>]); the section forms have
    inputs for the entries of the two lists, and [DocumentManager] offers
    [onLoad] and [onDelete] for the entries of [savedPlaafps].  An action
    that is not on offer has no outcome.  A [TypeError] thrown in the body
    of a handler, before any state update, leaves the state as it was; one
    thrown in a state updater ([handleAddAcademicSection],
    [handleAddPerformanceSummarySection], [handlePreviewEdit]) is raised
    while React renders, and there is no outcome.  The function does not
    check that the record still renders: every session of the application
    is one of the model, not the converse. *)
Definition perform (a : action) (st : appState) : option appState :=
  if negb (truthy (apiKey st)) then
    match a with
    | EnterKey accepted input =>
        loadDocumentsEffect (ApiKeyModal.handleSave accepted input st)
    | _ => None
    end
  else
    match a with
    | EnterKey _ _ => None
    | Change name value => Some (setData (handleChange name value (data st)) st)
    | SectionChange kind index name value =>
        if bool_decide (is_Some (sectionAt (data st) kind index)) then
          match handleSectionChange kind index name value (data st) with
          | OK d => Some (setData d st)
          | TypeError => Some st
          end
        else None
    | AddSection kind now =>
        d ← ok (handleAddSection kind now (data st)); Some (setData d st)
    | PreviewEdit fields =>
        o ← ok (handlePreviewEdit fields (data st)); Some (setData (commit (data st) o) st)
    | Focus info => Some (setActiveField (Some info) st)
    | GoTo step => Some (setCurrentStep step st)
    | Save now accepted =>
        match handleSave now accepted st with
        | OK st' => Some st'
        | TypeError => Some st
        end
    | New => Some (handleNew st)
    | Load accepted id =>
        if bool_decide (is_Some (savedPlaafps st !! id)) then handleLoad accepted id st
        else None
    | Delete confirmed accepted id =>
        if bool_decide (is_Some (savedPlaafps st !! id)) then
          match handleDelete confirmed accepted id st with
          | OK st' => Some st'
          | TypeError => Some st
          end
        else None
    | ClearAll confirmed => Some (handleClearAll confirmed st)
    end.

Fixpoint performAll (actions : list action) (st : appState) : option appState :=
  match actions with
  | [] => Some st
  | a :: rest => st' ← perform a st; performAll rest st'
  end.

(** Mounting [App] on a store: the two effects, in order. *)
Definition mount (store : storage) : option appState :=
  loadDocumentsEffect (loadApiKeyEffect (initialApp store)).

(** *** Vocabulary of the further properties *)

(** What the three replacements of [sanitize] make of one code unit. *)
Definition escapeChar (c : N) : jsstring :=
  if (c =? 38)%N then u "&amp;"
  else if (c =? 60)%N then u "&lt;"
  else if (c =? 62)%N then u "&gt;"
  else [c].

(** The flat fields [generatePreviewHtml] shows in a span: the two names
    and the fields shown through [fill]. *)
Definition renderedFlatFields : list jsstring :=
  u "studentName" :: u "parentName" :: ((λ fp, u fp.1) <$> topPlaceholders).

(** The properties of a record [generatePreviewHtml] reads: the flat ones,
    and all of them. *)
Definition renderedFlatKeys : list jsstring := u "deficitType" :: renderedFlatFields.

Definition renderedKeys : list jsstring :=
  kAcademicSections :: kPerformanceSummarySections :: renderedFlatKeys.

(** The flat fields [generatePreviewHtml] does not read. *)
Definition unrenderedFlatFields : list jsstring :=
  filter (λ k, k ∉ renderedKeys) flatFields.

(** A top-level locator that names the property [f]. *)
Definition namesFlat (f : jsstring) (e : element) : Prop :=
  dataIndex e = None ∧ dataField e = f.

#[global] Instance namesFlat_dec f e : Decision (namesFlat f e).
Proof. unfold namesFlat. apply _. Defined.

(** A subsection locator that addresses position [i] of the list of kind
    [kind] and names the field [f]. *)
Definition namesField (kind : sectionKind) (i : nat) (f : jsstring) (e : element) : Prop :=
  targets e kind i ∧ dataField e = f.

#[global] Instance targets_dec e kind i : Decision (targets e kind i).
Proof.
  unfold targets. destruct (dataIndex e) as [s|].
  - destruct (decide (dataSectionType e = Some (kindName kind)
                      ∧ position (parseInt s) = Some i)) as [H|H].
    + left. exists s. by destruct H.
    + right. intros (s' & Hs & Hk & Hp). injection Hs as <-. by apply H.
  - right. by intros (s & Hs & _).
Defined.

#[global] Instance namesField_dec kind i f e : Decision (namesField kind i f e).
Proof. unfold namesField. apply _. Defined.

(** The text of the last located element of [els], in document order, that
    satisfies [P]. *)
Definition lastText (P : element → Prop) `{∀ e, Decision (P e)} (els : list element)
  : option jsstring :=
  innerText <$> last (filter P els).

(** A locator as [editableSpan] writes it for [generatePreviewHtml]: without
    index and section type it names a flat field shown in a span; with them
    it names one of the fields shown for a section of its kind. *)
Definition rendererLocator (e : element) : Prop :=
  match dataIndex e with
  | None => dataSectionType e = None ∧ dataField e ∈ renderedFlatFields
  | Some _ =>
      (dataSectionType e = Some kAcademic ∧ dataField e ∈ sectionFormFields academic)
      ∨ (dataSectionType e = Some kSummary ∧ dataField e ∈ sectionFormFields summary)
  end.

(** A piece of the block of the academic section at position [i]: a span
    in it addresses that section and shows a placeholder. *)
Definition placeholderPiece (i : nat) (n : node) : Prop :=
  match n with
  | Span _ value sectionType index =>
      sectionType = Some academic ∧ index = Some i ∧ parenthesised value
  | _ => True
  end.

(** A subsection locator resolves in [data] when it addresses an entry of
    the list of its kind. *)
Definition resolvesIn (data : PlaafpData) (e : element) : Prop :=
  dataIndex e = None ∨ ∃ kind i sec, targets e kind i ∧ sectionAt data kind i = Some sec.

(** The records reached when the markup handed to [handlePreviewEdit] never
    names one of the two lists at top level, as is the case of the markup
    the renderer writes, whatever text is typed into its spans. *)
Inductive reachableInUse : PlaafpData → Prop :=
  | use_initial : reachableInUse initialPlaafpData
  | use_change data name value :
      reachableInUse data → name ∈ flatFields →
      reachableInUse (handleChange name value data)
  | use_section_change data kind index name value o data' :
      reachableInUse data → sectionAt data kind index = Some (EObj o) →
      name ∈ sectionFormFields kind →
      handleSectionChange kind index name value data = OK data' →
      reachableInUse data'
  | use_add data kind now data' :
      reachableInUse data → handleAddSection kind now data = OK data' →
      reachableInUse data'
  | use_preview_edit data fields o :
      reachableInUse data → Forall (λ e, ∀ kind, ¬ namesList kind e) fields →
      handlePreviewEdit fields data = OK o →
      reachableInUse (commit data o).

(** A section object in which every field shown for its kind holds a
    string. *)
Definition sectionShown (kind : sectionKind) (x : elem) : Prop :=
  ∃ o, x = EObj o ∧ ∀ f, f ∈ sectionFormFields kind → ∃ s, o !! f = Some (FStr s).

(** The two lists, and no other property, hold lists, and their entries
    are section objects that can be shown. *)
Definition renderable (data : PlaafpData) : Prop :=
  (∀ k l, data !! k = Some (TArr l) → ∃ kind, k = listKey kind)
  ∧ ∀ kind, ∃ l, data !! listKey kind = Some (TArr l) ∧ Forall (sectionShown kind) l.

(** *** Sessions and the store *)

(** The documents a load of the page finds in the store. *)
Definition storedDocuments (s : storage) : option (gmap jsstring PlaafpData) :=
  match plaafpDocuments s with
  | None | Some EmptyText | Some Malformed => Some ∅
  | Some (Stringified docs) => Some docs
  | Some Foreign => None
  end.

(** No document of the store is filed under the empty id. *)
Definition noEmptyId (s : storage) : Prop :=
  ∀ docs, storedDocuments s = Some docs → docs !! [] = None.

(** The store takes the writes of the action: both writes of [Save], and
    the write of the key dialog, of [Load] and of [Delete]. *)
Definition storeAccepts (a : action) : Prop :=
  match a with
  | Save _ accepted => 2 ≤ accepted
  | EnterKey accepted _ | Load accepted _ | Delete _ accepted _ => accepted = true
  | _ => True
  end.

#[global] Instance storeAccepts_dec a : Decision (storeAccepts a).
Proof. destruct a; simpl; apply _. Defined.

(** The store agrees with the state: it holds the key, the saved documents
    and the id of the open one.  Until a key is known nothing has been
    read. *)
Definition consistent (st : appState) : Prop :=
  if truthy (apiKey st) then
    geminiApiKey (localStorage st) = apiKey st
    ∧ storedDocuments (localStorage st) = Some (savedPlaafps st)
    ∧ savedPlaafps st !! [] = None
    ∧ match currentPlaafpId st with
      | Some id => plaafpCurrentId (localStorage st) = Some id
                   ∧ is_Some (savedPlaafps st !! id)
      | None => plaafpDocuments (localStorage st) = Some Malformed
                ∨ plaafpCurrentId (localStorage st) = None
      end
  else
    truthy (geminiApiKey (localStorage st)) = false
    ∧ noEmptyId (localStorage st)
    ∧ st = initialApp (localStorage st).

(** The record a load of the page shows for the state [st]: the open
    document as it was saved, or the empty record. *)
Definition shownAfterLoad (st : appState) : PlaafpData :=
  match currentPlaafpId st with
  | Some id => default initialPlaafpData (savedPlaafps st !! id)
  | None => initialPlaafpData
  end.

(** *** Concrete inputs of the examples *)

(** A markup with two located elements naming [grade], and one with two
    addressing the subject of the first academic section. *)
Definition markupGradeTwice : list element :=
  [ Element (u "grade") None None (u "4");
    Element (u "subjects") None None (u "Math");
    Element (u "grade") None None (u "5") ].

Definition markupSubjectTwice : list element :=
  [ Element (u "subject") (Some (u "0")) (Some (u "academic")) (u "Reading");
    Element (u "subject") (Some (u "0")) (Some (u "academic")) (u "Math");
    Element (u "grade") None None (u "5") ].

(** A session on an empty store: the key is entered and a name chosen;
    then the document is saved, a field edited and a new document begun. *)
Definition sessionName : list action :=
  [ EnterKey true (u " key "); Change (u "studentName") (u "Jordan") ].

Definition sessionJordan : list action :=
  sessionName ++ [ Save 1700000000000 2; Change (u "grade") (u "5"); New ].

(** The same session up to the save, after which a new document is begun
    and the saved one loaded again, the store refusing the write of
    [handleLoad]. *)
Definition sessionRefusedLoad : list action :=
  sessionName ++ [ Save 1700000000000 2; New; Load false (u "1700000000000") ].

(** The state a session on the empty store ends in. *)
Definition stateAfter (actions : list action) : appState :=
  default (initialApp emptyStorage) (performAll actions (initialApp emptyStorage)).

(* ===================================================================== *)
(** * Facts *)
(* ===================================================================== *)

(** Settles a closed decidable statement by running its decision
    procedure. *)
Ltac by_computation := apply (bool_decide_unpack _); vm_compute; exact I.

(** ** Strings *)

Section StringFacts.

Implicit Types (s t : jsstring) (c : N).

Lemma trimStart_idem s : trimStart (trimStart s) = trimStart s.
Proof.
  induction s as [|c s IH]; simpl; [done|].
  destruct (isWhiteSpace c) eqn:E; [done|]. simpl. by rewrite E.
Qed.

Lemma trimStart_split s :
  ∃ l, s = l ++ trimStart s ∧ forallb isWhiteSpace l = true.
Proof.
  induction s as [|c s (l & Hl & Hws)]; simpl.
  - by exists [].
  - destruct (isWhiteSpace c) eqn:E.
    + exists (c :: l). simpl. rewrite E, Hws. split; [by f_equal|done].
    + by exists [].
Qed.

Lemma trimStart_head s c t : trimStart s = c :: t → isWhiteSpace c = false.
Proof.
  induction s as [|c' s IH]; simpl; [done|].
  destruct (isWhiteSpace c') eqn:E; [done|]. by intros [= <- _].
Qed.

Lemma trimStart_fixed s :
  (∀ c, head s = Some c → isWhiteSpace c = false) → trimStart s = s.
Proof. destruct s as [|c s]; simpl; [done|]. intros H. by rewrite (H c). Qed.

Lemma trimEnd_split s :
  ∃ r, s = trimEnd s ++ r ∧ forallb isWhiteSpace r = true.
Proof.
  destruct (trimStart_split (reverse s)) as (l & Hl & Hws).
  exists (reverse l). split.
  - unfold trimEnd. rewrite <- reverse_app, <- Hl. by rewrite reverse_involutive.
  - rewrite forallb_forall in *. intros c Hc. apply Hws.
    apply list_elem_of_In. apply list_elem_of_In in Hc. by apply elem_of_reverse.
Qed.

Lemma trimEnd_last s c : last (trimEnd s) = Some c → isWhiteSpace c = false.
Proof.
  unfold trimEnd. rewrite last_reverse.
  destruct (trimStart (reverse s)) as [|c' t] eqn:E; simpl; [done|].
  intros [= <-]. by eapply trimStart_head.
Qed.

Lemma trimEnd_fixed s :
  (∀ c, last s = Some c → isWhiteSpace c = false) → trimEnd s = s.
Proof.
  intros H. unfold trimEnd. rewrite trimStart_fixed.
  - apply reverse_involutive.
  - intros c. rewrite head_reverse. apply H.
Qed.


Lemma trim_head s c t : trim s = c :: t → isWhiteSpace c = false.
Proof.
  unfold trim. intros H.
  destruct (trimEnd_split (trimStart s)) as (r & Hr & _).
  rewrite H in Hr. simpl in Hr. by eapply trimStart_head.
Qed.

Lemma trim_last s c : last (trim s) = Some c → isWhiteSpace c = false.
Proof. apply trimEnd_last. Qed.

Lemma trim_fixed s :
  (∀ c, head s = Some c → isWhiteSpace c = false) →
  (∀ c, last s = Some c → isWhiteSpace c = false) →
  trim s = s.
Proof.
  intros Hh Hl. unfold trim. rewrite (trimStart_fixed s Hh). by apply trimEnd_fixed.
Qed.

Lemma trim_idem s : trim (trim s) = trim s.
Proof.
  apply trim_fixed.
  - intros c. destruct (trim s) as [|c' t] eqn:E; simpl; [done|].
    intros [= <-]. by eapply trim_head.
  - apply trim_last.
Qed.


(** A parenthesised text is its own trimmed form, and is not empty. *)
Lemma trim_parens p : trim (u "(" ++ p ++ u ")") = u "(" ++ p ++ u ")".
Proof.
  apply trim_fixed.
  - by intros c [= <-].
  - intros c. change (u "(" ++ p ++ u ")") with (40%N :: (p ++ [41%N])).
    rewrite last_cons, last_snoc. by intros [= <-].
Qed.

(** *** Decimal numerals *)

Lemma digitsValue_snoc ds c :
  digitsValue (ds ++ [c]) = (digitsValue ds * 10 + (Z.of_N c - 48))%Z.
Proof. unfold digitsValue. by rewrite fold_left_app. Qed.

Lemma digits_S fuel n :
  digits (S fuel) n =
  if (n <? 10)%N then [(48 + n)%N] else digits fuel (n / 10) ++ [(48 + n mod 10)%N].
Proof. done. Qed.

Lemma digits_spec fuel n :
  (n < 2 ^ N.of_nat (S fuel))%N →
  forallb isDigit (digits (S fuel) n) = true
  ∧ digits (S fuel) n ≠ []
  ∧ digitsValue (digits (S fuel) n) = Z.of_N n.
Proof.
  revert n. induction fuel as [|fuel IH]; intros n Hn;
    rewrite digits_S; destruct (N.ltb_spec n 10) as [Hlt|Hge].
  - repeat split; [|done|].
    + simpl. unfold isDigit. rewrite andb_true_r, andb_true_iff, !N.leb_le. split; lia.
    + unfold digitsValue. simpl. lia.
  - change (2 ^ N.of_nat 1)%N with 2%N in Hn. lia.
  - repeat split; [|done|].
    + simpl. unfold isDigit. rewrite andb_true_r, andb_true_iff, !N.leb_le. split; lia.
    + unfold digitsValue. simpl. lia.
  - pose proof (N.div_mod n 10 ltac:(done)) as Hdm.
    pose proof (N.mod_upper_bound n 10 ltac:(done)) as Hr.
    set (q := (n / 10)%N) in *. set (r := (n mod 10)%N) in *. clearbody q r.
    assert (q < 2 ^ N.of_nat (S fuel))%N as Hdiv.
    { rewrite (Nat2N.inj_succ (S fuel)), N.pow_succ_r' in Hn. lia. }
    destruct (IH _ Hdiv) as (Hd & Hne & Hv).
    repeat split.
    + rewrite forallb_app, Hd. cbn [forallb andb]. unfold isDigit.
      rewrite andb_true_r, andb_true_iff, !N.leb_le. split; lia.
    + by destruct (digits (S fuel) q).
    + rewrite digitsValue_snoc, Hv. lia.
Qed.

Lemma numToString_spec n :
  forallb isDigit (numToString n) = true
  ∧ numToString n ≠ []
  ∧ digitsValue (numToString n) = Z.of_N n.
Proof.
  apply digits_spec. destruct (decide (n = 0%N)) as [->|Hn]; [done|].
  rewrite Nat2N.inj_succ, N2Nat.id. apply N.log2_spec. lia.
Qed.

Lemma takeDigits_all ds : forallb isDigit ds = true → takeDigits ds = ds.
Proof.
  induction ds as [|c ds IH]; simpl; [done|].
  intros [-> H]%andb_true_iff. by rewrite IH.
Qed.

Lemma isDigit_plain c :
  isDigit c = true → isWhiteSpace c = false ∧ c ≠ 45%N ∧ c ≠ 43%N.
Proof.
  unfold isDigit, isWhiteSpace. rewrite andb_true_iff, !N.leb_le. intros [??].
  repeat split; [|lia..].
  repeat (apply orb_false_iff; split);
    first [ apply N.eqb_neq; lia
          | apply andb_false_iff; rewrite !N.leb_gt; lia ].
Qed.

(** Reading back a printed number gives the number. *)
Lemma parseInt_numToString n : parseInt (numToString n) = Some (Z.of_N n).
Proof.
  destruct (numToString_spec n) as (Hd & Hne & Hv).
  unfold parseInt. destruct (numToString n) as [|c ds] eqn:E; [done|].
  pose proof Hd as Hd'. simpl in Hd'. apply andb_true_iff in Hd' as [Hc _].
  destruct (isDigit_plain c Hc) as (Hws & H45 & H43).
  rewrite trimStart_fixed by (by intros ? [= <-]).
  assert (match c :: ds with
          | 45%N :: r => (true, r)
          | 43%N :: r => (false, r)
          | _ => (false, c :: ds)
          end = (false, c :: ds)) as ->.
  { destruct c as [|p]; [done|]. do 6 (destruct p as [p|p|]; try done). }
  rewrite takeDigits_all by done. by rewrite Hv.
Qed.

Lemma numToString_inj n m : numToString n = numToString m → n = m.
Proof.
  intros H. apply (f_equal parseInt) in H.
  rewrite !parseInt_numToString in H. injection H. lia.
Qed.

(** *** Escaping *)

Lemma replaceAll_forall (P : N → Prop) c rep s :
  Forall P rep → Forall (λ x, x ≠ c → P x) s → Forall P (replaceAll c rep s).
Proof.
  intros Hrep. induction 1 as [|x s Hx _ IH]; simpl; [constructor|].
  destruct (N.eqb_spec x c); [by apply Forall_app|].
  constructor; auto.
Qed.

(** The output of [sanitize] holds neither [<] nor [>]. *)
Lemma sanitize_no_angle s : Forall (λ c, c ≠ 60%N ∧ c ≠ 62%N) (sanitize s).
Proof.
  unfold sanitize.
  apply replaceAll_forall; [by repeat constructor|].
  eapply Forall_impl; [|intros x Hx ?; split; [exact Hx|done]].
  apply replaceAll_forall; [by repeat constructor|].
  apply Forall_forall. tauto.
Qed.

Lemma sanitize_no_tag s : hasTagOpen (sanitize s) = false.
Proof.
  unfold hasTagOpen. apply not_true_iff_false. rewrite existsb_exists.
  intros (c & Hc & Heq). apply N.eqb_eq in Heq as ->.
  pose proof (sanitize_no_angle s) as H. rewrite Forall_forall in H.
  apply list_elem_of_In in Hc. by destruct (H _ Hc).
Qed.

End StringFacts.

(** ** The scan of the reverse-sync engine *)

#[global] Arguments syncField : simpl never.
#[global] Arguments syncSection : simpl never.

Section SyncFacts.

Implicit Types (d nd : PlaafpData) (e : element) (c : bool) (kind : sectionKind).

Lemma listKey_ne : listKey academic ≠ listKey summary.
Proof. done. Qed.

Lemma listKey_inj kind kind' : listKey kind = listKey kind' → kind = kind'.
Proof. by destruct kind, kind'. Qed.

Lemma kindName_inj kind kind' : kindName kind = kindName kind' → kind = kind'.
Proof. by destruct kind, kind'. Qed.

Lemma setProp_cases {V} (k : jsstring) (v : V) (o : gmap jsstring V) :
  setProp k v o = o ∧ o !! k = None ∨ setProp k v o = <[k := v]> o.
Proof.
  unfold setProp. destruct (bool_decide (k = kProto)); simpl; [|by right].
  case_bool_decide; [by left|by right].
Qed.

Lemma setProp_lookup_ne {V} (k k' : jsstring) (v : V) (o : gmap jsstring V) :
  k ≠ k' → setProp k v o !! k' = o !! k'.
Proof.
  intros Hne. destruct (setProp_cases k v o) as [[-> _]| ->]; [done|].
  by rewrite lookup_insert_ne.
Qed.

Lemma setProp_lookup {V} (k : jsstring) (v : V) (o : gmap jsstring V) :
  setProp k v o !! k = o !! k ∨ setProp k v o !! k = Some v.
Proof.
  destruct (setProp_cases k v o) as [[-> _]| ->]; [by left|].
  right. by rewrite lookup_insert_eq.
Qed.

Lemma forEachField_app st a b :
  forEachField st (a ++ b) = forEachField st a ≫= λ st', forEachField st' b.
Proof.
  revert st. induction a as [|e a IH]; intros st; simpl; [done|].
  destruct (syncField st e); simpl; [apply IH|done].
Qed.

Lemma syncPrimitive_inv {A} p f v (r : A) : syncPrimitive p f v ≠ OK (Some r).
Proof.
  unfold syncPrimitive. destruct p; [done|]. by case_bool_decide.
Qed.

Lemma syncSection_inv key nd index f v nd' :
  syncSection key nd index f v = OK (Some nd') →
  ∃ i l o, position index = Some i ∧ nd !! key = Some (TArr l)
           ∧ l !! i = Some (EObj o) ∧ o !! f ≠ Some (FStr v)
           ∧ nd' = <[key := TArr (<[i := EObj (setProp f (FStr v) o)]> l)]> nd.
Proof.
  unfold syncSection. destruct (nd !! key) as [[s|l]|]; [|  |done].
  - destruct (atIndex s index); [|done]. intros H. by apply syncPrimitive_inv in H.
  - destruct (position index) as [i|]; [|done].
    destruct (l !! i) as [[p|o]|] eqn:El; [| |done].
    + intros H. by apply syncPrimitive_inv in H.
    + case_bool_decide as Hne; [done|]. intros [= <-]. by exists i, l, o.
Qed.

(** One step of the scan either leaves the pair as it is or performs one of
    the two writes and sets [changed]. *)
Lemma syncField_inv nd c e nd' c' :
  syncField (nd, c) e = OK (nd', c') →
  nd' = nd ∧ c' = c ∨ syncWrite nd e nd' ∧ c' = true.
Proof.
  unfold syncField. destruct (dataField e) as [|x f] eqn:Ef.
  { intros [= <- <-]. by left. }
  assert (dataField e ≠ []) as Hf by (by rewrite Ef). rewrite <- Ef.
  destruct (dataIndex e) as [s|] eqn:Ei.
  - assert (∀ kind,
      dataSectionType e = Some (kindName kind) →
      (λ r : option PlaafpData,
         match r with Some newData' => (newData', true) | None => (nd, c) end)
        <$> syncSection (listKey kind) nd (parseInt s) (dataField e) (innerText e)
      = OK (nd', c') →
      nd' = nd ∧ c' = c ∨ syncWrite nd e nd' ∧ c' = true) as Hkind.
    { intros kind Hk H.
      destruct (syncSection _ _ _ _ _) as [[nd2|]|] eqn:Es; simpl in H; [| |done].
      - injection H as <- <-. right. split; [|done].
        apply syncSection_inv in Es as (i & l & o & Hi & Hl & Ho & Hne & ->).
        apply (write_section _ _ kind i l o); try done. by exists s.
      - injection H as <- <-. by left. }
    change kAcademic with (kindName academic).
    change kSummary with (kindName summary).
    change kAcademicSections with (listKey academic).
    change kPerformanceSummarySections with (listKey summary).
    case_bool_decide as Ha; [exact (Hkind academic Ha)|].
    case_bool_decide as Hs; [exact (Hkind summary Hs)|].
    intros [= <- <-]. by left.
  - case_bool_decide as Heq; intros [= <- <-]; [by left|].
    right. split; [|done]. by apply write_top.
Qed.

(** Invariants of the scan are invariants of the two writes. *)
Lemma forEachField_invariant (P : PlaafpData → Prop) els nd c nd' c' :
  P nd →
  (∀ e nd1 nd2, e ∈ els → P nd1 → syncWrite nd1 e nd2 → P nd2) →
  forEachField (nd, c) els = OK (nd', c') → P nd'.
Proof.
  revert nd c. induction els as [|e els IH]; intros nd c HP Hstep; simpl.
  { by intros [= <- _]. }
  destruct (syncField (nd, c) e) as [[nd1 c1]|] eqn:Es; simpl; [|done].
  apply IH.
  - apply syncField_inv in Es as [[-> _]|[Hw _]]; [done|].
    eapply Hstep; [|done..]. by left.
  - intros e' ?? Hin. apply Hstep. by right.
Qed.

(** [changed] stays [false] only while nothing was written. *)
Lemma forEachField_unchanged els nd c nd' :
  forEachField (nd, c) els = OK (nd', false) → nd' = nd.
Proof.
  revert nd c. induction els as [|e els IH]; intros nd c; simpl.
  { by intros [= <-]. }
  destruct (syncField (nd, c) e) as [[nd1 c1]|] eqn:Es; simpl; [|done].
  intros H. apply syncField_inv in Es as [[-> ->]|[_ ->]]; [by eapply IH|].
  exfalso. clear -H. revert nd1 H. induction els as [|e els IH]; intros nd1; simpl; [done|].
  destruct (syncField (nd1, true) e) as [[nd2 c2]|] eqn:Es; simpl; [|done].
  apply syncField_inv in Es as [[-> ->]|[_ ->]]; apply IH.
Qed.

Lemma handlePreviewEdit_scan els d o :
  handlePreviewEdit els d = OK o ↔ ∃ c, forEachField (d, false) els = OK (commit d o, c)
                                        ∧ o = if c then Replaced (commit d o) else Same.
Proof.
  unfold handlePreviewEdit. split.
  - destruct (forEachField (d, false) els) as [[nd c]|] eqn:E; [|done].
    intros [= <-]. exists c. destruct c; simpl; [done|].
    by rewrite (forEachField_unchanged _ _ _ _ E).
  - intros (c & -> & Ho). rewrite Ho. by destruct c.
Qed.

Lemma handlePreviewEdit_of_scan els d nd c :
  forEachField (d, false) els = OK (nd, c) →
  ∃ o, handlePreviewEdit els d = OK o ∧ commit d o = nd.
Proof.
  intros E. unfold handlePreviewEdit. rewrite E. destruct c; eexists; split; try done.
  simpl. symmetry. by eapply forEachField_unchanged.
Qed.

(** A flat property ends as it was, or with the text all its locators
    agree on. *)
Lemma sync_top_pointwise els d c d' c' f v :
  forEachField (d, c) els = OK (d', c') →
  (∀ kind, f ≠ listKey kind) →
  (∀ e, e ∈ els → dataIndex e = None → dataField e = f → innerText e = v) →
  d' !! f = d !! f ∨ d' !! f = Some (TStr v).
Proof.
  intros Hscan Hf Hall.
  apply (forEachField_invariant
           (λ nd, nd !! f = d !! f ∨ nd !! f = Some (TStr v)) _ _ _ _ _ (or_introl eq_refl))
    in Hscan; [done|].
  intros e nd1 nd2 Hin HP Hw. destruct Hw as [Hi Hne Hdiff|kind i l o Ht Hne Hl Ho Hdiff].
  - destruct (decide (dataField e = f)) as [Heq|Hneq].
    + rewrite (Hall e Hin Hi Heq), Heq.
      destruct (setProp_lookup f (TStr v) nd1) as [-> | ->]; auto.
    + by rewrite setProp_lookup_ne.
  - rewrite lookup_insert_ne; [done|]. intros Heq. by apply (Hf kind).
Qed.

(** The list of a kind keeps its length and its entries their nature, as
    long as no top-level locator names the list; a property of an entry
    ends as it was, or with the text all its locators agree on. *)
Lemma sync_section_pointwise els d c d' c' kind l i o f v :
  forEachField (d, c) els = OK (d', c') →
  d !! listKey kind = Some (TArr l) → l !! i = Some (EObj o) →
  (∀ e, e ∈ els → dataIndex e = None → dataField e ≠ listKey kind) →
  (∀ e, e ∈ els → targets e kind i → dataField e = f → innerText e = v) →
  ∃ l' o', d' !! listKey kind = Some (TArr l') ∧ length l' = length l
           ∧ l' !! i = Some (EObj o')
           ∧ (o' !! f = o !! f ∨ o' !! f = Some (FStr v)).
Proof.
  intros Hscan Hl Ho Htop Hall.
  apply (forEachField_invariant
           (λ nd, ∃ l' o', nd !! listKey kind = Some (TArr l') ∧ length l' = length l
                           ∧ l' !! i = Some (EObj o')
                           ∧ (o' !! f = o !! f ∨ o' !! f = Some (FStr v))))
    in Hscan; [done|by exists l, o; auto|].
  intros e nd1 nd2 Hin (l1 & o1 & Hl1 & Hlen & Ho1 & HP) Hw.
  destruct Hw as [Hi Hne Hdiff|kind' j l2 o2 Ht Hne Hl2 Ho2 Hdiff].
  - exists l1, o1. rewrite setProp_lookup_ne; [done|]. by apply Htop.
  - destruct (decide (kind' = kind)) as [->|Hk].
    + rewrite Hl1 in Hl2. injection Hl2 as <-. rewrite lookup_insert_eq.
      destruct (decide (j = i)) as [->|Hji].
      * rewrite Ho1 in Ho2. injection Ho2 as <-.
        eexists _, _. split; [done|]. rewrite length_insert. split; [done|].
        split; [apply list_lookup_insert_eq; by eapply lookup_lt_Some|].
        destruct (decide (dataField e = f)) as [Heq|Hneq].
        -- rewrite (Hall e Hin Ht Heq), Heq.
           destruct (setProp_lookup f (FStr v) o1) as [-> | ->]; auto.
        -- by rewrite setProp_lookup_ne.
      * exists (<[j := EObj (setProp (dataField e) (FStr (innerText e)) o2)]> l1), o1.
        rewrite length_insert, list_lookup_insert_ne; done.
    + exists l1, o1. rewrite lookup_insert_ne; [done|].
      intros Heq. by apply listKey_inj in Heq.
Qed.

(** The length of the list, and which of its entries are objects, stay as
    they are. *)
Lemma sync_section_length els d c d' c' kind l :
  forEachField (d, c) els = OK (d', c') →
  d !! listKey kind = Some (TArr l) →
  (∀ e, e ∈ els → dataIndex e = None → dataField e ≠ listKey kind) →
  ∃ l', d' !! listKey kind = Some (TArr l') ∧ length l' = length l
        ∧ ∀ i, is_Some (l' !! i ≫= λ x, match x with EObj o => Some o | _ => None end)
               ↔ is_Some (l !! i ≫= λ x, match x with EObj o => Some o | _ => None end).
Proof.
  intros Hscan Hl Htop.
  apply (forEachField_invariant
           (λ nd, ∃ l', nd !! listKey kind = Some (TArr l') ∧ length l' = length l
                ∧ ∀ i, is_Some (l' !! i ≫= λ x, match x with EObj o => Some o | _ => None end)
                       ↔ is_Some (l !! i ≫= λ x, match x with EObj o => Some o | _ => None end)))
    in Hscan; [done|by exists l|].
  intros e nd1 nd2 Hin (l1 & Hl1 & Hlen & Hobj) Hw.
  destruct Hw as [Hi Hne Hdiff|kind' j l2 o2 Ht Hne Hl2 Ho2 Hdiff].
  - exists l1. rewrite setProp_lookup_ne; [done|]. by apply Htop.
  - destruct (decide (kind' = kind)) as [->|Hk].
    + rewrite Hl1 in Hl2. injection Hl2 as <-. rewrite lookup_insert_eq.
      eexists. split; [done|]. rewrite length_insert. split; [done|].
      intros i. rewrite <- Hobj. destruct (decide (j = i)) as [->|Hji].
      * rewrite list_lookup_insert_eq by (by eapply lookup_lt_Some).
        rewrite Ho2. simpl. split; eauto.
      * by rewrite list_lookup_insert_ne.
    + exists l1. rewrite lookup_insert_ne; [done|].
      intros Heq. by apply listKey_inj in Heq.
Qed.

End SyncFacts.

(** ** The renderer *)

Section RenderFacts.

Implicit Types (d : PlaafpData) (n : node) (kind : sectionKind).

Lemma template_inv ps ns :
  template ps = OK ns → Forall2 (λ p n, p = OK n) ps ns.
Proof.
  revert ns. induction ps as [|p ps IH]; simpl; intros ns.
  { intros [= <-]. constructor. }
  destruct p as [n|]; simpl; [|done].
  destruct (template ps) as [ns'|]; simpl; [|done].
  intros [= <-]. constructor; auto.
Qed.

Lemma template_Forall (P : node → Prop) ps ns :
  Forall (λ p, ∀ n, p = OK n → P n) ps → template ps = OK ns → Forall P ns.
Proof.
  intros HP Ht. apply template_inv in Ht.
  induction Ht as [|p n ps ns Hp _ IH]; [constructor|].
  apply Forall_cons in HP as [Hp' HP]. constructor; auto.
Qed.

Lemma forEachFrom_Forall {A B} (P : B → Prop) (f : A → nat → res (list B)) start l zs :
  (∀ i x ys, l !! i = Some x → f x (start + i) = OK ys → Forall P ys) →
  forEachFrom f start l = OK zs → Forall P zs.
Proof.
  revert start zs. induction l as [|x l IH]; simpl; intros start zs Hf.
  { intros [= <-]. constructor. }
  destruct (f x start) as [ys|] eqn:Ex; simpl; [|done].
  destruct (forEachFrom f (S start) l) as [zs'|] eqn:El; simpl; [|done].
  intros [= <-]. apply Forall_app. split.
  - apply (Hf 0 x); [done|]. by rewrite Nat.add_0_r.
  - eapply IH; [|done]. intros i x' ys' Hi. rewrite Nat.add_succ_l, <- Nat.add_succ_r.
    by apply (Hf (S i)).
Qed.

Lemma bind_OK {A B} (m : res A) (f : A → res B) b :
  m ≫= f = OK b → ∃ a, m = OK a ∧ f a = OK b.
Proof. destruct m as [a|]; simpl; [|done]. eauto. Qed.

End RenderFacts.

(** Settles one piece of a template against [spanOrigin]. *)
Ltac piece_origin :=
  let n := fresh "n" in
  let Hn := fresh "Hn" in
  intros n Hn;
  first
    [ (* text, escaped or raw interpolation *)
      progress (unfold txt, esc, raw in Hn); injection Hn as <-; exact I
    | (* a flat field shown through [fill] *)
      unfold fillSpan in Hn;
      match type of Hn with
      | (_ ← getStr ?d ?k; _) = OK _ =>
          let v := fresh "v" in
          let E := fresh "E" in
          destruct (getStr d k) as [v|] eqn:E; simpl in Hn; [|discriminate Hn];
          injection Hn as <-; exists v; split; [exact E|];
          right; right; eexists; split; [by vm_compute|reflexivity]
      end
    | (* the deficit type *)
      unfold deficitTypePiece in Hn;
      match type of Hn with
      | (_ ← getStr ?d ?k; _) = OK _ =>
          destruct (getStr d k); simpl in Hn; [|discriminate Hn];
          unfold raw in Hn; injection Hn as <-; exact I
      end ].

Section RenderOrigin.

Implicit Types (d : PlaafpData) (n : node) (kind : sectionKind).

Lemma secSpan_origin d kind sec i field placeholder n :
  sectionAt d kind i = Some sec →
  placeholderOf (sectionPlaceholders kind) (u field) = Some (u placeholder) →
  secSpan kind sec i field placeholder = OK n → spanOrigin d n.
Proof.
  intros Hsec Hph. unfold secSpan.
  destruct (secStr sec (u field)) as [v|] eqn:E; simpl; [|done].
  intros [= <-]. exists sec, v. split; [done|]. split; [done|].
  left. by exists (u placeholder).
Qed.

Lemma introParts_origin d rawName studentName ns :
  getStr d (u "studentName") = OK rawName →
  studentName = orElse rawName (u "______ (student name)") →
  introParts d rawName studentName = OK ns → Forall (spanOrigin d) ns.
Proof.
  intros Hname ->. unfold introParts. apply template_Forall.
  repeat (apply Forall_cons; split); try apply Forall_nil_2; try piece_origin.
  intros n [= <-]. exists rawName. split; [done|]. by left.
Qed.

Lemma functionalParts_origin d rawName studentName ns :
  functionalParts d rawName studentName = OK ns → Forall (spanOrigin d) ns.
Proof.
  unfold functionalParts. apply template_Forall.
  repeat (apply Forall_cons; split); try apply Forall_nil_2; piece_origin.
Qed.

Lemma transitionParts_origin d rawParent studentName parentName ns :
  getStr d (u "parentName") = OK rawParent →
  parentName = orElse rawParent (u "______ (parent name)") →
  transitionParts d studentName parentName = OK ns → Forall (spanOrigin d) ns.
Proof.
  intros Hname ->. unfold transitionParts. apply template_Forall.
  repeat (apply Forall_cons; split); try apply Forall_nil_2; try piece_origin.
  all: intros n [= <-]; exists rawParent; split; [done|]; right; by left.
Qed.

Lemma academicParts_origin d rawName studentName sec i ns :
  sectionAt d academic i = Some sec →
  academicParts rawName studentName sec i = OK ns → Forall (spanOrigin d) ns.
Proof.
  intros Hsec. unfold academicParts. intros H.
  apply bind_OK in H as (subject & _ & H). revert H.
  apply template_Forall.
  repeat (apply Forall_cons; split); try apply Forall_nil_2; try piece_origin.
  all: intros n Hn; eapply (secSpan_origin d academic); [exact Hsec| |exact Hn];
    by vm_compute.
Qed.

Lemma summaryParts_origin d rawName studentName sec i ns :
  sectionAt d summary i = Some sec →
  summaryParts rawName studentName sec i = OK ns → Forall (spanOrigin d) ns.
Proof.
  intros Hsec. unfold summaryParts. apply template_Forall.
  repeat (apply Forall_cons; split); try apply Forall_nil_2; try piece_origin.
  all: intros n Hn;
    first [ eapply (secSpan_origin d summary); [exact Hsec| |exact Hn]; by vm_compute
          | idtac ].
  apply bind_OK in Hn as (subject & Hsubject & Hn).
  apply bind_OK in Hn as (s & Hs & Hn). injection Hn as <-.
  destruct subject as [s'|]; [|done]. injection Hs as ->.
  exists sec, (Some s). split; [done|]. split; [done|]. by right.
Qed.

(** Every located span of a rendered document carries the locator of the
    value it shows, and shows it through [fill], through [||] (the two
    names) or as it is (the second subject span of a summary paragraph). *)
Lemma rendered_spans_origin d parts :
  generatePreviewParts d = OK parts → Forall (spanOrigin d) parts.
Proof.
  unfold generatePreviewParts. intros H.
  apply bind_OK in H as (rawName & Hname & H).
  apply bind_OK in H as (rawParent & Hparent & H).
  apply bind_OK in H as (intro & Hintro & H).
  apply bind_OK in H as (acad & Hacad & H).
  apply bind_OK in H as (func & Hfunc & H).
  apply bind_OK in H as (trans & Htrans & H).
  apply bind_OK in H as (summ & Hsumm & H).
  injection H as <-.
  repeat (apply Forall_app; split).
  - exact (introParts_origin _ _ _ _ Hname eq_refl Hintro).
  - unfold academicBlocks in Hacad.
    destruct (d !! kAcademicSections) as [[s|l]|] eqn:El; try done.
    eapply forEachFrom_Forall; [|exact Hacad].
    intros i x ys Hi. apply academicParts_origin.
    unfold sectionAt. change (listKey academic) with kAcademicSections. by rewrite El.
  - exact (functionalParts_origin _ _ _ _ Hfunc).
  - exact (transitionParts_origin _ _ _ _ _ Hparent eq_refl Htrans).
  - unfold summaryBlocks in Hsumm.
    destruct (d !! kPerformanceSummarySections) as [[s|l]|] eqn:El; try done.
    + destruct s; [|done]. injection Hsumm as <-. constructor.
    + destruct l as [|x l']; [injection Hsumm as <-; constructor|].
      apply bind_OK in Hsumm as (blocks & Hblocks & Hsumm).
      injection Hsumm as <-. constructor; [exact I|].
      eapply forEachFrom_Forall; [|exact Hblocks].
      intros i x' ys Hi. apply summaryParts_origin.
      unfold sectionAt. change (listKey summary) with kPerformanceSummarySections.
      by rewrite El.
Qed.

End RenderOrigin.

(** ** The markup of the spans *)

(** Finds a piece in the list of pieces of a template, by its syntax. *)
Ltac find_piece :=
  lazymatch goal with
  | |- ?x ∈ ?y :: _ =>
      first [ constr_eq x y; apply list_elem_of_here
            | apply list_elem_of_further; find_piece ]
  end.

(** The cases of a membership in a table of fields and placeholders. *)
Ltac table_cases H :=
  repeat (apply elem_of_cons in H as [[= -> ->]|H]); [..|by apply elem_of_nil in H].

Section MarkupFacts.

Implicit Types (d : PlaafpData) (n : node) (kind : sectionKind) (e : element).

Lemma includes_unfold needle hay :
  includes needle hay
  = startsWith needle hay
    || match hay with [] => false | _ :: hay' => includes needle hay' end.
Proof. by destruct hay. Qed.

Lemma startsWith_app needle rest : startsWith needle (needle ++ rest) = true.
Proof. induction needle as [|c needle IH]; simpl; [done|]. by rewrite N.eqb_refl. Qed.

Lemma includes_app needle pre post : includes needle (pre ++ needle ++ post) = true.
Proof.
  induction pre as [|c pre IH].
  - rewrite includes_unfold. change ([] ++ needle ++ post) with (needle ++ post).
    by rewrite startsWith_app.
  - change ((c :: pre) ++ needle ++ post) with (c :: (pre ++ needle ++ post)).
    rewrite includes_unfold. cbv beta iota. rewrite IH. apply orb_true_r.
Qed.

(** What a piece prints is part of the document. *)
Lemma joinParts_elem n parts : n ∈ parts → occursIn (nodeHtml n) (joinParts parts).
Proof.
  intros (l1 & l2 & ->)%list_elem_of_split. unfold occursIn, joinParts.
  rewrite fmap_app, concat_app, fmap_cons. simpl. apply includes_app.
Qed.

(** [editableSpan] writes the markup of the element of its arguments. *)
Lemma editableSpan_markup field value sectionType index :
  editableSpan field value sectionType index
  = spanMarkup (spanElement field value sectionType index).
Proof.
  destruct sectionType as [k|], index as [i|].
  all: unfold editableSpan, spanMarkup, spanElement, attribute;
    cbv beta iota zeta delta [dataField dataIndex dataSectionType innerText
                              fmap option_fmap option_map from_option].
  all: generalize (sanitize value); intros text.
  - generalize (numToString (N.of_nat i)), (kindName k). intros ds ks.
    rewrite <- !(assoc_L (++)). vm_compute. reflexivity.
  - generalize (kindName k). intros ks. rewrite <- !(assoc_L (++)). vm_compute. reflexivity.
  - generalize (numToString (N.of_nat i)). intros ds. rewrite <- !(assoc_L (++)). vm_compute. reflexivity.
  - rewrite <- !(assoc_L (++)). vm_compute. reflexivity.
Qed.

Lemma span_written f v st i parts :
  Span f v st i ∈ parts → occursIn (spanMarkup (spanElement f v st i)) (joinParts parts).
Proof. intros H. rewrite <- editableSpan_markup. exact (joinParts_elem _ _ H). Qed.


Lemma template_elem ps ns p :
  template ps = OK ns → p ∈ ps → ∃ n, p = OK n ∧ n ∈ ns.
Proof.
  intros H%template_inv [i Hi]%list_elem_of_lookup_1.
  destruct (Forall2_lookup_l _ _ _ _ _ H Hi) as (n & Hn & Hpn).
  exists n. split; [done|]. by eapply list_elem_of_lookup_2.
Qed.

Lemma forEachFrom_elem {A B} (f : A → nat → res (list B)) start l zs i x :
  forEachFrom f start l = OK zs → l !! i = Some x →
  ∃ ys, f x (start + i) = OK ys ∧ ∀ y, y ∈ ys → y ∈ zs.
Proof.
  revert start zs i. induction l as [|x' l IH]; intros start zs i; simpl; [done|].
  destruct (f x' start) as [ys|] eqn:Ex; simpl; [|done].
  destruct (forEachFrom f (S start) l) as [zs'|] eqn:El; simpl; [|done].
  intros [= <-]. destruct i as [|i]; simpl.
  - intros [= <-]. exists ys. rewrite Nat.add_0_r. split; [done|].
    intros y Hy. apply elem_of_app. by left.
  - intros Hi. destruct (IH _ _ _ El Hi) as (ys' & Hys & Hin).
    exists ys'. rewrite <- Nat.add_succ_comm. split; [done|].
    intros y Hy. apply elem_of_app. right. by apply Hin.
Qed.

(** The spans of the pieces of a template are among its nodes. *)
Lemma span_elem ps ns (all : list node) field value :
  template ps = OK ns → (∀ n, n ∈ ns → n ∈ all) → span field value ∈ ps →
  Span (u field) value None None ∈ all.
Proof.
  intros Ht Hall Hin. destruct (template_elem _ _ _ Ht Hin) as (n & Hn & Hns).
  injection Hn as <-. by apply Hall.
Qed.

Lemma fillSpan_elem d ps ns (all : list node) field placeholder :
  template ps = OK ns → (∀ n, n ∈ ns → n ∈ all) → fillSpan d field placeholder ∈ ps →
  ∃ v, getStr d (u field) = OK v ∧ Span (u field) (fill v (u placeholder)) None None ∈ all.
Proof.
  intros Ht Hall Hin. destruct (template_elem _ _ _ Ht Hin) as (n & Hn & Hns).
  unfold fillSpan in Hn. apply bind_OK in Hn as (v & Hv & Hn). injection Hn as <-.
  exists v. split; [done|]. by apply Hall.
Qed.

Lemma secSpan_elem kind sec i ps ns (all : list node) field placeholder :
  template ps = OK ns → (∀ n, n ∈ ns → n ∈ all) →
  secSpan kind sec i field placeholder ∈ ps →
  ∃ v, secStr sec (u field) = OK v
       ∧ Span (u field) (fill v (u placeholder)) (Some kind) (Some i) ∈ all.
Proof.
  intros Ht Hall Hin. destruct (template_elem _ _ _ Ht Hin) as (n & Hn & Hns).
  unfold secSpan in Hn. apply bind_OK in Hn as (v & Hv & Hn). injection Hn as <-.
  exists v. split; [done|]. by apply Hall.
Qed.

(** The blocks of a rendered document. *)
Lemma generatePreviewParts_blocks d parts :
  generatePreviewParts d = OK parts →
  ∃ rawName rawParent intro acad func trans summ,
    getStr d (u "studentName") = OK rawName
    ∧ getStr d (u "parentName") = OK rawParent
    ∧ introParts d rawName (orElse rawName (u "______ (student name)")) = OK intro
    ∧ academicBlocks d rawName (orElse rawName (u "______ (student name)")) = OK acad
    ∧ functionalParts d rawName (orElse rawName (u "______ (student name)")) = OK func
    ∧ transitionParts d (orElse rawName (u "______ (student name)"))
        (orElse rawParent (u "______ (parent name)")) = OK trans
    ∧ summaryBlocks d rawName (orElse rawName (u "______ (student name)")) = OK summ
    ∧ parts = intro ++ acad ++ func ++ trans ++ summ.
Proof.
  unfold generatePreviewParts. intros H.
  apply bind_OK in H as (rawName & Hname & H).
  apply bind_OK in H as (rawParent & Hparent & H).
  apply bind_OK in H as (intro & Hintro & H).
  apply bind_OK in H as (acad & Hacad & H).
  apply bind_OK in H as (func & Hfunc & H).
  apply bind_OK in H as (trans & Htrans & H).
  apply bind_OK in H as (summ & Hsumm & H).
  injection H as <-.
  exists rawName, rawParent, intro, acad, func, trans, summ. done.
Qed.

(** Every flat field of the table is written in a span, through [fill]. *)
Lemma flat_span_written d parts f p :
  generatePreviewParts d = OK parts → (f, p) ∈ topPlaceholders →
  ∃ v, getStr d (u f) = OK v ∧ Span (u f) (fill v (u p)) None None ∈ parts.
Proof.
  intros H Hfp.
  destruct (generatePreviewParts_blocks _ _ H)
    as (rawName & rawParent & intro & acad & func & trans & summ
        & _ & _ & Hintro & _ & Hfunc & Htrans & _ & ->).
  unfold introParts in Hintro. unfold functionalParts in Hfunc.
  unfold transitionParts in Htrans.
  unfold topPlaceholders in Hfp. table_cases Hfp.
  all: first
    [ apply (fillSpan_elem d _ _ _ _ _ Hintro);
        [intros n Hn; rewrite !elem_of_app; tauto|find_piece]
    | apply (fillSpan_elem d _ _ _ _ _ Hfunc);
        [intros n Hn; rewrite !elem_of_app; tauto|find_piece]
    | apply (fillSpan_elem d _ _ _ _ _ Htrans);
        [intros n Hn; rewrite !elem_of_app; tauto|find_piece] ].
Qed.

(** The two names are written in spans, through [||]. *)
Lemma name_spans_written d parts :
  generatePreviewParts d = OK parts →
  ∃ rawName rawParent,
    getStr d (u "studentName") = OK rawName
    ∧ getStr d (u "parentName") = OK rawParent
    ∧ Span (u "studentName") (orElse rawName (u "______ (student name)")) None None ∈ parts
    ∧ Span (u "parentName") (orElse rawParent (u "______ (parent name)")) None None ∈ parts.
Proof.
  intros H.
  destruct (generatePreviewParts_blocks _ _ H)
    as (rawName & rawParent & intro & acad & func & trans & summ
        & Hname & Hparent & Hintro & _ & _ & Htrans & _ & ->).
  exists rawName, rawParent. split; [done|]. split; [done|].
  unfold introParts in Hintro. unfold transitionParts in Htrans. split.
  - apply (span_elem _ _ _ _ _ Hintro);
      [intros n Hn; rewrite !elem_of_app; tauto|find_piece].
  - apply (span_elem _ _ _ _ _ Htrans);
      [intros n Hn; rewrite !elem_of_app; tauto|find_piece].
Qed.

(** The block of every section is part of the document. *)
Lemma section_block_written d parts kind i sec :
  generatePreviewParts d = OK parts → sectionAt d kind i = Some sec →
  ∃ rawName studentName block,
    match kind with
    | academic => academicParts rawName studentName sec i
    | summary => summaryParts rawName studentName sec i
    end = OK block
    ∧ ∀ n, n ∈ block → n ∈ parts.
Proof.
  intros H Hsec.
  destruct (generatePreviewParts_blocks _ _ H)
    as (rawName & rawParent & intro & acad & func & trans & summ
        & _ & _ & _ & Hacad & _ & _ & Hsumm & ->).
  exists rawName, (orElse rawName (u "______ (student name)")).
  unfold sectionAt in Hsec. destruct kind.
  - change (listKey academic) with kAcademicSections in Hsec.
    unfold academicBlocks in Hacad.
    destruct (d !! kAcademicSections) as [[s|l]|]; try done.
    destruct (forEachFrom_elem _ _ _ _ _ _ Hacad Hsec) as (block & Hblock & Hin).
    exists block. split; [exact Hblock|].
    intros n Hn. rewrite !elem_of_app. right; left. by apply Hin.
  - change (listKey summary) with kPerformanceSummarySections in Hsec.
    unfold summaryBlocks in Hsumm.
    destruct (d !! kPerformanceSummarySections) as [[s|l]|]; try done.
    destruct l as [|x l]; [done|].
    apply bind_OK in Hsumm as (blocks & Hblocks & Hsumm). injection Hsumm as <-.
    destruct (forEachFrom_elem _ _ _ _ _ _ Hblocks Hsec) as (block & Hblock & Hin).
    exists block. split; [exact Hblock|].
    intros n Hn. rewrite !elem_of_app. do 4 right. apply list_elem_of_further.
    by apply Hin.
Qed.

(** Every field of the table of a section is written in a span that
    carries the kind and the position of the section, through [fill]. *)
Lemma section_span_written d parts kind i sec f p :
  generatePreviewParts d = OK parts → sectionAt d kind i = Some sec →
  (f, p) ∈ sectionPlaceholders kind →
  ∃ v, secStr sec (u f) = OK v
       ∧ Span (u f) (fill v (u p)) (Some kind) (Some i) ∈ parts.
Proof.
  intros H Hsec Hfp.
  destruct (section_block_written _ _ _ _ _ H Hsec)
    as (rawName & studentName & block & Hblock & Hin).
  destruct kind; simpl in Hfp.
  - unfold academicParts in Hblock.
    apply bind_OK in Hblock as (subject & _ & Hblock).
    cbv zeta in Hblock.
    unfold academicPlaceholders in Hfp. table_cases Hfp.
    all: apply (secSpan_elem academic sec i _ _ _ _ _ Hblock); [exact Hin|find_piece].
  - unfold summaryParts in Hblock. cbv zeta in Hblock.
    unfold summaryPlaceholders in Hfp. table_cases Hfp.
    all: apply (secSpan_elem summary sec i _ _ _ _ _ Hblock); [exact Hin|find_piece].
Qed.

End MarkupFacts.

(* ===================================================================== *)
(** * Reverse-sync: index resolution, failure, frame and sections *)
(* ===================================================================== *)

Section SyncTheorems.

Implicit Types (d nd : PlaafpData) (e : element) (c : bool) (kind : sectionKind).







(** C5, the failing input.  On the empty record, a markup whose first
    located element names [academicSections] turns the list into the string
    [x]; the second element then resolves position 0 to the primitive [x]
    and the assignment of [subject] on it throws. *)
Theorem preview_edit_can_throw :
  handlePreviewEdit markupNamingList initialPlaafpData = TypeError.
Proof. by vm_compute. Qed.

(** What holds of the identity short-circuit: an edit that names no element,
    or whose every step leaves the pair as it is, returns the record it was
    given. *)
Lemma preview_edit_identity d els :
  Forall (λ e, syncField (d, false) e = OK (d, false)) els →
  handlePreviewEdit els d = OK Same.
Proof.
  intros H. unfold handlePreviewEdit.
  assert (forEachField (d, false) els = OK (d, false)) as ->; [|done].
  induction H as [|e els He _ IH]; simpl; [done|]. by rewrite He.
Qed.

Lemma preview_edit_empty d : handlePreviewEdit [] d = OK Same.
Proof. done. Qed.

(** An edit throws only where a subsection locator meets a list property
    that is missing or holds a string, or a list entry that is a string:
    on lists of section objects, and with no top-level locator naming a
    list, every markup is accepted. *)
Lemma preview_edit_total d els :
  (∀ kind, ∃ l, d !! listKey kind = Some (TArr l) ∧ Forall (λ x, ∃ o, x = EObj o) l) →
  Forall (λ x, ∀ kind, ¬ namesList kind x) els →
  ∃ o, handlePreviewEdit els d = OK o.
Proof.
  intros Hd Hels.
  enough (∀ c, ∃ st, forEachField (d, c) els = OK st) as Hscan.
  { destruct (Hscan false) as ([nd c] & E).
    destruct (handlePreviewEdit_of_scan _ _ _ _ E) as (o & Ho & _). eauto. }
  revert d Hd. induction Hels as [|e els He _ IH]; intros d Hd c; [by eexists|].
  simpl.
  assert (∃ nd c', syncField (d, c) e = OK (nd, c')) as (nd & c' & Es).
  { unfold syncField. destruct (dataField e) as [|x f]; [by eexists _, _|].
    destruct (dataIndex e) as [s|].
    - assert (∀ kind, ∃ r, syncSection (listKey kind) d (parseInt s) (x :: f) (innerText e)
                           = OK r) as Hsec.
      { intros kind. destruct (Hd kind) as (l & Hl & Hobj). unfold syncSection.
        rewrite Hl. destruct (position (parseInt s)) as [i|]; [|by eexists].
        destruct (l !! i) as [x'|] eqn:El; [|by eexists].
        rewrite Forall_forall in Hobj.
        destruct (Hobj x') as (o & ->); [by eapply list_elem_of_lookup_2|].
        case_bool_decide; by eexists. }
      change kAcademicSections with (listKey academic).
      change kPerformanceSummarySections with (listKey summary).
      case_bool_decide.
      { destruct (Hsec academic) as (r & ->). simpl. destruct r; by eexists _, _. }
      case_bool_decide; [|by eexists _, _].
      destruct (Hsec summary) as (r & ->). simpl. destruct r; by eexists _, _.
    - case_bool_decide; by eexists _, _. }
  rewrite Es. simpl. apply IH. intros kind.
  apply syncField_inv in Es as [[-> _]|[Hw _]]; [done|].
  destruct (Hd kind) as (l & Hl & Hobj).
  destruct Hw as [Hi Hne Hdiff|kind' j l2 o2 Ht Hne Hl2 Ho2 Hdiff].
  - exists l. rewrite setProp_lookup_ne; [done|]. intros Heq. by apply (He kind).
  - destruct (decide (kind' = kind)) as [->|Hk].
    + rewrite Hl in Hl2. injection Hl2 as <-. rewrite lookup_insert_eq.
      eexists. split; [done|]. apply Forall_insert; [done|by eexists].
    + exists l. rewrite lookup_insert_ne; [done|].
      intros Heq. by apply listKey_inj in Heq.
Qed.

(** *** Frame *)

Lemma sync_top_frame els d c d' c' f :
  forEachField (d, c) els = OK (d', c') →
  (∀ kind, f ≠ listKey kind) →
  Forall (λ e, dataIndex e = None → dataField e = f →
               d !! f = Some (TStr (innerText e))) els →
  d' !! f = d !! f.
Proof.
  intros Hscan Hf Hall. rewrite Forall_forall in Hall.
  apply (forEachField_invariant (λ nd, nd !! f = d !! f)) in Hscan; [done..|].
  intros e nd1 nd2 Hin HP Hw.
  destruct Hw as [Hi Hne Hdiff|kind i l o Ht Hne Hl Ho Hdiff].
  - destruct (decide (dataField e = f)) as [Heq|Hneq].
    + exfalso. apply Hdiff. rewrite Heq, HP. by apply Hall.
    + by rewrite setProp_lookup_ne.
  - rewrite lookup_insert_ne; [done|]. intros Heq. by apply (Hf kind).
Qed.

Lemma sync_section_frame els d c d' c' kind l i o f :
  forEachField (d, c) els = OK (d', c') →
  d !! listKey kind = Some (TArr l) → l !! i = Some (EObj o) →
  Forall (λ e, ¬ namesList kind e) els →
  Forall (λ e, targets e kind i → dataField e = f →
               o !! f = Some (FStr (innerText e))) els →
  ∃ l' o', d' !! listKey kind = Some (TArr l') ∧ length l' = length l
           ∧ l' !! i = Some (EObj o') ∧ o' !! f = o !! f.
Proof.
  intros Hscan Hl Ho Htop Hall. rewrite Forall_forall in Htop, Hall.
  apply (forEachField_invariant
           (λ nd, ∃ l' o', nd !! listKey kind = Some (TArr l') ∧ length l' = length l
                           ∧ l' !! i = Some (EObj o') ∧ o' !! f = o !! f))
    in Hscan; [done|by exists l, o|].
  intros e nd1 nd2 Hin (l1 & o1 & Hl1 & Hlen & Ho1 & HP) Hw.
  destruct Hw as [Hi Hne Hdiff|kind' j l2 o2 Ht Hne Hl2 Ho2 Hdiff].
  - exists l1, o1. rewrite setProp_lookup_ne; [done|].
    intros Heq. by apply (Htop e Hin).
  - destruct (decide (kind' = kind)) as [->|Hk].
    + rewrite Hl1 in Hl2. injection Hl2 as <-. rewrite lookup_insert_eq.
      destruct (decide (j = i)) as [->|Hji].
      * rewrite Ho1 in Ho2. injection Ho2 as <-.
        eexists _, _. split; [done|]. rewrite length_insert. split; [done|].
        split; [apply list_lookup_insert_eq; by eapply lookup_lt_Some|].
        destruct (decide (dataField e = f)) as [Heq|Hneq].
        -- exfalso. apply Hdiff. rewrite Heq, HP. by apply Hall.
        -- by rewrite setProp_lookup_ne.
      * exists (<[j := EObj (setProp (dataField e) (FStr (innerText e)) o2)]> l1), o1.
        rewrite length_insert, list_lookup_insert_ne; done.
    + exists l1, o1. rewrite lookup_insert_ne; [done|].
      intros Heq. by apply listKey_inj in Heq.
Qed.

(** C2, the counterexample.  The markup is the one rendered for the empty
    record with the text of the [grade] span alone replaced; the edit also
    writes the unedited placeholder of [studentName] into the record. *)
Lemma placeholder_written_back :
  (renderedElements initialPlaafpData ≫= λ els, els !! 1%nat)
    = Some (Element (u "grade") None None (u "(grade)"))
  ∧ initialPlaafpData !! u "studentName" = Some (TStr [])
  ∧ (λ o, commit initialPlaafpData o !! u "studentName")
      <$> handlePreviewEdit markupGradeEdited initialPlaafpData
    = OK (Some (TStr (u "______ (student name)"))).
Proof. repeat split; by vm_compute. Qed.

(** C2, as amended.  An edit leaves a field as it was whenever every
    located element naming that field carries exactly the stored value (in
    particular when none names it): a flat field, and a field of the
    section at any position of either list as long as no top-level locator
    names the list.  What is written back is the text of the elements that
    differ from the stored value, whatever made them differ. *)
Theorem edit_frame d els o :
  handlePreviewEdit els d = OK o →
  (∀ f, (∀ kind, f ≠ listKey kind) →
        Forall (λ e, dataIndex e = None → dataField e = f →
                     d !! f = Some (TStr (innerText e))) els →
        commit d o !! f = d !! f)
  ∧ (∀ kind l i s f,
        d !! listKey kind = Some (TArr l) → l !! i = Some (EObj s) →
        Forall (λ e, ¬ namesList kind e) els →
        Forall (λ e, targets e kind i → dataField e = f →
                     s !! f = Some (FStr (innerText e))) els →
        ∃ l' s', commit d o !! listKey kind = Some (TArr l') ∧ length l' = length l
                 ∧ l' !! i = Some (EObj s') ∧ s' !! f = s !! f).
Proof.
  intros (c & Hscan & _)%handlePreviewEdit_scan. split.
  - intros f Hf Hall. by eapply sync_top_frame.
  - intros kind l i s f Hl Hs Htop Hall. by eapply sync_section_frame.
Qed.

(** *** Sections and their identifiers *)

(** C10, the counterexample.  A located element that names [id] at
    position 0 of the academic list replaces the identifier of that
    section. *)
Lemma section_id_rewritten :
  (sectionAt oneAcademic academic 0 ≫= idOf) = Some (FStr (u "1700000000000"))
  ∧ (λ o, sectionAt (commit oneAcademic o) academic 0 ≫= idOf)
      <$> handlePreviewEdit markupNamingId oneAcademic
    = OK (Some (FStr (u "42"))).
Proof. split; by vm_compute. Qed.

(** C10, as amended.  As long as no top-level locator names the list and no
    subsection locator names [id], an edit returns a record whose list has
    the same length and, position by position, the same identifiers. *)
Theorem sections_and_ids_preserved d els o kind l :
  handlePreviewEdit els d = OK o →
  d !! listKey kind = Some (TArr l) →
  Forall (λ e, ¬ namesList kind e ∧ ¬ namesId e) els →
  ∃ l', commit d o !! listKey kind = Some (TArr l') ∧ length l' = length l
        ∧ ∀ i, (l' !! i ≫= idOf) = (l !! i ≫= idOf).
Proof.
  intros (c & Hscan & _)%handlePreviewEdit_scan Hl Hels. rewrite Forall_forall in Hels.
  apply (forEachField_invariant
           (λ nd, ∃ l', nd !! listKey kind = Some (TArr l') ∧ length l' = length l
                        ∧ ∀ i, (l' !! i ≫= idOf) = (l !! i ≫= idOf)))
    in Hscan; [done|by exists l|].
  intros e nd1 nd2 Hin (l1 & Hl1 & Hlen & Hids) Hw.
  destruct (Hels e Hin) as [Hnl Hni].
  destruct Hw as [Hi Hne Hdiff|kind' j l2 o2 Ht Hne Hl2 Ho2 Hdiff].
  - exists l1. rewrite setProp_lookup_ne; [done|]. intros Heq. by apply Hnl.
  - destruct (decide (kind' = kind)) as [->|Hk].
    + rewrite Hl1 in Hl2. injection Hl2 as <-. rewrite lookup_insert_eq.
      eexists. split; [done|]. rewrite length_insert. split; [done|].
      intros i. rewrite <- Hids. destruct (decide (j = i)) as [->|Hji].
      * rewrite list_lookup_insert_eq by (by eapply lookup_lt_Some).
        rewrite Ho2. simpl. apply setProp_lookup_ne. intros Heq. apply Hni.
        split; [|done]. destruct Ht as (s & -> & _). done.
      * by rewrite list_lookup_insert_ne.
    + exists l1. rewrite lookup_insert_ne; [done|].
      intros Heq. by apply listKey_inj in Heq.
Qed.

End SyncTheorems.

(* ===================================================================== *)
(** * Renderer: placeholders, trimming and escaping *)
(* ===================================================================== *)

Section RenderTheorems.

Implicit Types (d : PlaafpData) (n : node) (kind : sectionKind).

Lemma fill_empty v p : trimmedNonEmpty v = false → fill v p = u "(" ++ p ++ u ")".
Proof.
  unfold trimmedNonEmpty, fill. destruct v as [s|]; [|done]. by destruct (trim s).
Qed.

Lemma fill_nonempty s p : trim s ≠ [] → fill (Some s) p = trim s.
Proof. unfold fill. by destruct (trim s). Qed.

(** Filling what [fill] produced gives it back: a trimmed text stays, and
    a placeholder is not blank. *)
Lemma fill_idem v p : fill (Some (fill v p)) p = fill v p.
Proof.
  assert (fill (Some (u "(" ++ p ++ u ")")) p = u "(" ++ p ++ u ")") as Hp.
  { unfold fill. by rewrite trim_parens. }
  destruct v as [s|]; [|exact Hp]. unfold fill at 2 3.
  destruct (trim s) as [|c t] eqn:E; [exact Hp|].
  rewrite <- E. unfold fill. rewrite trim_idem, E. done.
Qed.

(** C7, the counterexample.  A student name made of one space has an empty
    trimmed value, yet its span shows the space; and the placeholder shown
    for the empty name is not of the parenthesised form. *)
Lemma name_span_is_not_filled :
  trim (u " ") = []
  ∧ (λ parts, head (spanTexts parts)) <$> generatePreviewParts recordBlankName
    = OK (Some (u " "))
  ∧ ¬ parenthesised (u " ")
  ∧ (λ parts, head (spanTexts parts)) <$> generatePreviewParts initialPlaafpData
    = OK (Some (u "______ (student name)"))
  ∧ ¬ parenthesised (u "______ (student name)").
Proof.
  repeat split; try (by vm_compute);
    intros (p & H); vm_compute in H; discriminate H.
Qed.

(** The span of a flat field of the table, and of a field of a section,
    as the document has it. *)
Lemma flat_span_in_document d parts f p v :
  generatePreviewParts d = OK parts → (f, p) ∈ topPlaceholders →
  getStr d (u f) = OK v →
  Span (u f) (fill v (u p)) None None ∈ parts
  ∧ occursIn (flatSpan (u f) (fill v (u p))) (joinParts parts).
Proof.
  intros H Hfp Hv. destruct (flat_span_written _ _ _ _ H Hfp) as (v' & Hv' & Hin).
  rewrite Hv in Hv'. injection Hv' as <-. split; [done|].
  exact (span_written _ _ _ _ _ Hin).
Qed.

Lemma section_span_in_document d parts kind i sec f p v :
  generatePreviewParts d = OK parts → sectionAt d kind i = Some sec →
  (f, p) ∈ sectionPlaceholders kind → secStr sec (u f) = OK v →
  Span (u f) (fill v (u p)) (Some kind) (Some i) ∈ parts
  ∧ occursIn (sectionSpan kind i (u f) (fill v (u p))) (joinParts parts).
Proof.
  intros H Hsec Hfp Hv.
  destruct (section_span_written _ _ _ _ _ _ _ H Hsec Hfp) as (v' & Hv' & Hin).
  rewrite Hv in Hv'. injection Hv' as <-. split; [done|].
  exact (span_written _ _ _ _ _ Hin).
Qed.

Lemma generatePreviewHtml_parts d parts :
  generatePreviewParts d = OK parts → generatePreviewHtml d = OK (joinParts parts).
Proof. intros H. unfold generatePreviewHtml. by rewrite H. Qed.

(** C7, as amended.  Let the record [d] render, and take the markup
    [generatePreviewHtml] returns for it.  For every flat field shown
    through [fill] whose value is missing or blank once trimmed, the markup
    has the span that [editableSpan] writes for that field with the
    placeholder in parentheses as its text (what [editableSpan] writes
    being the markup of the element with that locator and text): a [span]
    of class
    [editable-field] whose [data-field] is the field name.  For every
    section of either list and every field shown for it through [fill]
    that is missing or blank, the markup has the span whose [data-field]
    is the field name, whose [data-index] is the position of the section
    in decimal and whose [data-section-type] is the kind of the list, with
    the placeholder in parentheses as its text.  The two names are
    replaced, by [______ (student name)] and [______ (parent name)], only
    when they are empty or missing, and the markup then has their spans
    with these texts.  Every span of the document carries the locator of
    the value it shows and a text of known origin.  The empty record
    renders without throwing, every span showing one of these
    placeholders. *)
Theorem empty_fields_show_placeholders d parts :
  generatePreviewParts d = OK parts →
  generatePreviewHtml d = OK (joinParts parts)
  ∧ Forall (spanOrigin d) parts
  ∧ (∀ field v p sectionType index, trimmedNonEmpty v = false →
       editableSpan field (fill v p) sectionType index
       = spanMarkup (spanElement field (u "(" ++ p ++ u ")") sectionType index))
  ∧ (∀ f p v, (f, p) ∈ topPlaceholders → getStr d (u f) = OK v →
       trimmedNonEmpty v = false →
       occursIn (flatSpan (u f) (inParentheses p)) (joinParts parts))
  ∧ (∀ kind i sec f p v,
       sectionAt d kind i = Some sec → (f, p) ∈ sectionPlaceholders kind →
       secStr sec (u f) = OK v → trimmedNonEmpty v = false →
       occursIn (sectionSpan kind i (u f) (inParentheses p)) (joinParts parts))
  ∧ (∀ v, getStr d (u "studentName") = OK v → v = None ∨ v = Some [] →
       occursIn (flatSpan (u "studentName") (u "______ (student name)")) (joinParts parts))
  ∧ (∀ v, getStr d (u "parentName") = OK v → v = None ∨ v = Some [] →
       occursIn (flatSpan (u "parentName") (u "______ (parent name)")) (joinParts parts))
  ∧ (∀ v p, trimmedNonEmpty v = false → fill v p = u "(" ++ p ++ u ")")
  ∧ (∀ p, orElse None p = p ∧ orElse (Some []) p = p)
  ∧ spanTexts <$> generatePreviewParts initialPlaafpData
    = OK (u <$> [ "______ (student name)"; "(grade)"; "(disability(ies))";
                  "(subjects/courses)"; "(cognitive areas)"; "(academic areas)";
                  "(describe impact on access/progress)";
                  "(special education/resource support)"; "(related services)";
                  "(list of accommodations)";
                  "(teacher information, observation, etc.)";
                  "(functional strengths)"; "(functional deficits and data)";
                  "(describe impact)";
                  "(strengths - Life Skills, Community experiences, etc.)";
                  "(support areas)"; "(area of employment)";
                  "______ (parent name)"; "(full or part)";
                  "______ (parent name)"; "(employment area)";
                  "______ (parent name)";
                  "(with a friend / independently / at home)" ]%string).
Proof.
  intros H.
  split; [exact (generatePreviewHtml_parts _ _ H)|].
  split; [exact (rendered_spans_origin _ _ H)|].
  split.
  { intros field v p sectionType index Hblank.
    rewrite (fill_empty _ _ Hblank). apply editableSpan_markup. }
  split; [|split; [|split; [|split; [|split; [exact fill_empty|split; [done|by vm_compute]]]]]].
  - intros f p v Hfp Hv Hblank.
    destruct (flat_span_in_document _ _ _ _ _ H Hfp Hv) as [_ Hocc].
    by rewrite (fill_empty _ _ Hblank) in Hocc.
  - intros kind i sec f p v Hsec Hfp Hv Hblank.
    destruct (section_span_in_document _ _ _ _ _ _ _ _ H Hsec Hfp Hv) as [_ Hocc].
    by rewrite (fill_empty _ _ Hblank) in Hocc.
  - intros v Hv Hempty.
    destruct (name_spans_written _ _ H) as (rawName & rawParent & Hn & _ & Hin & _).
    rewrite Hv in Hn. injection Hn as <-.
    apply span_written in Hin. by destruct Hempty as [-> | ->].
  - intros v Hv Hempty.
    destruct (name_spans_written _ _ H) as (rawName & rawParent & _ & Hn & _ & Hin).
    rewrite Hv in Hn. injection Hn as <-.
    apply span_written in Hin. by destruct Hempty as [-> | ->].
Qed.


(** C6, the failing input.  With [<script>] as deficit type the rendered
    markup contains the string as it is; the same string as student name is
    escaped wherever it is shown. *)
Theorem deficit_type_is_not_escaped :
  includes (u "These deficits are noted as <script> according")
    <$> generatePreviewHtml recordScriptDeficit = OK true
  ∧ includes (u "<script>") <$> generatePreviewHtml recordScriptName = OK false
  ∧ includes (u "&lt;script&gt; is currently receiving")
    <$> generatePreviewHtml recordScriptName = OK true.
Proof. repeat split; by vm_compute. Qed.

End RenderTheorems.

(* ===================================================================== *)
(** * Record store: appending sections, reachable records *)
(* ===================================================================== *)

Section StoreTheorems.

Implicit Types (d : PlaafpData) (kind : sectionKind).

Lemma handleAddSection_list kind now d l :
  d !! listKey kind = Some (TArr l) →
  handleAddSection kind now d
  = OK (<[listKey kind := TArr (l ++ [EObj (newSection kind now)])]> d).
Proof. intros H. unfold handleAddSection. by rewrite H. Qed.

Lemma newSection_id kind now : newSection kind now !! u "id" = Some (FStr (numToString now)).
Proof. apply lookup_insert_eq. Qed.

(** What holds of appending twice: the list grows by the two new sections,
    in the order of the calls, after the entries it had; the two
    identifiers differ exactly when the two clock readings do. *)
Lemma append_twice kind t1 t2 d l :
  d !! listKey kind = Some (TArr l) →
  ∃ d2, handleAddSection kind t1 d ≫= handleAddSection kind t2 = OK d2
        ∧ d2 !! listKey kind
          = Some (TArr (l ++ [EObj (newSection kind t1); EObj (newSection kind t2)]))
        ∧ (idOf (EObj (newSection kind t1)) = idOf (EObj (newSection kind t2)) ↔ t1 = t2).
Proof.
  intros Hl. rewrite (handleAddSection_list _ _ _ _ Hl). simpl.
  erewrite handleAddSection_list by apply lookup_insert_eq.
  eexists. split; [done|]. split.
  - rewrite lookup_insert_eq, <- app_assoc. done.
  - simpl. rewrite !newSection_id. split; [|by intros ->].
    intros [= H]. by apply numToString_inj.
Qed.

(** C3, the failing input.  Two academic sections added while the clock
    reads the same millisecond receive the same identifier. *)
Theorem same_clock_same_id :
  (λ d, (sectionAt d academic 0 ≫= idOf, sectionAt d academic 1 ≫= idOf))
    <$> (handleAddAcademicSection 1700000000000 initialPlaafpData
         ≫= handleAddAcademicSection 1700000000000)
  = OK (Some (FStr (u "1700000000000")), Some (FStr (u "1700000000000"))).
Proof. by vm_compute. Qed.

(** *** Reachable records *)

Lemma listKey_not_flat kind : listKey kind ∉ flatFields.
Proof. destruct kind; by apply (bool_decide_unpack _); vm_compute. Qed.

Lemma flatFields_initial k :
  k ∈ flatFields → initialPlaafpData !! k = Some (TStr []).
Proof.
  intros H. unfold flatFields in H. cbn [map] in H.
  repeat (apply elem_of_cons in H as [->|H]); try (by vm_compute).
  by apply elem_of_nil in H.
Qed.

Lemma newSection_fields kind now k :
  k ∈ sectionKeys kind →
  (∃ s, newSection kind now !! k = Some (FStr s))
  ∨ (k = u "progressDataSources" ∧ ∃ ss, newSection kind now !! k = Some (FStrs ss)).
Proof.
  intros H. unfold sectionKeys in H. apply elem_of_cons in H as [->|H].
  { left. eexists. apply newSection_id. }
  assert (∃ v, initialSection kind !! k = Some v
               ∧ (v = FStr [] ∨ k = u "progressDataSources" ∧ v = FStrs [])) as (v & Hv & Hcase).
  { destruct kind; vm_compute in H;
      repeat (apply elem_of_cons in H as [->|H]);
      try (by apply elem_of_nil in H);
      eexists; (split; [by vm_compute|]); first [by left | by right]. }
  assert (newSection kind now !! k = Some v ∨ ∃ s, newSection kind now !! k = Some (FStr s))
    as [Hn|Hn].
  { unfold newSection. destruct (decide (u "id" = k)) as [<-|Hne].
    - right. eexists. apply lookup_insert_eq.
    - left. by rewrite lookup_insert_ne. }
  - destruct Hcase as [->|[-> ->]]; [left|right]; eauto.
  - by left.
Qed.

Lemma syncWrite_keeps nd e nd' :
  stringsAndSources nd → syncWrite nd e nd' → stringsAndSources nd'.
Proof.
  intros [Hflat Hsec] Hw.
  destruct Hw as [Hi Hne Hdiff|kind j l2 o2 Ht Hne Hl2 Ho2 Hdiff]; split.
  - intros k Hk. destruct (decide (dataField e = k)) as [<-|Hk'].
    + destruct (setProp_lookup (dataField e) (TStr (innerText e)) nd) as [-> | ->]; eauto.
    + rewrite setProp_lookup_ne by done. auto.
  - intros kind l i o k Hl. destruct (decide (dataField e = listKey kind)) as [Heq|Hk'].
    + rewrite <- Heq in Hl.
      destruct (setProp_lookup (dataField e) (TStr (innerText e)) nd) as [H|H];
        rewrite H in Hl; [|done].
      rewrite Heq in Hl. by apply Hsec.
    + rewrite setProp_lookup_ne in Hl by done. by apply Hsec.
  - intros k Hk. rewrite lookup_insert_ne; [auto|].
    intros <-. by apply (listKey_not_flat kind).
  - intros kind' l i o k Hl Hi Hk. destruct (decide (kind = kind')) as [<-|Hkk].
    + rewrite lookup_insert_eq in Hl. injection Hl as <-.
      destruct (decide (j = i)) as [<-|Hji].
      * rewrite list_lookup_insert_eq in Hi by (by eapply lookup_lt_Some).
        injection Hi as <-. destruct (decide (dataField e = k)) as [<-|Hfk].
        -- destruct (setProp_lookup (dataField e) (FStr (innerText e)) o2) as [-> | ->];
             [by eapply Hsec|left; eauto].
        -- rewrite setProp_lookup_ne by done. by eapply Hsec.
      * rewrite list_lookup_insert_ne in Hi by done. by eapply Hsec.
    + rewrite lookup_insert_ne in Hl; [by eapply Hsec|].
      intros Heq. by apply listKey_inj in Heq.
Qed.

(** C8, the counterexample.  The record reached by adding one academic
    section holds a list, not a string, under [progressDataSources]: not
    every field of a reachable record holds a string. *)
Lemma data_sources_is_a_list :
  reachable oneAcademic
  ∧ u "progressDataSources" ∈ sectionKeys academic
  ∧ (sectionAt oneAcademic academic 0
       ≫= λ e, match e with EObj o => o !! u "progressDataSources" | EStr _ => None end)
    = Some (FStrs [])
  ∧ ¬ allStrings oneAcademic.
Proof.
  assert (u "progressDataSources" ∈ sectionKeys academic) as Hkey by by_computation.
  split; [|split; [exact Hkey|split]].
  - apply (reach_add initialPlaafpData academic 1700000000000); [constructor|].
    by apply (handleAddSection_list academic _ _ []).
  - by vm_compute.
  - intros [_ H].
    destruct (H academic [EObj (newSection academic 1700000000000)] 0%nat
                (newSection academic 1700000000000) (u "progressDataSources"))
      as (s & Hs); [apply lookup_insert_eq|reflexivity|exact Hkey|].
    vm_compute in Hs. discriminate Hs.
Qed.

(** C8, as amended.  In every reachable record each flat field is present
    and holds a string, and each field of each section object of either
    list is present and holds a string, except [progressDataSources], which
    holds the list of strings it was created with unless an edit replaced
    it by a string. *)
Theorem reachable_records_hold_strings d : reachable d → stringsAndSources d.
Proof.
  induction 1 as [|d name value _ IH Hname|d kind index name value o d' _ IH Hat Hname Hch
                 |d kind now d' _ IH Hadd|d fields out _ IH Hedit].
  - split.
    + intros k Hk. exists []. by apply flatFields_initial.
    + intros kind l i o k Hl Hi. exfalso.
      assert (l = []) as ->; [|done].
      destruct kind; vm_compute in Hl; by injection Hl.
  - destruct IH as [Hflat Hsec]. unfold handleChange. split.
    + intros k Hk. destruct (decide (name = k)) as [<-|Hne].
      * rewrite lookup_insert_eq. eauto.
      * rewrite lookup_insert_ne by done. auto.
    + intros kind l i o k Hl. rewrite lookup_insert_ne in Hl; [by apply Hsec|].
      intros ->. by apply (listKey_not_flat kind).
  - destruct IH as [Hflat Hsec]. unfold sectionAt in Hat.
    destruct (d !! listKey kind) as [[s|l0]|] eqn:El; try done.
    unfold handleSectionChange in Hch. rewrite El in Hch. simpl in Hch.
    rewrite Hat in Hch. simpl in Hch. injection Hch as <-. split.
    + intros k Hk. rewrite lookup_insert_ne; [auto|].
      intros <-. by apply (listKey_not_flat kind).
    + intros kind' l i o' k Hl Hi Hk. destruct (decide (kind = kind')) as [<-|Hkk].
      * rewrite lookup_insert_eq in Hl. injection Hl as <-.
        destruct (decide (index = i)) as [<-|Hji].
        -- rewrite list_lookup_insert_eq in Hi by (by eapply lookup_lt_Some).
           injection Hi as <-. destruct (decide (name = k)) as [<-|Hfk].
           ++ rewrite lookup_insert_eq. left. eauto.
           ++ rewrite lookup_insert_ne by done. by eapply Hsec.
        -- rewrite list_lookup_insert_ne in Hi by done. by eapply Hsec.
      * rewrite lookup_insert_ne in Hl; [by eapply Hsec|].
        intros Heq. by apply listKey_inj in Heq.
  - destruct IH as [Hflat Hsec]. unfold handleAddSection in Hadd.
    apply bind_OK in Hadd as (old & Hold & Hadd). injection Hadd as <-. split.
    + intros k Hk. rewrite lookup_insert_ne; [auto|].
      intros <-. by apply (listKey_not_flat kind).
    + intros kind' l i o k Hl Hi Hk. destruct (decide (kind = kind')) as [<-|Hkk].
      * rewrite lookup_insert_eq in Hl. injection Hl as <-.
        apply lookup_app_Some in Hi as [Hi|[_ Hi]].
        -- unfold spreadList in Hold.
           destruct (d !! listKey kind) as [[s|l0]|] eqn:El; try done.
           ++ injection Hold as <-. rewrite list_lookup_fmap in Hi.
              by destruct (codePoints s !! i).
           ++ injection Hold as <-. by eapply Hsec.
        -- apply list_lookup_singleton_Some in Hi as [_ [= <-]].
           by apply newSection_fields.
      * rewrite lookup_insert_ne in Hl; [by eapply Hsec|].
        intros Heq. by apply listKey_inj in Heq.
  - apply handlePreviewEdit_scan in Hedit as (c & Hscan & _).
    eapply (forEachField_invariant stringsAndSources); [exact IH| |exact Hscan].
    intros e nd1 nd2 _. apply syncWrite_keeps.
Qed.

End StoreTheorems.

(* ===================================================================== *)
(** * Rendering, reading the markup back, rendering again *)
(* ===================================================================== *)

Section RoundTripFacts.

Implicit Types (d : PlaafpData) (n : node) (kind : sectionKind) (e : element).

Lemma locatedElements_elem parts els e :
  locatedElements parts = Some els → e ∈ els →
  ∃ f v st i, Span f v st i ∈ parts ∧ e = spanElement f v st i.
Proof.
  revert els. induction parts as [|n parts IH]; simpl; intros els.
  { intros [= <-] H. by apply elem_of_nil in H. }
  assert (∀ els, locatedElements parts = Some els → e ∈ els →
            ∃ f v st i, Span f v st i ∈ n :: parts ∧ e = spanElement f v st i) as IH'.
  { intros els' H He. destruct (IH _ H He) as (f & v & st & i & Hin & ->).
    exists f, v, st, i. split; [by right|done]. }
  destruct n as [s|s|f v st i]; [by apply IH'| |].
  - destruct (hasTagOpen s); [done|]. by apply IH'.
  - destruct (parserRewrites v); [done|].
    destruct (locatedElements parts) as [es|] eqn:E; simpl; [|done].
    intros [= <-] He. apply elem_of_cons in He as [->|He].
    + exists f, v, st, i. split; [by left|done].
    + by apply (IH' es).
Qed.

Lemma template_stable ps ps' ns :
  Forall2 (λ p p', ∀ n, p = OK n → p' = OK n) ps ps' →
  template ps = OK ns → template ps' = OK ns.
Proof.
  intros H. revert ns. induction H as [|p p' ps ps' Hp _ IH]; intros ns; simpl; [done|].
  destruct p as [n|]; simpl; [|done]. rewrite (Hp n eq_refl). simpl.
  destruct (template ps) as [ns'|]; simpl; [|done].
  by rewrite (IH ns' eq_refl).
Qed.

Lemma forEachFrom_stable {A B} (f : A → nat → res (list B)) start l l' zs :
  length l = length l' →
  (∀ i x x' ys, l !! i = Some x → l' !! i = Some x' →
                f x (start + i) = OK ys → f x' (start + i) = OK ys) →
  forEachFrom f start l = OK zs → forEachFrom f start l' = OK zs.
Proof.
  revert start l' zs. induction l as [|x l IH]; intros start [|x' l'] zs Hlen Hf; try done.
  simpl. destruct (f x start) as [ys|] eqn:Ex; simpl; [|done].
  pose proof (Hf 0 x x' ys eq_refl eq_refl) as H0. rewrite Nat.add_0_r in H0.
  rewrite (H0 Ex). simpl.
  destruct (forEachFrom f (S start) l) as [zs'|] eqn:El; simpl; [|done].
  rewrite (IH (S start) l' zs'); [done|by injection Hlen| |done].
  intros i y y' ys' Hy Hy'. rewrite Nat.add_succ_l, <- Nat.add_succ_r.
  by apply (Hf (S i)).
Qed.

Lemma res_bind_OK {A B} (a : A) (f : A → res B) : OK a ≫= f = f a.
Proof. done. Qed.

Lemma orElse_idem v p : orElse (Some (orElse v p)) p = orElse v p.
Proof.
  destruct v as [[|c s]|]; simpl; try done; by destruct p.
Qed.

Lemma position_numToString i : position (parseInt (numToString (N.of_nat i))) = Some i.
Proof.
  rewrite parseInt_numToString. unfold position. simpl.
  destruct (Z.leb_spec 0 (Z.of_N (N.of_nat i))); [|lia].
  f_equal. lia.
Qed.

(** A rendered span addresses the subsection whose kind and position it was
    rendered with, and no other. *)
Lemma spanElement_targets f v st idx kind i :
  targets (spanElement f v st idx) kind i ↔ st = Some kind ∧ idx = Some i.
Proof.
  unfold targets, spanElement. simpl. split.
  - intros (s & Hs & Hk & Hp). destruct idx as [j|]; [|done]. destruct st as [k|]; [|done].
    injection Hs as <-. injection Hk as Hk. apply kindName_inj in Hk as ->.
    rewrite position_numToString in Hp. by injection Hp as ->.
  - intros [-> ->]. eexists. split; [done|]. split; [done|].
    apply position_numToString.
Qed.

End RoundTripFacts.

(** The edit of a record by the markup rendered for it. *)
Section RoundTrip.

Implicit Types (kind : sectionKind) (e : element).

Variables (d d' : PlaafpData) (parts : list node) (els : list element) (c c' : bool).

Hypothesis Horigin : Forall (spanOrigin d) parts.
Hypothesis Hels : locatedElements parts = Some els.
Hypothesis Hscan : forEachField (d, c) els = OK (d', c').

Lemma element_origin e :
  e ∈ els → ∃ f v st i, e = spanElement f v st i ∧ spanOrigin d (Span f v st i).
Proof.
  intros He. destruct (locatedElements_elem _ _ _ Hels He) as (f & v & st & i & Hin & ->).
  exists f, v, st, i. split; [done|]. rewrite Forall_forall in Horigin. by apply Horigin.
Qed.

Lemma top_not_listed kind p : placeholderOf topPlaceholders (listKey kind) ≠ Some p.
Proof. destruct kind; by vm_compute. Qed.

Lemma no_list_named : Forall (λ e, ∀ kind, ¬ namesList kind e) els.
Proof.
  apply Forall_forall. intros e He kind [Hi Hf].
  destruct (element_origin e He) as (f & v & st & i & -> & Ho).
  unfold spanElement in Hi, Hf. simpl in Hi, Hf. destruct i as [i|]; [done|].
  destruct st as [k|]; [done|]. subst f.
  destruct Ho as (v0 & _ & [[Hn _]|[[Hn _]|(p & Hp & _)]]).
  - destruct kind; vm_compute in Hn; discriminate Hn.
  - destruct kind; vm_compute in Hn; discriminate Hn.
  - by apply top_not_listed in Hp.
Qed.

(** What a top-level element of the markup looks like. *)
Lemma top_element e :
  e ∈ els → dataIndex e = None →
  ∃ v, getStr d (dataField e) = OK v
       ∧ ((dataField e = u "studentName"
           ∧ innerText e = orElse v (u "______ (student name)"))
          ∨ (dataField e = u "parentName"
             ∧ innerText e = orElse v (u "______ (parent name)"))
          ∨ (∃ p, placeholderOf topPlaceholders (dataField e) = Some p
                  ∧ innerText e = fill v p)).
Proof.
  intros He Hi. destruct (element_origin e He) as (f & v & st & i & -> & Ho).
  unfold spanElement in *. simpl in *. destruct i as [i|]; [done|].
  destruct st as [k|]; [done|]. exact Ho.
Qed.

(** What an element of the markup addressing a subsection looks like. *)
Lemma section_element e kind i :
  e ∈ els → targets e kind i →
  ∃ sec v, sectionAt d kind i = Some sec ∧ secStr sec (dataField e) = OK v
           ∧ ((∃ p, placeholderOf (sectionPlaceholders kind) (dataField e) = Some p
                    ∧ innerText e = fill v p)
              ∨ (kind = summary ∧ dataField e = u "subject" ∧ v = Some (innerText e))).
Proof.
  intros He Ht. destruct (element_origin e He) as (f & v & st & idx & -> & Ho).
  apply spanElement_targets in Ht as [-> ->]. exact Ho.
Qed.

Lemma flat_after f p v :
  placeholderOf topPlaceholders f = Some p → getStr d f = OK v →
  ∃ v', getStr d' f = OK v' ∧ fill v' p = fill v p.
Proof.
  intros Hp Hv.
  destruct (sync_top_pointwise els d c d' c' f (fill v p) Hscan) as [H|H].
  - intros kind ->. by apply top_not_listed in Hp.
  - intros e He Hi Hf. destruct (top_element e He Hi) as (v0 & Hv0 & Hcase).
    rewrite Hf, Hv in Hv0. injection Hv0 as <-. rewrite Hf in Hcase.
    destruct Hcase as [[Hn _]|[[Hn _]|(p0 & Hp0 & Ht)]].
    + rewrite Hn in Hp. vm_compute in Hp. discriminate Hp.
    + rewrite Hn in Hp. vm_compute in Hp. discriminate Hp.
    + rewrite Hp in Hp0. by injection Hp0 as <-.
  - exists v. split; [|done]. unfold getStr in *. by rewrite H.
  - exists (Some (fill v p)). split; [|apply fill_idem]. unfold getStr. by rewrite H.
Qed.

Lemma fillSpan_stable field placeholder n :
  placeholderOf topPlaceholders (u field) = Some (u placeholder) →
  fillSpan d field placeholder = OK n → fillSpan d' field placeholder = OK n.
Proof.
  intros Hp. unfold fillSpan. destruct (getStr d (u field)) as [v|] eqn:Hv; simpl; [|done].
  destruct (flat_after _ _ _ Hp Hv) as (v' & -> & Hfill). simpl. by rewrite Hfill.
Qed.

Lemma name_after name :
  name ≠ [] → getStr d (u "studentName") = OK (Some name) →
  getStr d' (u "studentName") = OK (Some name).
Proof.
  intros Hne Hv. unfold getStr in *.
  destruct (d !! u "studentName") as [[s|l]|] eqn:Ed; try done. injection Hv as ->.
  rewrite (sync_top_frame els d c d' c' (u "studentName") Hscan), Ed; [done| |].
  - intros kind Heq. destruct kind; vm_compute in Heq; discriminate Heq.
  - apply Forall_forall. intros e He Hi Hf.
    destruct (top_element e He Hi) as (v0 & Hv0 & Hcase). rewrite Hf in Hv0, Hcase.
    unfold getStr in Hv0. rewrite Ed in Hv0. injection Hv0 as <-.
    destruct Hcase as [[_ ->]|[[Hn _]|(p0 & Hp0 & _)]].
    + rewrite Ed. by destruct name.
    + vm_compute in Hn. discriminate Hn.
    + vm_compute in Hp0. discriminate Hp0.
Qed.

Lemma parent_after v :
  getStr d (u "parentName") = OK v →
  ∃ v', getStr d' (u "parentName") = OK v'
        ∧ orElse v' (u "______ (parent name)") = orElse v (u "______ (parent name)").
Proof.
  intros Hv.
  destruct (sync_top_pointwise els d c d' c' (u "parentName")
              (orElse v (u "______ (parent name)")) Hscan) as [H|H].
  - intros kind Heq. destruct kind; vm_compute in Heq; discriminate Heq.
  - intros e He Hi Hf. destruct (top_element e He Hi) as (v0 & Hv0 & Hcase).
    rewrite Hf, Hv in Hv0. injection Hv0 as <-. rewrite Hf in Hcase.
    destruct Hcase as [[Hn _]|[[_ ->]|(p0 & Hp0 & _)]].
    + vm_compute in Hn. discriminate Hn.
    + done.
    + vm_compute in Hp0. discriminate Hp0.
  - exists v. split; [|done]. unfold getStr in *. by rewrite H.
  - eexists. split; [unfold getStr; by rewrite H|]. apply orElse_idem.
Qed.

Lemma deficit_after : deficitTypePiece d' = deficitTypePiece d.
Proof.
  unfold deficitTypePiece, getStr.
  rewrite (sync_top_frame els d c d' c' (u "deficitType") Hscan); [done| |].
  - intros kind Heq. destruct kind; vm_compute in Heq; discriminate Heq.
  - apply Forall_forall. intros e He Hi Hf. exfalso.
    destruct (top_element e He Hi) as (v0 & _ & Hcase). rewrite Hf in Hcase.
    destruct Hcase as [[Hn _]|[[Hn _]|(p0 & Hp0 & _)]].
    + vm_compute in Hn. discriminate Hn.
    + vm_compute in Hn. discriminate Hn.
    + vm_compute in Hp0. discriminate Hp0.
Qed.

Lemma list_after kind l :
  d !! listKey kind = Some (TArr l) →
  ∃ l', d' !! listKey kind = Some (TArr l') ∧ length l' = length l.
Proof.
  intros Hl.
  destruct (sync_section_length els d c d' c' kind l Hscan Hl) as (l' & Hl' & Hlen & _).
  - intros e He Hi Hf. pose proof no_list_named as H. rewrite Forall_forall in H.
    by apply (H e He kind).
  - by exists l'.
Qed.

Lemma field_after kind l l' i o x' f v :
  d !! listKey kind = Some (TArr l) → l !! i = Some (EObj o) →
  d' !! listKey kind = Some (TArr l') → l' !! i = Some x' →
  (∀ e, e ∈ els → targets e kind i → dataField e = f → innerText e = v) →
  ∃ o', x' = EObj o' ∧ (o' !! f = o !! f ∨ o' !! f = Some (FStr v)).
Proof.
  intros Hl Ho Hl' Hx' Hall.
  destruct (sync_section_pointwise els d c d' c' kind l i o f v Hscan Hl Ho)
    as (l2 & o2 & Hl2 & _ & Ho2 & H).
  - intros e He Hi Hf. pose proof no_list_named as Hn. rewrite Forall_forall in Hn.
    by apply (Hn e He kind).
  - exact Hall.
  - rewrite Hl' in Hl2. injection Hl2 as <-. rewrite Hx' in Ho2. injection Ho2 as ->.
    by exists o2.
Qed.

Lemma fill_settled s p : s ≠ [] → trim s = s → fill (Some s) p = s.
Proof. intros Hne Ht. unfold fill. rewrite Ht. by destruct s. Qed.

(** The elements addressing one section, seen from that section. *)
Lemma section_element_at e kind l i o :
  d !! listKey kind = Some (TArr l) → l !! i = Some (EObj o) →
  e ∈ els → targets e kind i →
  ∃ v, secStr (EObj o) (dataField e) = OK v
       ∧ ((∃ p, placeholderOf (sectionPlaceholders kind) (dataField e) = Some p
                ∧ innerText e = fill v p)
          ∨ (kind = summary ∧ dataField e = u "subject" ∧ v = Some (innerText e))).
Proof.
  intros Hl Ho He Ht. destruct (section_element e kind i He Ht) as (sec & v & Hs & Hv & H).
  unfold sectionAt in Hs. rewrite Hl, Ho in Hs. injection Hs as <-. by exists v.
Qed.

Lemma subject_after kind l l' i o x' s :
  d !! listKey kind = Some (TArr l) → l !! i = Some (EObj o) →
  d' !! listKey kind = Some (TArr l') → l' !! i = Some x' →
  o !! u "subject" = Some (FStr s) → s ≠ [] → trim s = s →
  ∃ o', x' = EObj o' ∧ o' !! u "subject" = Some (FStr s).
Proof.
  intros Hl Ho Hl' Hx' Hs Hne Ht.
  destruct (field_after kind l l' i o x' (u "subject") s Hl Ho Hl' Hx') as (o' & -> & H).
  - intros e He Htg Hf.
    destruct (section_element_at e kind l i o Hl Ho He Htg) as (v & Hv & Hcase).
    rewrite Hf in Hv. unfold secStr in Hv. rewrite Hs in Hv. injection Hv as <-.
    destruct Hcase as [(p & _ & ->)|(_ & _ & [= <-])]; [by apply fill_settled|done].
  - exists o'. split; [done|]. destruct H as [-> | ->]; done.
Qed.

Lemma secSpan_stable kind l l' i o x' s field placeholder n :
  d !! listKey kind = Some (TArr l) → l !! i = Some (EObj o) →
  d' !! listKey kind = Some (TArr l') → l' !! i = Some x' →
  o !! u "subject" = Some (FStr s) → s ≠ [] → trim s = s →
  placeholderOf (sectionPlaceholders kind) (u field) = Some (u placeholder) →
  secSpan kind (EObj o) i field placeholder = OK n →
  secSpan kind x' i field placeholder = OK n.
Proof.
  intros Hl Ho Hl' Hx' Hs Hne Ht Hp. unfold secSpan.
  destruct (secStr (EObj o) (u field)) as [v|] eqn:Hv; simpl; [|done]. intros [= <-].
  destruct (field_after kind l l' i o x' (u field) (fill v (u placeholder)) Hl Ho Hl' Hx')
    as (o' & -> & H).
  - intros e He Htg Hf.
    destruct (section_element_at e kind l i o Hl Ho He Htg) as (v0 & Hv0 & Hcase).
    rewrite Hf, Hv in Hv0. injection Hv0 as <-. rewrite Hf in Hcase.
    destruct Hcase as [(p & Hp0 & ->)|(_ & Hsub & ->)].
    + rewrite Hp in Hp0. by injection Hp0 as <-.
    + rewrite Hsub in Hv. unfold secStr in Hv. rewrite Hs in Hv. injection Hv as ->.
      symmetry. by apply fill_settled.
  - unfold secStr in *. destruct H as [H|H]; rewrite H.
    + destruct (o !! u field) as [[s0|ss]|]; try done; by injection Hv as <-.
    + rewrite res_bind_OK, fill_idem. done.
Qed.

(** One piece of a template gives for [d'] what it gave for [d]. *)
Ltac piece_stable secH :=
  lazymatch goal with
  | |- ∀ n, fillSpan _ _ _ = OK n → _ =>
      intros ?; apply fillSpan_stable; by vm_compute
  | |- ∀ n, deficitTypePiece _ = OK n → _ =>
      let H := fresh in intros ? H; rewrite deficit_after; exact H
  | |- ∀ n, secSpan _ _ _ _ _ = OK n → _ =>
      intros ?; apply secH; by vm_compute
  | |- _ => exact (λ n H, H)
  end.

Lemma introParts_stable rawName studentName ns :
  introParts d rawName studentName = OK ns → introParts d' rawName studentName = OK ns.
Proof.
  unfold introParts. apply template_stable.
  repeat (apply List.Forall2_cons; [piece_stable fillSpan_stable|]).
  apply List.Forall2_nil.
Qed.

Lemma functionalParts_stable rawName studentName ns :
  functionalParts d rawName studentName = OK ns →
  functionalParts d' rawName studentName = OK ns.
Proof.
  unfold functionalParts. apply template_stable.
  repeat (apply List.Forall2_cons; [piece_stable fillSpan_stable|]).
  apply List.Forall2_nil.
Qed.

Lemma transitionParts_stable studentName parentName ns :
  transitionParts d studentName parentName = OK ns →
  transitionParts d' studentName parentName = OK ns.
Proof.
  unfold transitionParts. apply template_stable.
  repeat (apply List.Forall2_cons; [piece_stable fillSpan_stable|]).
  apply List.Forall2_nil.
Qed.

Lemma academicParts_stable rawName studentName l l' i o x' s ys :
  d !! listKey academic = Some (TArr l) → l !! i = Some (EObj o) →
  d' !! listKey academic = Some (TArr l') → l' !! i = Some x' →
  o !! u "subject" = Some (FStr s) → s ≠ [] → trim s = s →
  academicParts rawName studentName (EObj o) i = OK ys →
  academicParts rawName studentName x' i = OK ys.
Proof.
  intros Hl Ho Hl' Hx' Hs Hne Ht.
  destruct (subject_after academic l l' i o x' s Hl Ho Hl' Hx' Hs Hne Ht) as (o' & Hx & Hs').
  pose proof (λ field placeholder n,
                secSpan_stable academic l l' i o x' s field placeholder n
                  Hl Ho Hl' Hx' Hs Hne Ht) as Hsec.
  clear Hl Ho Hl' Hx'. subst x'. unfold academicParts. cbv zeta.
  assert (secStr (EObj o) (u "subject") = OK (Some s)) as ->
    by (unfold secStr; by rewrite Hs).
  assert (secStr (EObj o') (u "subject") = OK (Some s)) as ->
    by (unfold secStr; by rewrite Hs').
  rewrite !res_bind_OK. apply template_stable.
  repeat (apply List.Forall2_cons; [piece_stable Hsec|]).
  apply List.Forall2_nil.
Qed.

Lemma summaryParts_stable rawName studentName l l' i o x' s ys :
  d !! listKey summary = Some (TArr l) → l !! i = Some (EObj o) →
  d' !! listKey summary = Some (TArr l') → l' !! i = Some x' →
  o !! u "subject" = Some (FStr s) → s ≠ [] → trim s = s →
  summaryParts rawName studentName (EObj o) i = OK ys →
  summaryParts rawName studentName x' i = OK ys.
Proof.
  intros Hl Ho Hl' Hx' Hs Hne Ht.
  destruct (subject_after summary l l' i o x' s Hl Ho Hl' Hx' Hs Hne Ht) as (o' & Hx & Hs').
  pose proof (λ field placeholder n,
                secSpan_stable summary l l' i o x' s field placeholder n
                  Hl Ho Hl' Hx' Hs Hne Ht) as Hsec.
  clear Hl Ho Hl' Hx'. subst x'. unfold summaryParts. cbv zeta.
  assert (secStr (EObj o) (u "subject") = OK (Some s)) as ->
    by (unfold secStr; by rewrite Hs).
  assert (secStr (EObj o') (u "subject") = OK (Some s)) as ->
    by (unfold secStr; by rewrite Hs').
  apply template_stable.
  repeat (apply List.Forall2_cons; [piece_stable Hsec|]).
  apply List.Forall2_nil.
Qed.

Lemma settled_lookup kind (l : list elem) i x :
  Forall (λ y, ∃ o s, y = EObj o ∧ o !! u "subject" = Some (FStr s)
                      ∧ s ≠ [] ∧ trim s = s) l →
  l !! i = Some x →
  ∃ o s, x = EObj o ∧ o !! u "subject" = Some (FStr s) ∧ s ≠ [] ∧ trim s = s.
Proof. intros H Hi. rewrite Forall_lookup in H. by apply (H i). Qed.

Lemma academicBlocks_stable rawName studentName ns :
  subjectsSettled d →
  academicBlocks d rawName studentName = OK ns →
  academicBlocks d' rawName studentName = OK ns.
Proof.
  intros Hsub. destruct (Hsub academic) as (l & Hl & Hall).
  destruct (list_after academic l Hl) as (l' & Hl' & Hlen).
  unfold academicBlocks. change kAcademicSections with (listKey academic).
  rewrite Hl, Hl'. apply forEachFrom_stable; [done|].
  intros i x x' ys Hx Hx'.
  destruct (settled_lookup academic l i x Hall Hx) as (o & s & -> & Hs & Hne & Ht).
  exact (academicParts_stable rawName studentName l l' i o x' s ys
           Hl Hx Hl' Hx' Hs Hne Ht).
Qed.

Lemma summaryBlocks_stable rawName studentName ns :
  subjectsSettled d →
  summaryBlocks d rawName studentName = OK ns →
  summaryBlocks d' rawName studentName = OK ns.
Proof.
  intros Hsub. destruct (Hsub summary) as (l & Hl & Hall).
  destruct (list_after summary l Hl) as (l' & Hl' & Hlen).
  unfold summaryBlocks. change kPerformanceSummarySections with (listKey summary).
  rewrite Hl, Hl'. destruct l as [|x l], l' as [|x' l']; try done.
  intros H. apply bind_OK in H as (blocks & Hblocks & H).
  rewrite (forEachFrom_stable _ 0 (x :: l) (x' :: l') blocks (eq_sym Hlen));
    [exact H| |exact Hblocks].
  intros i y y' ys Hy Hy'.
  destruct (settled_lookup summary (x :: l) i y Hall Hy) as (o & s & -> & Hs & Hne & Ht).
  exact (summaryParts_stable rawName studentName (x :: l) (x' :: l') i o y' s ys
           Hl Hy Hl' Hy' Hs Hne Ht).
Qed.

End RoundTrip.

Section RoundTripTheorem.

(** C1, the counterexample.  The markup rendered for the empty record,
    handed back unedited, writes the placeholders into the record; the
    possessive then reads [______ (student name)'s] where it read
    [______'s], so the document rendered next is another one. *)
Lemma unedited_markup_changes_document :
  renderedElements initialPlaafpData = Some markupOfEmpty
  ∧ handlePreviewEdit markupOfEmpty initialPlaafpData
    = OK (editOutcome markupOfEmpty initialPlaafpData)
  ∧ generatePreviewHtml
      (commit initialPlaafpData (editOutcome markupOfEmpty initialPlaafpData))
    ≠ generatePreviewHtml initialPlaafpData
  ∧ includes (u "______'s full individual evaluation")
      <$> generatePreviewHtml initialPlaafpData = OK true
  ∧ includes (u "______ (student name)'s full individual evaluation")
      <$> generatePreviewHtml
            (commit initialPlaafpData (editOutcome markupOfEmpty initialPlaafpData))
    = OK true.
Proof. repeat split; by_computation. Qed.

(** C1, as amended.  For every record whose student name is not empty and
    in which every subsection is an object with a non-empty subject free of
    surrounding white space: if the record renders and the located elements
    of the markup are those of its spans, then reconciling the record with
    that unedited markup does not throw and the record it returns renders
    to the same document.  (Placeholders and trimmed values are written
    into the record all the same; they render as before.) *)
Theorem unedited_markup_keeps_document d parts els :
  nameGiven d → subjectsSettled d →
  generatePreviewParts d = OK parts → locatedElements parts = Some els →
  ∃ o, handlePreviewEdit els d = OK o
       ∧ generatePreviewParts (commit d o) = OK parts
       ∧ generatePreviewHtml (commit d o) = generatePreviewHtml d.
Proof.
  intros (c0 & s0 & Hname) Hsub Hrender Hels.
  pose proof (rendered_spans_origin _ _ Hrender) as Horigin.
  destruct (preview_edit_total d els) as (o & Ho).
  { intros kind. destruct (Hsub kind) as (l & Hl & Hall). exists l. split; [exact Hl|].
    eapply Forall_impl; [exact Hall|]. intros x (o & s & -> & _). by exists o. }
  { exact (no_list_named d parts els Horigin Hels). }
  exists o. split; [exact Ho|].
  apply handlePreviewEdit_scan in Ho as (c' & Hscan & _).
  assert (generatePreviewParts (commit d o) = OK parts) as Hre.
  { revert Hrender. unfold generatePreviewParts. intros H.
    apply bind_OK in H as (rawName & HrawName & H).
    apply bind_OK in H as (rawParent & Hparent & H).
    apply bind_OK in H as (intro & Hintro & H).
    apply bind_OK in H as (acad & Hacad & H).
    apply bind_OK in H as (func & Hfunc & H).
    apply bind_OK in H as (trans & Htrans & H).
    apply bind_OK in H as (summ & Hsumm & H).
    assert (rawName = Some (c0 :: s0)) as ->.
    { unfold getStr in HrawName. rewrite Hname in HrawName. by injection HrawName. }
    rewrite (name_after d _ parts els false c' Horigin Hels Hscan (c0 :: s0) ltac:(done)
               HrawName).
    destruct (parent_after d _ parts els false c' Horigin Hels Hscan rawParent Hparent)
      as (rawParent' & -> & HparentName).
    rewrite !res_bind_OK. cbv zeta. rewrite HparentName.
    rewrite (introParts_stable d _ parts els false c' Horigin Hels Hscan _ _ _ Hintro).
    rewrite res_bind_OK.
    rewrite (academicBlocks_stable d _ parts els false c' Horigin Hels Hscan _ _ _
               Hsub Hacad).
    rewrite res_bind_OK.
    rewrite (functionalParts_stable d _ parts els false c' Horigin Hels Hscan _ _ _ Hfunc).
    rewrite res_bind_OK.
    rewrite (transitionParts_stable d _ parts els false c' Horigin Hels Hscan _ _ _ Htrans).
    rewrite res_bind_OK.
    rewrite (summaryBlocks_stable d _ parts els false c' Horigin Hels Hscan _ _ _
               Hsub Hsumm).
    rewrite res_bind_OK. exact H. }
  split; [exact Hre|]. unfold generatePreviewHtml. by rewrite Hre, Hrender.
Qed.

End RoundTripTheorem.

(* ===================================================================== *)
(** * The theorems at concrete inputs *)
(* ===================================================================== *)


(** Editing the subject of the one academic section leaves the flat field
    [grade] as it was. *)
Lemma edit_frame_witness :
  handlePreviewEdit markupSubjectEdit oneAcademic
  = OK (editOutcome markupSubjectEdit oneAcademic)
  ∧ commit oneAcademic (editOutcome markupSubjectEdit oneAcademic) !! u "grade"
    = oneAcademic !! u "grade".
Proof.
  assert (handlePreviewEdit markupSubjectEdit oneAcademic
          = OK (editOutcome markupSubjectEdit oneAcademic)) as H by by_computation.
  split; [exact H|].
  apply (proj1 (edit_frame _ _ _ H)).
  - intros kind Heq. destruct kind; vm_compute in Heq; discriminate Heq.
  - repeat constructor. intros Hi. vm_compute in Hi. discriminate Hi.
Defined.

(** Editing the subject of the one academic section keeps the list at one
    entry, with the identifier it had. *)
Lemma sections_and_ids_preserved_witness :
  handlePreviewEdit markupSubjectEdit oneAcademic
  = OK (editOutcome markupSubjectEdit oneAcademic)
  ∧ ∃ l', commit oneAcademic (editOutcome markupSubjectEdit oneAcademic)
            !! listKey academic = Some (TArr l')
          ∧ length l' = 1%nat
          ∧ ∀ i, (l' !! i ≫= idOf)
                 = ([EObj (newSection academic 1700000000000)] !! i ≫= idOf).
Proof.
  assert (handlePreviewEdit markupSubjectEdit oneAcademic
          = OK (editOutcome markupSubjectEdit oneAcademic)) as H by by_computation.
  split; [exact H|].
  apply (sections_and_ids_preserved _ _ _ academic
           [EObj (newSection academic 1700000000000)] H).
  - apply lookup_insert_eq.
  - repeat constructor.
    + intros [Hi _]. vm_compute in Hi. discriminate Hi.
    + intros [_ Hf]. vm_compute in Hf. discriminate Hf.
Defined.

(** The record with one academic section is reachable, and holds strings
    and one list of sources. *)
Lemma reachable_records_hold_strings_witness :
  reachable oneAcademic ∧ stringsAndSources oneAcademic.
Proof.
  assert (reachable oneAcademic) as H.
  { apply (reach_add initialPlaafpData academic 1700000000000); [constructor|].
    by apply (handleAddSection_list academic _ _ []). }
  split; [exact H|]. exact (reachable_records_hold_strings _ H).
Defined.

(** The record of Jordan, with one section of each kind on Math, renders;
    handing the unedited markup back gives a record that renders to the
    same document. *)
Lemma unedited_markup_keeps_document_witness :
  nameGiven recordJordan
  ∧ subjectsSettled recordJordan
  ∧ generatePreviewParts recordJordan = OK (renderedParts recordJordan)
  ∧ locatedElements (renderedParts recordJordan) = Some markupOfJordan
  ∧ ∃ o, handlePreviewEdit markupOfJordan recordJordan = OK o
         ∧ generatePreviewParts (commit recordJordan o) = OK (renderedParts recordJordan)
         ∧ generatePreviewHtml (commit recordJordan o) = generatePreviewHtml recordJordan.
Proof.
  assert (nameGiven recordJordan) as Hname.
  { exists 74%N, (u "ordan"). by vm_compute. }
  assert (subjectsSettled recordJordan) as Hsub.
  { intros kind. destruct kind.
    - exists [EObj (<[u "subject" := FStr (u "Math")]> (newSection academic 1700000000000))].
      split; [by_computation|]. repeat constructor.
      eexists _, (u "Math"). split; [reflexivity|]. repeat split; by vm_compute.
    - exists [EObj (<[u "subject" := FStr (u "Math")]> (newSection summary 1700000000001))].
      split; [by_computation|]. repeat constructor.
      eexists _, (u "Math"). split; [reflexivity|]. repeat split; by vm_compute. }
  assert (generatePreviewParts recordJordan = OK (renderedParts recordJordan)) as Hrender
    by by_computation.
  assert (locatedElements (renderedParts recordJordan) = Some markupOfJordan) as Hels
    by by_computation.
  repeat (split; [assumption|]).
  exact (unedited_markup_keeps_document recordJordan _ _ Hname Hsub Hrender Hels).
Defined.

(** The record of Jordan has no grade, and its two sections have a subject
    and nothing else: the markup has the span of the grade and the spans of
    the fields of the two sections, at position 0 of their lists, with the
    placeholders. *)
Lemma empty_fields_show_placeholders_witness :
  generatePreviewParts recordJordan = OK (renderedParts recordJordan)
  ∧ generatePreviewHtml recordJordan = OK (joinParts (renderedParts recordJordan))
  ∧ occursIn (flatSpan (u "grade") (inParentheses "grade"))
      (joinParts (renderedParts recordJordan))
  ∧ occursIn (sectionSpan academic 0 (u "staarProficient")
                (inParentheses "TEKS Student Expectations"))
      (joinParts (renderedParts recordJordan))
  ∧ occursIn (sectionSpan summary 0 (u "taksScore") (inParentheses "TAKS score"))
      (joinParts (renderedParts recordJordan)).
Proof.
  assert (generatePreviewParts recordJordan = OK (renderedParts recordJordan)) as Hrender
    by by_computation.
  destruct (empty_fields_show_placeholders recordJordan _ Hrender)
    as (Hhtml & _ & _ & Hflat & Hsec & _).
  assert (("grade", "grade")%string ∈ topPlaceholders) as Hgrade by by_computation.
  assert (getStr recordJordan (u "grade") = OK (Some [])) as Hvalue by by_computation.
  assert (sectionAt recordJordan academic 0
          = Some (EObj (<[u "subject" := FStr (u "Math")]>
                          (newSection academic 1700000000000)))) as Hacad
    by by_computation.
  assert (sectionAt recordJordan summary 0
          = Some (EObj (<[u "subject" := FStr (u "Math")]>
                          (newSection summary 1700000000001)))) as Hsumm
    by by_computation.
  assert (("staarProficient", "TEKS Student Expectations")%string
          ∈ sectionPlaceholders academic) as Hstaar by by_computation.
  assert (("taksScore", "TAKS score")%string ∈ sectionPlaceholders summary) as Htaks
    by by_computation.
  assert (secStr (EObj (<[u "subject" := FStr (u "Math")]>
                          (newSection academic 1700000000000)))
                 (u "staarProficient") = OK (Some [])) as Hv1 by by_computation.
  assert (secStr (EObj (<[u "subject" := FStr (u "Math")]>
                          (newSection summary 1700000000001)))
                 (u "taksScore") = OK (Some [])) as Hv2 by by_computation.
  exact (conj Hrender (conj Hhtml (conj
           (Hflat _ _ _ Hgrade Hvalue eq_refl) (conj
           (Hsec academic 0%nat _ _ _ _ Hacad Hstaar Hv1 eq_refl)
           (Hsec summary 0%nat _ _ _ _ Hsumm Htaks Hv2 eq_refl))))).
Defined.


(* ===================================================================== *)
(** * Further properties *)
(* ===================================================================== *)

(** ** Escaping and filling *)

Section EscapeFacts.

Implicit Types (s t : jsstring) (c : N).

Lemma replaceAll_app c rep s t :
  replaceAll c rep (s ++ t) = replaceAll c rep s ++ replaceAll c rep t.
Proof. unfold replaceAll. apply flat_map_app. Qed.

(** [sanitize] works code unit by code unit. *)
Lemma sanitize_cons c s : sanitize (c :: s) = escapeChar c ++ sanitize s.
Proof.
  unfold sanitize. change (c :: s) with ([c] ++ s).
  assert (replaceAll 62 (u "&gt;") (replaceAll 60 (u "&lt;") (replaceAll 38 (u "&amp;") [c]))
          = escapeChar c) as <-.
  { unfold escapeChar.
    destruct (N.eqb_spec c 38) as [->|H38]; [done|].
    destruct (N.eqb_spec c 60) as [->|H60]; [done|].
    destruct (N.eqb_spec c 62) as [->|H62]; [done|].
    unfold replaceAll. simpl.
    rewrite (proj2 (N.eqb_neq c 38) H38). simpl.
    rewrite (proj2 (N.eqb_neq c 60) H60). simpl.
    by rewrite (proj2 (N.eqb_neq c 62) H62). }
  by rewrite !replaceAll_app.
Qed.

Lemma escapeChar_cases c :
  c = 38%N ∧ escapeChar c = [38; 97; 109; 112; 59]%N
  ∨ c = 60%N ∧ escapeChar c = [38; 108; 116; 59]%N
  ∨ c = 62%N ∧ escapeChar c = [38; 103; 116; 59]%N
  ∨ c ≠ 38%N ∧ escapeChar c = [c].
Proof.
  unfold escapeChar.
  destruct (N.eqb_spec c 38) as [->|H38]; [by left|].
  destruct (N.eqb_spec c 60) as [->|H60]; [by right; left|].
  destruct (N.eqb_spec c 62) as [->|H62]; [by right; right; left|].
  by right; right; right.
Qed.

(** The escaped forms of the code units form a prefix code. *)
Lemma escapeChar_prefix c c' s t :
  escapeChar c ++ s = escapeChar c' ++ t → c = c' ∧ s = t.
Proof.
  destruct (escapeChar_cases c) as [[-> ->]|[[-> ->]|[[-> ->]|[Hc ->]]]];
    destruct (escapeChar_cases c') as [[-> ->]|[[-> ->]|[[-> ->]|[Hc' ->]]]];
    simpl; intros H; simplify_eq; done.
Qed.

Lemma sanitize_inj s t : sanitize s = sanitize t → s = t.
Proof.
  revert t. induction s as [|c s IH]; intros [|c' t].
  - done.
  - rewrite sanitize_cons.
    destruct (escapeChar_cases c') as [[_ ->]|[[_ ->]|[[_ ->]|[_ ->]]]]; done.
  - rewrite sanitize_cons.
    destruct (escapeChar_cases c) as [[_ ->]|[[_ ->]|[[_ ->]|[_ ->]]]]; done.
  - rewrite !sanitize_cons. intros [-> H]%escapeChar_prefix. f_equal. by apply IH.
Qed.

Lemma numToString_nonempty n : numToString n ≠ [].
Proof. by destruct (numToString_spec n) as (_ & H & _). Qed.

(** What [fill] returns is not empty and has no white space at either end. *)
Lemma fill_text_settled v p : fill v p ≠ [] ∧ trim (fill v p) = fill v p.
Proof.
  assert (u "(" ++ p ++ u ")" ≠ [] ∧ trim (u "(" ++ p ++ u ")") = u "(" ++ p ++ u ")") as Hp.
  { split; [done|apply trim_parens]. }
  destruct v as [s|]; [|exact Hp]. unfold fill.
  destruct (trim s) as [|c t] eqn:E; [exact Hp|].
  split; [done|]. rewrite <- E. apply trim_idem.
Qed.

End EscapeFacts.

(** X1.  [sanitize] leaves no [<] and no [>] in a text, and it loses
    nothing: two texts with the same escaped form are the same text. *)
Theorem sanitize_removes_angles_and_is_injective (str str' : jsstring) :
  Forall (λ c, c ≠ 60%N ∧ c ≠ 62%N) (sanitize str)
  ∧ (sanitize str = sanitize str' → str = str').
Proof. split; [apply sanitize_no_angle|apply sanitize_inj]. Qed.

(** X2.  The text [fill] returns is never empty and has no white space at
    either end, and [fill] returns it unchanged when it is the value, with
    whatever placeholder: a text shown through [fill] and stored as it is
    shown is shown the same again. *)
Theorem filled_text_is_a_fixed_point (value : strval) (placeholder placeholder' : jsstring) :
  fill value placeholder ≠ []
  ∧ trim (fill value placeholder) = fill value placeholder
  ∧ fill (Some (fill value placeholder)) placeholder' = fill value placeholder.
Proof.
  destruct (fill_text_settled value placeholder) as [Hne Htrim].
  split; [done|]. split; [done|].
  rewrite fill_nonempty; rewrite Htrim; done.
Qed.

(** ** Edits made in the preview *)

Section EditFacts.

Implicit Types (d nd : PlaafpData) (e : element) (c : bool) (kind : sectionKind).

Lemma setProp_plain {V} (k : jsstring) (v : V) (o : gmap jsstring V) :
  k ≠ kProto → setProp k v o = <[k := v]> o.
Proof. intros Hk. unfold setProp. by rewrite (bool_decide_eq_false_2 _ Hk). Qed.

(** The step of the scan on a top-level locator. *)
Lemma syncField_top nd c e :
  dataIndex e = None → dataField e ≠ [] →
  syncField (nd, c) e
  = OK (if bool_decide (nd !! dataField e = Some (TStr (innerText e))) then (nd, c)
        else (setProp (dataField e) (TStr (innerText e)) nd, true)).
Proof.
  intros Hi Hf. unfold syncField. rewrite Hi.
  destruct (dataField e) as [|x f]; [by destruct Hf|]. by case_bool_decide.
Qed.

(** The step of the scan on a locator that addresses a section object. *)
Lemma syncField_section nd c e kind i l o :
  targets e kind i → dataField e ≠ [] →
  nd !! listKey kind = Some (TArr l) → l !! i = Some (EObj o) →
  syncField (nd, c) e
  = OK (if bool_decide (o !! dataField e = Some (FStr (innerText e))) then (nd, c)
        else (<[listKey kind :=
                  TArr (<[i := EObj (setProp (dataField e) (FStr (innerText e)) o)]> l)]> nd,
              true)).
Proof.
  intros (s & Hs & Hk & Hp) Hf Hl Ho. unfold syncField. rewrite Hs, Hk.
  destruct (dataField e) as [|x f] eqn:Ef; [by destruct Hf|].
  assert (syncSection (listKey kind) nd (parseInt s) (x :: f) (innerText e)
          = OK (if bool_decide (o !! (x :: f) = Some (FStr (innerText e))) then None
                else Some (<[listKey kind :=
                               TArr (<[i := EObj (setProp (x :: f) (FStr (innerText e)) o)]> l)]>
                             nd))) as Hsec.
  { unfold syncSection. rewrite Hl, Hp, Ho. by case_bool_decide. }
  change kAcademicSections with (listKey academic).
  change kPerformanceSummarySections with (listKey summary).
  destruct kind.
  - rewrite (bool_decide_eq_true_2 (Some (kindName academic) = Some kAcademic)) by done.
    rewrite Hsec. by case_bool_decide.
  - rewrite (bool_decide_eq_false_2 (Some (kindName summary) = Some kAcademic)) by done.
    rewrite (bool_decide_eq_true_2 (Some (kindName summary) = Some kSummary)) by done.
    rewrite Hsec. by case_bool_decide.
Qed.

Lemma targets_printed field value kind i :
  targets (Element field (Some (numToString (N.of_nat i))) (Some (kindName kind)) value) kind i.
Proof. eexists. split; [done|]. split; [done|]. apply position_numToString. Qed.

(** The scan of a markup split at one of its located elements. *)
Lemma forEachField_split pre e post d c d' c' :
  forEachField (d, c) (pre ++ e :: post) = OK (d', c') →
  ∃ d1 c1 d2 c2,
    forEachField (d, c) pre = OK (d1, c1)
    ∧ syncField (d1, c1) e = OK (d2, c2)
    ∧ forEachField (d2, c2) post = OK (d', c').
Proof.
  rewrite forEachField_app. intros H.
  apply bind_OK in H as ([d1 c1] & Hpre & H). simpl in H.
  apply bind_OK in H as ([d2 c2] & He & H).
  by exists d1, c1, d2, c2.
Qed.

(** A list splits at the last of its elements that satisfies [P]. *)
Lemma last_filter_split (P : element → Prop) `{∀ e, Decision (P e)} els e :
  last (filter P els) = Some e →
  ∃ pre post, els = pre ++ e :: post ∧ P e ∧ Forall (λ x, ¬ P x) post.
Proof.
  induction els as [|x els IH]; [done|].
  rewrite filter_cons. destruct (decide (P x)) as [Hx|Hx].
  - rewrite last_cons. destruct (last (filter P els)) as [e'|] eqn:El.
    + intros [= ->]. destruct (IH eq_refl) as (pre & post & -> & He & Hpost).
      by exists (x :: pre), post.
    + intros [= <-]. exists [], els. split; [done|]. split; [done|].
      apply Forall_forall. intros y Hy Py.
      assert (y ∈ filter P els) as Hin by (by apply list_elem_of_filter).
      destruct (filter P els); [by apply elem_of_nil in Hin|].
      by rewrite last_cons in El; destruct (last l).
  - intros Hl. destruct (IH Hl) as (pre & post & -> & He & Hpost).
    by exists (x :: pre), post.
Qed.

Lemma last_filter_none (P : element → Prop) `{∀ e, Decision (P e)} els :
  last (filter P els) = None → Forall (λ x, ¬ P x) els.
Proof.
  intros Hl. apply Forall_forall. intros y Hy Py.
  assert (y ∈ filter P els) as Hin by (by apply list_elem_of_filter).
  destruct (filter P els) as [|z l]; [by apply elem_of_nil in Hin|].
  by rewrite last_cons in Hl; destruct (last l).
Qed.

(** The last located element naming a flat field decides what it holds. *)
Lemma scan_last_flat f pre e post d c d' c' :
  namesFlat f e → f ≠ [] → f ≠ kProto →
  Forall (λ x, ¬ namesFlat f x) post →
  forEachField (d, c) (pre ++ e :: post) = OK (d', c') →
  d' !! f = Some (TStr (innerText e)).
Proof.
  intros [Hi <-] Hne Hproto Hpost Hscan.
  apply forEachField_split in Hscan as (d1 & c1 & d2 & c2 & _ & He & Hscan).
  rewrite syncField_top in He by done.
  assert (d2 !! dataField e = Some (TStr (innerText e))) as Hd2.
  { case_bool_decide as Heq; injection He as <- <-; [done|].
    rewrite setProp_plain by done. apply lookup_insert_eq. }
  rewrite Forall_forall in Hpost.
  apply (forEachField_invariant (λ nd, nd !! dataField e = Some (TStr (innerText e))))
    in Hscan; [done..|].
  intros e' nd1 nd2 Hin HP Hw.
  destruct Hw as [Hi' Hne' Hdiff|kind i l sec Ht Hne' Hl Hsec Hdiff].
  - rewrite setProp_lookup_ne; [done|].
    intros Heq. by apply (Hpost e' Hin).
  - rewrite lookup_insert_ne; [done|]. intros Heq. rewrite Heq, HP in Hl. done.
Qed.

(** A flat field that no located element names stays as it is. *)
Lemma scan_untouched_flat f els d c d' c' :
  (∀ kind, f ≠ listKey kind) →
  Forall (λ x, ¬ namesFlat f x ∨ f = []) els →
  forEachField (d, c) els = OK (d', c') → d' !! f = d !! f.
Proof.
  intros Hf Hels Hscan. rewrite Forall_forall in Hels.
  apply (forEachField_invariant (λ nd, nd !! f = d !! f)) in Hscan; [done..|].
  intros e nd1 nd2 Hin HP Hw.
  destruct Hw as [Hi Hne Hdiff|kind i l sec Ht Hne Hl Hsec Hdiff].
  - rewrite setProp_lookup_ne; [done|]. intros Heq.
    destruct (Hels e Hin) as [Hn| ->]; [by apply Hn|done].
  - rewrite lookup_insert_ne; [done|]. intros Heq. by apply (Hf kind).
Qed.

(** The entry at a position of a list stays a section object. *)
Lemma scan_keeps_object els d c d' c' kind l i sec :
  forEachField (d, c) els = OK (d', c') →
  d !! listKey kind = Some (TArr l) → l !! i = Some (EObj sec) →
  Forall (λ x, ¬ namesList kind x) els →
  ∃ l' sec', d' !! listKey kind = Some (TArr l') ∧ length l' = length l
             ∧ l' !! i = Some (EObj sec').
Proof.
  intros Hscan Hl Hsec Htop. rewrite Forall_forall in Htop.
  destruct (sync_section_length _ _ _ _ _ kind l Hscan Hl) as (l' & Hl' & Hlen & Hobj).
  { intros e' Hin Hi' Heq. by apply (Htop e' Hin). }
  assert (is_Some (l' !! i ≫= λ x, match x with EObj o => Some o | _ => None end)) as [s Hs].
  { apply Hobj. rewrite Hsec. by eexists. }
  destruct (l' !! i) as [[p|sec']|] eqn:E; try done. by exists l', sec'.
Qed.

(** The last located element addressing a section and naming a field
    decides what the field holds. *)
Lemma scan_last_section kind i f pre e post d c d' c' l sec :
  namesField kind i f e → f ≠ [] → f ≠ kProto →
  Forall (λ x, ¬ namesField kind i f x) post →
  Forall (λ x, ¬ namesList kind x) (pre ++ post) →
  d !! listKey kind = Some (TArr l) → l !! i = Some (EObj sec) →
  forEachField (d, c) (pre ++ e :: post) = OK (d', c') →
  ∃ l' sec', d' !! listKey kind = Some (TArr l')
             ∧ l' !! i = Some (EObj sec')
             ∧ sec' !! f = Some (FStr (innerText e)).
Proof.
  intros [Ht <-] Hne Hproto Hpost Htop Hl Hsec Hscan.
  apply Forall_app in Htop as [Htop_pre Htop_post].
  apply forEachField_split in Hscan as (d1 & c1 & d2 & c2 & Hpre & He & Hscan).
  destruct (scan_keeps_object _ _ _ _ _ kind l i sec Hpre Hl Hsec Htop_pre)
    as (l1 & sec1 & Hl1 & _ & Hsec1).
  rewrite Forall_forall in Hpost, Htop_post.
  rewrite (syncField_section _ _ _ kind i l1 sec1 Ht Hne Hl1 Hsec1) in He.
  assert (∃ l2 sec2, d2 !! listKey kind = Some (TArr l2) ∧ l2 !! i = Some (EObj sec2)
                     ∧ sec2 !! dataField e = Some (FStr (innerText e))) as Hd2.
  { case_bool_decide as Heq; injection He as <- <-; [by exists l1, sec1|].
    eexists _, _. rewrite lookup_insert_eq. split; [done|].
    rewrite list_lookup_insert_eq by (by eapply lookup_lt_Some). split; [done|].
    rewrite setProp_plain by done. apply lookup_insert_eq. }
  apply (forEachField_invariant
           (λ nd, ∃ l2 sec2, nd !! listKey kind = Some (TArr l2) ∧ l2 !! i = Some (EObj sec2)
                             ∧ sec2 !! dataField e = Some (FStr (innerText e))))
    in Hscan; [done..|].
  intros e' nd1 nd2 Hin (l2 & sec2 & Hl2 & Hsec2 & Hv) Hw.
  destruct Hw as [Hi' Hne' Hdiff|kind' j l3 sec3 Ht' Hne' Hl3 Hsec3 Hdiff].
  - exists l2, sec2. rewrite setProp_lookup_ne; [done|].
    intros Heq. by apply (Htop_post e' Hin).
  - destruct (decide (kind' = kind)) as [->|Hk].
    + rewrite Hl2 in Hl3. injection Hl3 as <-. rewrite lookup_insert_eq.
      destruct (decide (j = i)) as [->|Hji].
      * rewrite Hsec2 in Hsec3. injection Hsec3 as <-.
        eexists _, _. split; [done|].
        rewrite list_lookup_insert_eq by (by eapply lookup_lt_Some). split; [done|].
        rewrite setProp_lookup_ne; [done|].
        intros Heq. by apply (Hpost e' Hin).
      * eexists _, sec2. split; [done|]. by rewrite list_lookup_insert_ne.
    + exists l2, sec2. rewrite lookup_insert_ne; [done|].
      intros Heq. by apply listKey_inj in Heq.
Qed.

(** A field of a section object that no located element names stays as it
    is. *)
Lemma scan_untouched_section kind i f els d c d' c' l sec :
  Forall (λ x, ¬ namesField kind i f x ∨ f = []) els →
  Forall (λ x, ¬ namesList kind x) els →
  d !! listKey kind = Some (TArr l) → l !! i = Some (EObj sec) →
  forEachField (d, c) els = OK (d', c') →
  ∃ l' sec', d' !! listKey kind = Some (TArr l')
             ∧ l' !! i = Some (EObj sec')
             ∧ sec' !! f = sec !! f.
Proof.
  intros Hels Htop Hl Hsec Hscan. rewrite Forall_forall in Hels, Htop.
  apply (forEachField_invariant
           (λ nd, ∃ l2 sec2, nd !! listKey kind = Some (TArr l2) ∧ l2 !! i = Some (EObj sec2)
                             ∧ sec2 !! f = sec !! f))
    in Hscan; [done|by exists l, sec|].
  intros e' nd1 nd2 Hin (l2 & sec2 & Hl2 & Hsec2 & Hv) Hw.
  destruct Hw as [Hi' Hne' Hdiff|kind' j l3 sec3 Ht' Hne' Hl3 Hsec3 Hdiff].
  - exists l2, sec2. rewrite setProp_lookup_ne; [done|].
    intros Heq. by apply (Htop e' Hin).
  - destruct (decide (kind' = kind)) as [->|Hk].
    + rewrite Hl2 in Hl3. injection Hl3 as <-. rewrite lookup_insert_eq.
      destruct (decide (j = i)) as [->|Hji].
      * rewrite Hsec2 in Hsec3. injection Hsec3 as <-.
        eexists _, _. split; [done|].
        rewrite list_lookup_insert_eq by (by eapply lookup_lt_Some). split; [done|].
        rewrite setProp_lookup_ne; [done|]. intros Heq.
        destruct (Hels e' Hin) as [Hn| ->]; [by apply Hn|done].
      * eexists _, sec2. split; [done|]. by rewrite list_lookup_insert_ne.
    + exists l2, sec2. rewrite lookup_insert_ne; [done|].
      intros Heq. by apply listKey_inj in Heq.
Qed.

(** What a flat field holds after the scan, and what a field of a section
    object holds. *)
Lemma scan_flat f els d c d' c' :
  f ≠ [] → f ≠ kProto → (∀ kind, f ≠ listKey kind) →
  forEachField (d, c) els = OK (d', c') →
  d' !! f = match lastText (namesFlat f) els with
            | Some text => Some (TStr text)
            | None => d !! f
            end.
Proof.
  intros Hne Hproto Hlist Hscan. unfold lastText.
  destruct (last (filter (namesFlat f) els)) as [e|] eqn:El; simpl.
  - apply last_filter_split in El as (pre & post & -> & He & Hpost).
    by eapply scan_last_flat.
  - apply last_filter_none in El. eapply scan_untouched_flat; [done| |done].
    eapply Forall_impl; [exact El|]. by left.
Qed.

Lemma scan_section kind i f els d c d' c' l sec :
  f ≠ [] → f ≠ kProto →
  Forall (λ x, ¬ namesList kind x) els →
  d !! listKey kind = Some (TArr l) → l !! i = Some (EObj sec) →
  forEachField (d, c) els = OK (d', c') →
  ∃ l' sec', d' !! listKey kind = Some (TArr l')
             ∧ l' !! i = Some (EObj sec')
             ∧ sec' !! f = match lastText (namesField kind i f) els with
                           | Some text => Some (FStr text)
                           | None => sec !! f
                           end.
Proof.
  intros Hne Hproto Htop Hl Hsec Hscan. unfold lastText.
  destruct (last (filter (namesField kind i f) els)) as [e|] eqn:El; simpl.
  - apply last_filter_split in El as (pre & post & -> & He & Hpost).
    apply (scan_last_section kind i f pre e post d c d' c' l sec He Hne Hproto Hpost);
      [|done..].
    apply Forall_app in Htop as [Hpre Hpost']. apply Forall_app. split; [done|].
    by apply Forall_cons in Hpost' as [_ ?].
  - apply last_filter_none in El.
    apply (scan_untouched_section kind i f els d c d' c' l sec); [|done..].
    eapply Forall_impl; [exact El|]. by left.
Qed.

End EditFacts.

(** X3.  Typing a text into a rendered span and typing it into the form
    input of the same field make the same record.  For a flat field the
    edit handed to [handlePreviewEdit] gives what [handleChange] gives; for
    a field of a section the span rendered for kind [kind] and position [i]
    gives what [handleAcademicChange] or [handlePerformanceSummaryChange]
    gives at position [i]: the position printed by [editableSpan] is the
    one [parseInt] reads back. *)
Theorem span_edit_is_form_edit (data : PlaafpData) (name value : jsstring) :
  name ≠ [] → name ≠ kProto →
  (∃ o, handlePreviewEdit [Element name None None value] data = OK o
        ∧ commit data o = handleChange name value data)
  ∧ ∀ kind i l sec,
      data !! listKey kind = Some (TArr l) → l !! i = Some (EObj sec) →
      ∃ o, handlePreviewEdit
             [Element name (Some (numToString (N.of_nat i))) (Some (kindName kind)) value]
             data = OK o
           ∧ handleSectionChange kind i name value data = OK (commit data o).
Proof.
  intros Hne Hproto. split.
  - unfold handlePreviewEdit, handleChange. simpl.
    rewrite syncField_top by done. simpl.
    case_bool_decide as Heq; simpl; eexists; (split; [done|]); simpl.
    + symmetry. by apply insert_id.
    + by apply setProp_plain.
  - intros kind i l sec Hl Hsec.
    unfold handlePreviewEdit, handleSectionChange. simpl.
    rewrite (syncField_section _ _ _ kind i l sec (targets_printed _ _ _ _) Hne Hl Hsec).
    rewrite Hl. simpl. rewrite Hsec. simpl.
    case_bool_decide as Heq; simpl; eexists; (split; [done|]); simpl.
    + f_equal. rewrite (insert_id sec) by done. rewrite list_insert_id by done.
      by rewrite insert_id.
    + by rewrite setProp_plain.
Qed.

Lemma span_edit_is_form_edit_witness :
  (∃ o, handlePreviewEdit [Element (u "grade") None None (u "5")] oneAcademic = OK o
        ∧ commit oneAcademic o = handleChange (u "grade") (u "5") oneAcademic)
  ∧ ∃ o, handlePreviewEdit markupSubjectEdit oneAcademic = OK o
         ∧ handleSectionChange academic 0 (u "subject") (u "Math") oneAcademic
           = OK (commit oneAcademic o).
Proof.
  destruct (span_edit_is_form_edit oneAcademic (u "grade") (u "5")) as [Hflat _];
    [by_computation|by_computation|].
  destruct (span_edit_is_form_edit oneAcademic (u "subject") (u "Math")) as [_ Hsec];
    [by_computation|by_computation|].
  split; [exact Hflat|].
  apply (Hsec academic 0%nat [EObj (newSection academic 1700000000000)]
              (newSection academic 1700000000000)).
  - apply lookup_insert_eq.
  - reflexivity.
Defined.

(** X4.  What a flat field holds after a preview edit.  For a property
    name that is not empty, not [__proto__] and not one of the two lists:
    when located elements without index name it, the field ends with the
    text of the last of them in document order, whatever it held and
    whatever the earlier ones say; when none names it, it ends as it
    was. *)
Theorem flat_field_takes_last_text (f : jsstring) (fields : list element)
    (data : PlaafpData) (o : outcome) :
  f ≠ [] → f ≠ kProto → (∀ kind, f ≠ listKey kind) →
  handlePreviewEdit fields data = OK o →
  commit data o !! f = match lastText (namesFlat f) fields with
                       | Some text => Some (TStr text)
                       | None => data !! f
                       end.
Proof.
  intros Hne Hproto Hlist Hedit.
  apply handlePreviewEdit_scan in Hedit as (c & Hscan & _).
  by eapply scan_flat.
Qed.

Lemma flat_field_takes_last_text_witness :
  lastText (namesFlat (u "grade")) markupGradeTwice = Some (u "5")
  ∧ commit initialPlaafpData (editOutcome markupGradeTwice initialPlaafpData) !! u "grade"
    = match lastText (namesFlat (u "grade")) markupGradeTwice with
      | Some text => Some (TStr text)
      | None => initialPlaafpData !! u "grade"
      end.
Proof.
  split; [by_computation|].
  apply (flat_field_takes_last_text (u "grade") markupGradeTwice initialPlaafpData).
  - by_computation.
  - by_computation.
  - intros kind. destruct kind; by_computation.
  - by_computation.
Defined.

(** X5.  The same for a field of a section object, in a markup in which no
    top-level locator names the list: the field ends with the text of the
    last located element that addresses the section (by kind and position)
    and names the field, or as it was when there is none; the entry stays
    a section object at its position. *)
Theorem section_field_takes_last_text (kind : sectionKind) (i : nat) (f : jsstring)
    (fields : list element) (data : PlaafpData) (l : list elem) (sec : section)
    (o : outcome) :
  f ≠ [] → f ≠ kProto →
  Forall (λ x, ¬ namesList kind x) fields →
  data !! listKey kind = Some (TArr l) → l !! i = Some (EObj sec) →
  handlePreviewEdit fields data = OK o →
  ∃ l' sec', commit data o !! listKey kind = Some (TArr l')
             ∧ l' !! i = Some (EObj sec')
             ∧ sec' !! f = match lastText (namesField kind i f) fields with
                           | Some text => Some (FStr text)
                           | None => sec !! f
                           end.
Proof.
  intros Hne Hproto Htop Hl Hsec Hedit.
  apply handlePreviewEdit_scan in Hedit as (c & Hscan & _).
  by eapply scan_section.
Qed.

Lemma section_field_takes_last_text_witness :
  lastText (namesField academic 0 (u "subject")) markupSubjectTwice = Some (u "Math")
  ∧ ∃ l' sec',
      commit oneAcademic (editOutcome markupSubjectTwice oneAcademic) !! listKey academic
      = Some (TArr l')
      ∧ l' !! 0%nat = Some (EObj sec')
      ∧ sec' !! u "subject"
        = match lastText (namesField academic 0 (u "subject")) markupSubjectTwice with
          | Some text => Some (FStr text)
          | None => newSection academic 1700000000000 !! u "subject"
          end.
Proof.
  split; [by_computation|].
  apply (section_field_takes_last_text academic 0 (u "subject") markupSubjectTwice
           oneAcademic [EObj (newSection academic 1700000000000)]).
  - by_computation.
  - by_computation.
  - by_computation.
  - apply lookup_insert_eq.
  - reflexivity.
  - by_computation.
Defined.

(** X6.  Handing the same markup to [handlePreviewEdit] a second time
    changes nothing.  On a record whose two lists hold section objects, and
    for a markup in which no located element names a list at top level or
    names [__proto__], the second edit returns, and the record after it is
    the record after the first. *)
Theorem preview_edit_is_idempotent (data : PlaafpData) (fields : list element)
    (o : outcome) :
  (∀ kind, ∃ l, data !! listKey kind = Some (TArr l) ∧ Forall (λ x, ∃ sec, x = EObj sec) l) →
  Forall (λ e, (∀ kind, ¬ namesList kind e) ∧ dataField e ≠ kProto) fields →
  handlePreviewEdit fields data = OK o →
  ∃ o', handlePreviewEdit fields (commit data o) = OK o'
        ∧ commit (commit data o) o' = commit data o.
Proof.
  intros Hlists Hels Hedit.
  assert (∀ kind, Forall (λ x, ¬ namesList kind x) fields) as Htop.
  { intros kind. eapply Forall_impl; [exact Hels|]. intros e [He _]. apply He. }
  assert (∀ e, e ∈ fields → dataField e ≠ kProto) as Hproto.
  { rewrite Forall_forall in Hels. intros e He. by destruct (Hels e He). }
  apply handlePreviewEdit_scan in Hedit as (c1 & Hscan1 & _).
  set (d1 := commit data o) in *. clearbody d1.
  (* the lists of [d1] hold section objects, at the positions of [data] *)
  assert (∀ kind, ∃ l l1, data !! listKey kind = Some (TArr l)
                          ∧ d1 !! listKey kind = Some (TArr l1)
                          ∧ length l1 = length l
                          ∧ ∀ i x1, l1 !! i = Some x1 →
                              ∃ sec sec1, l !! i = Some (EObj sec) ∧ x1 = EObj sec1) as Hd1.
  { intros kind. destruct (Hlists kind) as (l & Hl & Hobj). rewrite Forall_lookup in Hobj.
    destruct (sync_section_length _ _ _ _ _ kind l Hscan1 Hl) as (l1 & Hl1 & Hlen & _).
    { intros e' Hin Hi' Heq. pose proof (Htop kind) as H. rewrite Forall_forall in H.
      by apply (H e' Hin). }
    exists l, l1. split; [done|]. split; [done|]. split; [done|].
    intros i x1 Hx1.
    assert (is_Some (l !! i)) as [x Hx].
    { apply lookup_lt_is_Some. rewrite <- Hlen. by eapply lookup_lt_Some. }
    destruct (Hobj i x Hx) as [sec ->].
    destruct (scan_keeps_object _ _ _ _ _ kind l i sec Hscan1 Hl Hx (Htop kind))
      as (l1' & sec1 & Hl1' & _ & Hsec1).
    rewrite Hl1 in Hl1'. injection Hl1' as <-. rewrite Hx1 in Hsec1. injection Hsec1 as ->.
    by exists sec, sec1. }
  destruct (preview_edit_total d1 fields) as [o' Hedit2].
  { intros kind. destruct (Hd1 kind) as (l & l1 & _ & Hl1 & _ & Hobj).
    exists l1. split; [done|]. apply Forall_lookup. intros i x1 Hx1.
    destruct (Hobj i x1 Hx1) as (_ & sec1 & _ & ->). by eexists. }
  { eapply Forall_impl; [exact Hels|]. intros e [He _]. apply He. }
  exists o'. split; [done|].
  apply handlePreviewEdit_scan in Hedit2 as (c2 & Hscan2 & _).
  set (d2 := commit d1 o') in *. clearbody d2.
  apply map_eq. intros k.
  assert ((∃ kind, k = listKey kind) ∨ ∀ kind, k ≠ listKey kind) as [[kind ->]|Hk].
  { destruct (decide (k = listKey academic)) as [->|Ha]; [left; by eexists|].
    destruct (decide (k = listKey summary)) as [->|Hs]; [left; by eexists|].
    right. by intros []. }
  - (* one of the two lists *)
    destruct (Hd1 kind) as (l & l1 & Hl & Hl1 & Hlen & Hobj).
    destruct (sync_section_length _ _ _ _ _ kind l1 Hscan2 Hl1) as (l2 & Hl2 & Hlen2 & _).
    { intros e' Hin Hi' Heq. pose proof (Htop kind) as H. rewrite Forall_forall in H.
      by apply (H e' Hin). }
    rewrite Hl1, Hl2. do 2 f_equal. apply list_eq. intros i.
    destruct (l1 !! i) as [x1|] eqn:Hx1.
    + destruct (Hobj i x1 Hx1) as (sec & sec1 & Hsec & ->).
      destruct (scan_keeps_object _ _ _ _ _ kind l1 i sec1 Hscan2 Hl1 Hx1 (Htop kind))
        as (l2' & sec2 & Hl2' & _ & Hsec2).
      rewrite Hl2 in Hl2'. injection Hl2' as <-. rewrite Hsec2. do 2 f_equal.
      apply map_eq. intros f.
      destruct (last (filter (namesField kind i f) fields)) as [e|] eqn:El.
      * destruct (decide (f = [])) as [->|Hne].
        { destruct (scan_untouched_section kind i [] fields d1 false d2 c2 l1 sec1)
            as (l2' & sec2' & Hl2' & Hsec2' & Heq);
            [|exact (Htop kind)|exact Hl1|exact Hx1|exact Hscan2|].
          { apply Forall_forall. intros; by right. }
          rewrite Hl2 in Hl2'. injection Hl2' as <-.
          rewrite Hsec2 in Hsec2'. by injection Hsec2' as <-. }
        assert (f ≠ kProto) as Hp.
        { apply last_filter_split in El as (pre & post & Hsplit & [_ <-] & _).
          apply Hproto. rewrite Hsplit. apply elem_of_app. right. by left. }
        destruct (scan_section kind i f fields data false d1 c1 l sec Hne Hp (Htop kind)
                    Hl Hsec Hscan1) as (l1' & sec1' & Hl1' & Hsec1' & Hv1).
        destruct (scan_section kind i f fields d1 false d2 c2 l1 sec1 Hne Hp (Htop kind)
                    Hl1 Hx1 Hscan2) as (l2' & sec2' & Hl2' & Hsec2' & Hv2).
        rewrite Hl1 in Hl1'. injection Hl1' as <-.
        rewrite Hx1 in Hsec1'. injection Hsec1' as <-.
        rewrite Hl2 in Hl2'. injection Hl2' as <-.
        rewrite Hsec2 in Hsec2'. injection Hsec2' as <-.
        unfold lastText in Hv1, Hv2. rewrite El in Hv1, Hv2. simpl in Hv1, Hv2.
        by rewrite Hv1, Hv2.
      * apply last_filter_none in El.
        destruct (scan_untouched_section kind i f fields d1 false d2 c2 l1 sec1)
          as (l2' & sec2' & Hl2' & Hsec2' & Heq);
          [|exact (Htop kind)|exact Hl1|exact Hx1|exact Hscan2|].
        { eapply Forall_impl; [exact El|]. by left. }
        rewrite Hl2 in Hl2'. injection Hl2' as <-.
        rewrite Hsec2 in Hsec2'. by injection Hsec2' as <-.
    + apply lookup_ge_None. rewrite Hlen2. by apply lookup_ge_None.
  - (* any other property *)
    destruct (last (filter (namesFlat k) fields)) as [e|] eqn:El.
    + destruct (decide (k = [])) as [->|Hne].
      { eapply scan_untouched_flat; [done| |done]. apply Forall_forall. intros; by right. }
      assert (k ≠ kProto) as Hp.
      { apply last_filter_split in El as (pre & post & Hsplit & [_ <-] & _).
        apply Hproto. rewrite Hsplit. apply elem_of_app. right. by left. }
      rewrite (scan_flat k fields d1 false d2 c2 Hne Hp Hk Hscan2).
      rewrite (scan_flat k fields data false d1 c1 Hne Hp Hk Hscan1).
      unfold lastText. by rewrite El.
    + apply last_filter_none in El.
      eapply scan_untouched_flat; [done| |done].
      eapply Forall_impl; [exact El|]. by left.
Qed.

Lemma preview_edit_is_idempotent_witness :
  handlePreviewEdit markupSubjectTwice oneAcademic
  = OK (editOutcome markupSubjectTwice oneAcademic)
  ∧ ∃ o', handlePreviewEdit markupSubjectTwice
            (commit oneAcademic (editOutcome markupSubjectTwice oneAcademic)) = OK o'
          ∧ commit (commit oneAcademic (editOutcome markupSubjectTwice oneAcademic)) o'
            = commit oneAcademic (editOutcome markupSubjectTwice oneAcademic).
Proof.
  assert (handlePreviewEdit markupSubjectTwice oneAcademic
          = OK (editOutcome markupSubjectTwice oneAcademic)) as H by by_computation.
  split; [exact H|].
  apply (preview_edit_is_idempotent oneAcademic markupSubjectTwice).
  - intros kind. destruct kind.
    + exists [EObj (newSection academic 1700000000000)].
      split; [apply lookup_insert_eq|]. repeat constructor. by eexists.
    + exists []. split; [by_computation|constructor].
  - repeat constructor; try by_computation;
      intros kind [Hi Hf]; destruct kind; vm_compute in Hi, Hf; discriminate.
  - exact H.
Defined.

(** ** Rendering never throws on the records reached in use *)

Section RenderTotal.

Implicit Types (d : PlaafpData) (kind : sectionKind).

Lemma template_total ps :
  Forall (λ p, ∃ n, p = OK n) ps → ∃ ns, template ps = OK ns.
Proof.
  induction 1 as [|p ps [n ->] _ [ns IH]]; simpl; [by eexists|].
  rewrite IH. by eexists.
Qed.

Lemma forEachFrom_total {A B} (f : A → nat → res (list B)) start l :
  (∀ i x, l !! i = Some x → ∃ ys, f x (start + i) = OK ys) →
  ∃ zs, forEachFrom f start l = OK zs.
Proof.
  revert start. induction l as [|x l IH]; intros start Hf; simpl; [by eexists|].
  destruct (Hf 0 x eq_refl) as [ys Hys]. rewrite Nat.add_0_r in Hys. rewrite Hys. simpl.
  destruct (IH (S start)) as [zs Hzs].
  { intros i x' Hi. rewrite Nat.add_succ_l, <- Nat.add_succ_r. by apply (Hf (S i)). }
  rewrite Hzs. by eexists.
Qed.

Lemma getStr_flat d k :
  renderable d → (∀ kind, k ≠ listKey kind) → ∃ v, getStr d k = OK v.
Proof.
  intros [Hflat _] Hk. unfold getStr.
  destruct (d !! k) as [[s|l]|] eqn:E; [by eexists| |by eexists].
  destruct (Hflat k l E) as [kind ->]. by destruct (Hk kind).
Qed.

Lemma fillSpan_total d f p :
  renderable d → (∀ kind, u f ≠ listKey kind) → ∃ n, fillSpan d f p = OK n.
Proof.
  intros Hd Hk. destruct (getStr_flat d (u f) Hd Hk) as [v Hv].
  unfold fillSpan. rewrite Hv. by eexists.
Qed.

Lemma deficitTypePiece_total d : renderable d → ∃ n, deficitTypePiece d = OK n.
Proof.
  intros Hd. destruct (getStr_flat d (u "deficitType") Hd) as [v Hv].
  { intros kind. destruct kind; by_computation. }
  unfold deficitTypePiece. rewrite Hv. by eexists.
Qed.

Lemma secStr_shown kind x f :
  sectionShown kind x → f ∈ sectionFormFields kind → ∃ s, secStr x f = OK (Some s).
Proof.
  intros (o & -> & Ho) Hf. destruct (Ho f Hf) as [s Hs].
  exists s. unfold secStr. by rewrite Hs.
Qed.

Lemma secSpan_total kind x i f p :
  sectionShown kind x → u f ∈ sectionFormFields kind → ∃ n, secSpan kind x i f p = OK n.
Proof.
  intros Hx Hf. destruct (secStr_shown kind x (u f) Hx Hf) as [s Hs].
  unfold secSpan. rewrite Hs. by eexists.
Qed.

End RenderTotal.

(** Settles one piece of a template: it does not throw. *)
Ltac piece_total Hd Hx :=
  lazymatch goal with
  | |- ∃ n, fillSpan _ _ _ = OK n =>
      apply (fillSpan_total _ _ _ Hd);
      let kind := fresh "kind" in intros kind; destruct kind; by_computation
  | |- ∃ n, deficitTypePiece _ = OK n => exact (deficitTypePiece_total _ Hd)
  | |- ∃ n, secSpan _ _ _ _ _ = OK n => apply (secSpan_total _ _ _ _ _ Hx); by_computation
  | |- _ => eexists; reflexivity
  end.

Section RenderTotalParts.

Variable d : PlaafpData.
Hypothesis Hd : renderable d.

Lemma introParts_total rawName studentName : ∃ ns, introParts d rawName studentName = OK ns.
Proof.
  unfold introParts. apply template_total.
  repeat (apply List.Forall_cons; [piece_total Hd I|]). apply List.Forall_nil.
Qed.

Lemma functionalParts_total rawName studentName :
  ∃ ns, functionalParts d rawName studentName = OK ns.
Proof.
  unfold functionalParts. apply template_total.
  repeat (apply List.Forall_cons; [piece_total Hd I|]). apply List.Forall_nil.
Qed.

Lemma transitionParts_total studentName parentName :
  ∃ ns, transitionParts d studentName parentName = OK ns.
Proof.
  unfold transitionParts. apply template_total.
  repeat (apply List.Forall_cons; [piece_total Hd I|]). apply List.Forall_nil.
Qed.

Lemma academicParts_total rawName studentName x i :
  sectionShown academic x → ∃ ns, academicParts rawName studentName x i = OK ns.
Proof.
  intros Hx. unfold academicParts. cbv zeta.
  destruct (secStr_shown academic x (u "subject") Hx) as [s Hs]; [by_computation|].
  rewrite Hs, res_bind_OK. apply template_total.
  repeat (apply List.Forall_cons; [piece_total Hd Hx|]). apply List.Forall_nil.
Qed.

Lemma summaryParts_total rawName studentName x i :
  sectionShown summary x → ∃ ns, summaryParts rawName studentName x i = OK ns.
Proof.
  intros Hx. unfold summaryParts. cbv zeta.
  destruct (secStr_shown summary x (u "subject") Hx) as [s Hs]; [by_computation|].
  rewrite Hs. apply template_total.
  repeat (apply List.Forall_cons; [piece_total Hd Hx|]). apply List.Forall_nil.
Qed.

Lemma renderable_renders : ∃ parts, generatePreviewParts d = OK parts.
Proof.
  unfold generatePreviewParts.
  destruct (getStr_flat d (u "studentName") Hd) as [rawName ->].
  { intros kind. destruct kind; by_computation. }
  destruct (getStr_flat d (u "parentName") Hd) as [rawParent ->].
  { intros kind. destruct kind; by_computation. }
  rewrite !res_bind_OK. cbv zeta.
  destruct (introParts_total rawName (orElse rawName (u "______ (student name)")))
    as [intro ->].
  rewrite res_bind_OK.
  destruct Hd as [_ Hlists].
  destruct (Hlists academic) as (la & Hla & Hsa).
  destruct (Hlists summary) as (ls & Hls & Hss).
  assert (∃ acad, academicBlocks d rawName (orElse rawName (u "______ (student name)"))
                  = OK acad) as [acad ->].
  { unfold academicBlocks. change kAcademicSections with (listKey academic). rewrite Hla.
    apply forEachFrom_total. intros i x Hi. apply academicParts_total.
    by eapply Forall_lookup_1. }
  rewrite res_bind_OK.
  destruct (functionalParts_total rawName (orElse rawName (u "______ (student name)")))
    as [func ->].
  rewrite res_bind_OK.
  destruct (transitionParts_total (orElse rawName (u "______ (student name)"))
              (orElse rawParent (u "______ (parent name)"))) as [trans ->].
  rewrite res_bind_OK.
  assert (∃ summ, summaryBlocks d rawName (orElse rawName (u "______ (student name)"))
                  = OK summ) as [summ ->].
  { unfold summaryBlocks. change kPerformanceSummarySections with (listKey summary).
    rewrite Hls. destruct ls as [|x ls]; [by eexists|].
    destruct (forEachFrom_total
                (summaryParts rawName (orElse rawName (u "______ (student name)")))
                0 (x :: ls)) as [blocks ->]; [|by eexists].
    intros i x' Hi. apply summaryParts_total. by eapply Forall_lookup_1. }
  by eexists.
Qed.

End RenderTotalParts.

Section RenderableKept.

Implicit Types (d : PlaafpData) (kind : sectionKind).

Lemma renderable_initial : renderable initialPlaafpData.
Proof.
  split.
  - intros k l. unfold initialPlaafpData.
    destruct (decide (k = kAcademicSections)) as [->|Ha]; [by exists academic|].
    destruct (decide (k = kPerformanceSummarySections)) as [->|Hs]; [by exists summary|].
    rewrite !lookup_insert_ne by done. intros H.
    apply elem_of_list_to_map_2, list_elem_of_fmap in H as (k' & Heq & _). done.
  - intros kind. exists []. split; [|constructor]. destruct kind; by_computation.
Qed.

Lemma newSection_empty kind now f :
  f ∈ sectionFormFields kind → newSection kind now !! f = Some (FStr []).
Proof.
  intros Hf.
  destruct kind; vm_compute in Hf;
    repeat (apply elem_of_cons in Hf as [->|Hf]);
    try (by apply elem_of_nil in Hf); by_computation.
Qed.

Lemma newSection_shown kind now : sectionShown kind (EObj (newSection kind now)).
Proof.
  eexists. split; [done|]. intros f Hf. exists []. by apply newSection_empty.
Qed.

Lemma renderable_change d name value :
  renderable d → name ∈ flatFields → renderable (handleChange name value d).
Proof.
  intros [Hflat Hlists] Hname. unfold handleChange.
  assert (∀ kind, name ≠ listKey kind) as Hne.
  { intros kind ->. by apply (listKey_not_flat kind). }
  split.
  - intros k l. destruct (decide (k = name)) as [->|Hk].
    + by rewrite lookup_insert_eq.
    + rewrite lookup_insert_ne by done. apply Hflat.
  - intros kind. rewrite lookup_insert_ne by apply Hne. apply Hlists.
Qed.

(** Replacing the list of one kind by a list of sections that can be
    shown. *)
Lemma renderable_list d kind l :
  renderable d → Forall (sectionShown kind) l →
  renderable (<[listKey kind := TArr l]> d).
Proof.
  intros [Hflat Hlists] Hl. split.
  - intros k l'. destruct (decide (k = listKey kind)) as [->|Hk]; [by exists kind|].
    rewrite lookup_insert_ne by done. apply Hflat.
  - intros kind'. destruct (decide (kind' = kind)) as [->|Hk].
    + exists l. by rewrite lookup_insert_eq.
    + rewrite lookup_insert_ne; [apply Hlists|].
      intros Heq. by apply listKey_inj in Heq.
Qed.

Lemma renderable_section_change d kind index name value o d' :
  renderable d → sectionAt d kind index = Some (EObj o) →
  handleSectionChange kind index name value d = OK d' → renderable d'.
Proof.
  intros Hd Ho. unfold sectionAt in Ho. unfold handleSectionChange.
  destruct (d !! listKey kind) as [[s|l]|] eqn:El; try done. simpl. rewrite Ho. simpl.
  intros [= <-]. apply renderable_list; [done|].
  destruct Hd as [_ Hlists]. destruct (Hlists kind) as (l' & Hl' & Hall).
  rewrite El in Hl'. injection Hl' as <-.
  apply Forall_insert; [done|].
  destruct (Forall_lookup_1 _ _ _ _ Hall Ho) as (o' & [= <-] & Hshown).
  eexists. split; [done|]. intros f Hf.
  destruct (decide (f = name)) as [->|Hne].
  - rewrite lookup_insert_eq. by eexists.
  - rewrite lookup_insert_ne by done. by apply Hshown.
Qed.

Lemma renderable_add d kind now d' :
  renderable d → handleAddSection kind now d = OK d' → renderable d'.
Proof.
  intros Hd. pose proof Hd as [_ Hlists]. destruct (Hlists kind) as (l & Hl & Hall).
  rewrite (handleAddSection_list _ _ _ _ Hl). intros [= <-].
  apply renderable_list; [done|]. apply Forall_app. split; [done|].
  constructor; [apply newSection_shown|constructor].
Qed.

Lemma renderable_write nd e nd' :
  renderable nd → (∀ kind, ¬ namesList kind e) → syncWrite nd e nd' → renderable nd'.
Proof.
  intros Hd Htop Hw.
  destruct Hw as [Hi Hne Hdiff|kind i l o Ht Hne Hl Ho Hdiff].
  - destruct Hd as [Hflat Hlists]. split.
    + intros k l. destruct (decide (dataField e = k)) as [<-|Hk].
      * destruct (setProp_lookup (dataField e) (TStr (innerText e)) nd) as [-> | ->];
          [apply Hflat|done].
      * rewrite setProp_lookup_ne by done. apply Hflat.
    + intros kind. rewrite setProp_lookup_ne; [apply Hlists|].
      intros Heq. by apply (Htop kind).
  - apply renderable_list; [done|].
    destruct Hd as [_ Hlists]. destruct (Hlists kind) as (l' & Hl' & Hall).
    rewrite Hl in Hl'. injection Hl' as <-.
    apply Forall_insert; [done|].
    destruct (Forall_lookup_1 _ _ _ _ Hall Ho) as (o' & [= <-] & Hshown).
    eexists. split; [done|]. intros f Hf.
    destruct (decide (dataField e = f)) as [<-|Hk].
    + destruct (setProp_lookup (dataField e) (FStr (innerText e)) o) as [-> | ->];
        [by apply Hshown|by eexists].
    + rewrite setProp_lookup_ne by done. by apply Hshown.
Qed.

Lemma renderable_edit d fields o :
  renderable d → Forall (λ e, ∀ kind, ¬ namesList kind e) fields →
  handlePreviewEdit fields d = OK o → renderable (commit d o).
Proof.
  intros Hd Htop Hedit. rewrite Forall_forall in Htop.
  apply handlePreviewEdit_scan in Hedit as (c & Hscan & _).
  apply (forEachField_invariant renderable) in Hscan; [done..|].
  intros e nd1 nd2 Hin HP Hw. eapply renderable_write; [exact HP| |exact Hw].
  by apply Htop.
Qed.

Lemma reachableInUse_renderable d : reachableInUse d → renderable d.
Proof.
  induction 1 as [|d name value _ IH Hname|d kind index name value o d' _ IH Ho _ Hc
                  |d kind now d' _ IH Hadd|d fields o _ IH Htop Hedit].
  - apply renderable_initial.
  - by apply renderable_change.
  - by eapply renderable_section_change.
  - by eapply renderable_add.
  - by apply (renderable_edit d fields).
Qed.

Lemma renderable_objects d kind :
  renderable d → ∃ l, d !! listKey kind = Some (TArr l) ∧ Forall (λ x, ∃ o, x = EObj o) l.
Proof.
  intros [_ Hlists]. destruct (Hlists kind) as (l & Hl & Hall).
  exists l. split; [done|]. eapply Forall_impl; [exact Hall|].
  intros x (o & -> & _). by eexists.
Qed.

End RenderableKept.

(** X7.  Rendering and reverse sync never throw in use.  Start from the
    empty record and apply, in any order, the form handlers (with the names
    and positions the forms pass) and preview edits whose markup has no
    top-level locator naming one of the two lists, the text of the located
    elements being arbitrary.  Then [generatePreviewHtml] returns a document
    for the record reached, and [handlePreviewEdit] returns for every such
    markup. *)
Theorem use_never_throws (data : PlaafpData) :
  reachableInUse data →
  (∃ html, generatePreviewHtml data = OK html)
  ∧ ∀ fields, Forall (λ e, ∀ kind, ¬ namesList kind e) fields →
              ∃ o, handlePreviewEdit fields data = OK o.
Proof.
  intros Hd%reachableInUse_renderable. split.
  - destruct (renderable_renders data Hd) as [parts Hparts].
    unfold generatePreviewHtml. rewrite Hparts. by eexists.
  - intros fields Htop. apply preview_edit_total; [|done].
    intros kind. by apply renderable_objects.
Qed.

Lemma use_never_throws_witness :
  reachableInUse oneAcademic
  ∧ (∃ html, generatePreviewHtml oneAcademic = OK html)
  ∧ ∀ fields, Forall (λ e, ∀ kind, ¬ namesList kind e) fields →
              ∃ o, handlePreviewEdit fields oneAcademic = OK o.
Proof.
  assert (reachableInUse oneAcademic) as H.
  { apply (use_add initialPlaafpData academic 1700000000000); [constructor|].
    by apply (handleAddSection_list academic _ _ []). }
  split; [exact H|]. exact (use_never_throws _ H).
Defined.

(** ** What the renderer reads, and the locators it writes *)

Section RenderReads.

Variables d d' : PlaafpData.
Hypothesis Hflat : ∀ k, k ∈ renderedFlatKeys → d' !! k = d !! k.

Lemma getStr_agree k : k ∈ renderedFlatKeys → getStr d' k = getStr d k.
Proof. intros Hk. unfold getStr. by rewrite (Hflat k Hk). Qed.

Lemma introParts_agree rawName studentName :
  introParts d' rawName studentName = introParts d rawName studentName.
Proof.
  unfold introParts, fillSpan, deficitTypePiece.
  rewrite !getStr_agree by by_computation. reflexivity.
Qed.

Lemma functionalParts_agree rawName studentName :
  functionalParts d' rawName studentName = functionalParts d rawName studentName.
Proof.
  unfold functionalParts, fillSpan.
  rewrite !getStr_agree by by_computation. reflexivity.
Qed.

Lemma transitionParts_agree studentName parentName :
  transitionParts d' studentName parentName = transitionParts d studentName parentName.
Proof.
  unfold transitionParts, fillSpan.
  rewrite !getStr_agree by by_computation. reflexivity.
Qed.

Lemma generatePreviewParts_agree :
  d' !! kAcademicSections = d !! kAcademicSections →
  d' !! kPerformanceSummarySections = d !! kPerformanceSummarySections →
  generatePreviewParts d' = generatePreviewParts d.
Proof.
  intros Ha Hs. unfold generatePreviewParts, academicBlocks, summaryBlocks.
  rewrite !getStr_agree by by_computation. rewrite Ha, Hs.
  destruct (getStr d (u "studentName")) as [rawName|]; [|done].
  destruct (getStr d (u "parentName")) as [rawParent|]; [|done].
  rewrite !res_bind_OK. cbv zeta.
  by rewrite introParts_agree, functionalParts_agree, transitionParts_agree.
Qed.

End RenderReads.

Lemma handleChange_agrees name value d :
  name ∉ renderedKeys → ∀ k, k ∈ renderedKeys → handleChange name value d !! k = d !! k.
Proof.
  intros Hname k Hk. unfold handleChange. apply lookup_insert_ne. by intros ->.
Qed.

(** The flat fields of the record that the document never shows. *)
Lemma unrenderedFlatFields_are :
  unrenderedFlatFields
  = map u [ "transitionIndependentLiving"; "transitionSchedules";
            "transitionResponsibility"; "transitionParticipation" ]%string.
Proof. by_computation. Qed.

(** X8.  The document depends on the record through the properties the
    renderer reads and through nothing else: two records that agree on the
    two section lists, on [deficitType] and on the 21 flat fields shown in
    spans render to the same document (or both throw).  So a change of any
    other property is never shown; among the flat fields these are
    [transitionIndependentLiving], [transitionSchedules],
    [transitionResponsibility] and [transitionParticipation], the first two
    of which have inputs in the form. *)
Theorem document_depends_on_rendered_keys (data data' : PlaafpData) :
  (∀ k, k ∈ renderedKeys → data' !! k = data !! k) →
  generatePreviewHtml data' = generatePreviewHtml data.
Proof.
  intros Hagree. unfold generatePreviewHtml.
  rewrite (generatePreviewParts_agree data data'); [done|..].
  - intros k Hk. apply Hagree. by do 2 right.
  - apply Hagree. by left.
  - apply Hagree. right. by left.
Qed.

Lemma document_depends_on_rendered_keys_witness :
  u "transitionSchedules" ∈ unrenderedFlatFields
  ∧ generatePreviewHtml
      (handleChange (u "transitionSchedules") (u "visual") initialPlaafpData)
    = generatePreviewHtml initialPlaafpData.
Proof.
  split; [by_computation|].
  apply document_depends_on_rendered_keys.
  apply handleChange_agrees. by_computation.
Defined.

Section RenderedLocators.

Lemma placeholderOf_fields table field p :
  placeholderOf table field = Some p → field ∈ (λ fp : string * string, u fp.1) <$> table.
Proof.
  induction table as [|[f q] table IH]; simpl; [done|].
  case_bool_decide as Heq; [intros _; rewrite <- Heq; by left|].
  intros H. right. by apply IH.
Qed.

Lemma renderedFlatFields_flat kind : listKey kind ∉ renderedFlatFields.
Proof. destruct kind; by_computation. Qed.

Lemma spanOrigin_locator d f v st idx :
  spanOrigin d (Span f v st idx) →
  rendererLocator (spanElement f v st idx)
  ∧ resolvesIn d (spanElement f v st idx)
  ∧ ∀ kind, ¬ namesList kind (spanElement f v st idx).
Proof.
  destruct st as [kind|], idx as [i|]; cbv beta iota delta [spanOrigin]; try done.
  - intros (sec & val & Hsec & _ & Hcase).
    assert (f ∈ sectionFormFields kind) as Hf.
    { destruct Hcase as [(p & Hp & _)|(-> & -> & _)]; [|by_computation].
      by apply placeholderOf_fields in Hp. }
    split; [|split].
    + unfold rendererLocator. simpl. destruct kind; [by left|by right].
    + right. exists kind, i, sec. split; [|done]. by apply spanElement_targets.
    + by intros kind' [? _].
  - intros (val & _ & Hcase).
    assert (f ∈ renderedFlatFields) as Hf.
    { destruct Hcase as [[-> _]|[[-> _]|(p & Hp & _)]].
      - by left.
      - right. by left.
      - right. right. by apply placeholderOf_fields in Hp. }
    split; [|split].
    + by split.
    + by left.
    + intros kind [_ Heq]. simpl in Heq. rewrite Heq in Hf.
      by apply (renderedFlatFields_flat kind).
Qed.

End RenderedLocators.

(** X9.  The locators the renderer writes are sound.  Every span of the
    document rendered for a record is written by [editableSpan] as the
    markup of an element that names a flat field shown in a span, or a
    field shown for a section of its kind together with a position,
    written in decimal, at which the list of that kind has an entry; none
    names one of the two lists.  And whenever the document is read back as
    the list of the elements of its spans ([locatedElements] answers: the
    deficit type, which is not escaped, holds no [<], and no value shown
    holds U+0000 or a carriage return), every located element is the
    element of such a span.  So the markup of the renderer, read back under
    that condition with whatever text typed into its spans, meets the
    condition of X7.  Nothing is said of a document whose deficit type
    brings markup of its own. *)
Theorem rendered_locators_are_sound (data : PlaafpData) (parts : list node) :
  generatePreviewParts data = OK parts →
  (∀ f v st idx, Span f v st idx ∈ parts →
     nodeHtml (Span f v st idx) = spanMarkup (spanElement f v st idx)
     ∧ occursIn (spanMarkup (spanElement f v st idx)) (joinParts parts)
     ∧ rendererLocator (spanElement f v st idx)
     ∧ resolvesIn data (spanElement f v st idx)
     ∧ ∀ kind, ¬ namesList kind (spanElement f v st idx))
  ∧ ∀ els, locatedElements parts = Some els →
      Forall (λ e, occursIn (spanMarkup e) (joinParts parts)
                   ∧ rendererLocator e ∧ resolvesIn data e
                   ∧ ∀ kind, ¬ namesList kind e) els.
Proof.
  intros Hparts.
  pose proof (rendered_spans_origin _ _ Hparts) as Horigin.
  rewrite Forall_forall in Horigin.
  assert (∀ f v st idx, Span f v st idx ∈ parts →
            occursIn (spanMarkup (spanElement f v st idx)) (joinParts parts)
            ∧ rendererLocator (spanElement f v st idx)
            ∧ resolvesIn data (spanElement f v st idx)
            ∧ ∀ kind, ¬ namesList kind (spanElement f v st idx)) as Hspan.
  { intros f v st idx Hin. split; [exact (span_written _ _ _ _ _ Hin)|].
    apply spanOrigin_locator. by apply Horigin. }
  split.
  - intros f v st idx Hin. split; [apply editableSpan_markup|by apply Hspan].
  - intros els Hels. apply Forall_forall. intros e He.
    destruct (locatedElements_elem _ _ _ Hels He) as (f & v & st & idx & Hin & ->).
    by apply Hspan.
Qed.

Lemma rendered_locators_are_sound_witness :
  generatePreviewParts recordJordan = OK (renderedParts recordJordan)
  ∧ locatedElements (renderedParts recordJordan) = Some markupOfJordan
  ∧ Forall (λ e, occursIn (spanMarkup e) (joinParts (renderedParts recordJordan))
                 ∧ rendererLocator e ∧ resolvesIn recordJordan e
                 ∧ ∀ kind, ¬ namesList kind e) markupOfJordan.
Proof.
  assert (generatePreviewParts recordJordan = OK (renderedParts recordJordan)) as Hrender
    by by_computation.
  assert (locatedElements (renderedParts recordJordan) = Some markupOfJordan) as Hels
    by by_computation.
  split; [exact Hrender|]. split; [exact Hels|].
  exact (proj2 (rendered_locators_are_sound _ _ Hrender) _ Hels).
Defined.

(** ** Adding a section, seen in the document *)

Section AddFacts.

Lemma forEachFrom_snoc {A B} (f : A → nat → res (list B)) start l x zs ys :
  forEachFrom f start l = OK zs → f x (start + length l) = OK ys →
  forEachFrom f start (l ++ [x]) = OK (zs ++ ys).
Proof.
  revert start zs. induction l as [|y l IH]; intros start zs; simpl.
  - intros [= <-]. rewrite Nat.add_0_r. intros ->. simpl. by rewrite app_nil_r.
  - destruct (f y start) as [ys'|]; simpl; [|done].
    destruct (forEachFrom f (S start) l) as [zs'|] eqn:E; simpl; [|done].
    intros [= <-] Hx. rewrite Nat.add_succ_r in Hx.
    rewrite (IH (S start) zs' E Hx). simpl. by rewrite app_assoc.
Qed.

Lemma secSpan_new now i f p n :
  u f ∈ sectionFormFields academic →
  secSpan academic (EObj (newSection academic now)) i f p = OK n → placeholderPiece i n.
Proof.
  intros Hf. unfold secSpan, secStr. rewrite (newSection_empty academic now _ Hf).
  rewrite res_bind_OK. intros [= <-]. split; [done|]. split; [done|]. by eexists.
Qed.

End AddFacts.

(** Settles one piece of the block of a new academic section. *)
Ltac piece_placeholder :=
  lazymatch goal with
  | |- ∀ n, secSpan _ _ _ _ _ = OK n → _ =>
      intros ?; apply secSpan_new; by_computation
  | |- _ =>
      let n := fresh "n" in
      let Hn := fresh "Hn" in
      intros n Hn; unfold txt, esc, raw in Hn; injection Hn as <-; exact I
  end.

Section AddBlock.

Lemma new_academic_block rawName studentName now i block :
  academicParts rawName studentName (EObj (newSection academic now)) i = OK block →
  Forall (placeholderPiece i) block
  ∧ block !! 0%nat = Some (Text (u "<strong>Academics: "))
  ∧ block !! 1%nat
    = Some (Text (sanitize (u "(Subject " ++ numToString (N.of_nat (i + 1)) ++ u ")"))).
Proof.
  unfold academicParts. cbv zeta.
  assert (secStr (EObj (newSection academic now)) (u "subject") = OK (Some [])) as ->.
  { unfold secStr. rewrite (newSection_empty academic now); [done|by_computation]. }
  rewrite res_bind_OK. intros H. split.
  - revert H. apply template_Forall.
    repeat (apply List.Forall_cons; [piece_placeholder|]). apply List.Forall_nil.
  - apply template_inv in H.
    inversion H as [|p1 n1 ps1 ns1 Hp1 Hrest]; subst.
    inversion Hrest as [|p2 n2 ps2 ns2 Hp2 _]; subst.
    injection Hp1 as <-. injection Hp2 as <-. done.
Qed.

End AddBlock.

(** X10.  Adding an academic section adds one block to the document and
    changes nothing else in it.  A document is the introductory block, the
    blocks of the academic sections, the functional block, the transition
    block and the summary blocks, in this order.  When the record renders,
    the record [handleAddAcademicSection] makes of it renders too, and its
    document is the old one with one block inserted right after the blocks
    of the academic sections there were, before the functional block.  The
    block is the one of the new section at the position after the last;
    it is headed [(Subject n)], [n] being the new number of academic
    sections, and every span in it addresses the new section and shows a
    placeholder in parentheses. *)
Theorem added_academic_section_adds_one_block (data : PlaafpData) (now : N)
    (parts : list node) :
  generatePreviewParts data = OK parts →
  ∃ data' l rawName rawParent intro acad func trans summ block,
    handleAddAcademicSection now data = OK data'
    ∧ data !! kAcademicSections = Some (TArr l)
    ∧ data' !! kAcademicSections = Some (TArr (l ++ [EObj (newSection academic now)]))
    ∧ getStr data (u "studentName") = OK rawName
    ∧ getStr data (u "parentName") = OK rawParent
    ∧ introParts data rawName (orElse rawName (u "______ (student name)")) = OK intro
    ∧ academicBlocks data rawName (orElse rawName (u "______ (student name)")) = OK acad
    ∧ functionalParts data rawName (orElse rawName (u "______ (student name)")) = OK func
    ∧ transitionParts data (orElse rawName (u "______ (student name)"))
        (orElse rawParent (u "______ (parent name)")) = OK trans
    ∧ summaryBlocks data rawName (orElse rawName (u "______ (student name)")) = OK summ
    ∧ parts = intro ++ acad ++ func ++ trans ++ summ
    ∧ academicParts rawName (orElse rawName (u "______ (student name)"))
        (EObj (newSection academic now)) (length l) = OK block
    ∧ generatePreviewParts data' = OK (intro ++ acad ++ block ++ func ++ trans ++ summ)
    ∧ Forall (placeholderPiece (length l)) block
    ∧ block !! 0%nat = Some (Text (u "<strong>Academics: "))
    ∧ block !! 1%nat
      = Some (Text (sanitize (u "(Subject " ++ numToString (N.of_nat (length l + 1))
                              ++ u ")"))).
Proof.
  intros Hparts.
  destruct (generatePreviewParts_blocks _ _ Hparts)
    as (rawName & rawParent & intro & acad & func & trans & summ
        & Hname & Hparent & Hintro & Hacad & Hfunc & Htrans & Hsumm & ->).
  pose proof Hacad as Hblocks. unfold academicBlocks in Hblocks.
  destruct (data !! kAcademicSections) as [[s|l]|] eqn:Hl; try done.
  set (studentName := orElse rawName (u "______ (student name)")) in *.
  destruct (academicParts_total rawName studentName (EObj (newSection academic now))
              (length l) (newSection_shown academic now)) as [block Hblock].
  destruct (new_academic_block _ _ _ _ _ Hblock) as (Hpieces & Hfirst & Hhead).
  set (data' := <[kAcademicSections := TArr (l ++ [EObj (newSection academic now)])]> data).
  assert (∀ k, k ∈ renderedFlatKeys → data' !! k = data !! k) as Hflat.
  { intros k Hk. apply lookup_insert_ne. intros <-. revert Hk. by_computation. }
  exists data', l, rawName, rawParent, intro, acad, func, trans, summ, block.
  split; [exact (handleAddSection_list academic now data l Hl)|].
  split; [done|]. split; [apply lookup_insert_eq|].
  do 9 (split; [done|]).
  split; [|exact (conj Hpieces (conj Hfirst Hhead))].
  unfold generatePreviewParts.
  rewrite !(getStr_agree data data' Hflat) by by_computation.
  rewrite Hname, Hparent, !res_bind_OK. cbv zeta. fold studentName.
  rewrite (introParts_agree data data' Hflat), Hintro, res_bind_OK.
  assert (academicBlocks data' rawName studentName = OK (acad ++ block)) as ->.
  { unfold academicBlocks, data'. rewrite lookup_insert_eq.
    by apply forEachFrom_snoc. }
  rewrite res_bind_OK, (functionalParts_agree data data' Hflat), Hfunc, res_bind_OK.
  rewrite (transitionParts_agree data data' Hflat), Htrans, res_bind_OK.
  assert (summaryBlocks data' rawName studentName = OK summ) as ->.
  { unfold summaryBlocks, data'. rewrite lookup_insert_ne by done. exact Hsumm. }
  rewrite res_bind_OK. f_equal. by rewrite <- !app_assoc.
Qed.

Lemma added_academic_section_adds_one_block_witness :
  generatePreviewParts oneAcademic = OK (renderedParts oneAcademic)
  ∧ ∃ data' l rawName rawParent intro acad func trans summ block,
      handleAddAcademicSection 1700000000001 oneAcademic = OK data'
      ∧ oneAcademic !! kAcademicSections = Some (TArr l)
      ∧ data' !! kAcademicSections
        = Some (TArr (l ++ [EObj (newSection academic 1700000000001)]))
      ∧ getStr oneAcademic (u "studentName") = OK rawName
      ∧ getStr oneAcademic (u "parentName") = OK rawParent
      ∧ introParts oneAcademic rawName (orElse rawName (u "______ (student name)"))
        = OK intro
      ∧ academicBlocks oneAcademic rawName (orElse rawName (u "______ (student name)"))
        = OK acad
      ∧ functionalParts oneAcademic rawName (orElse rawName (u "______ (student name)"))
        = OK func
      ∧ transitionParts oneAcademic (orElse rawName (u "______ (student name)"))
          (orElse rawParent (u "______ (parent name)")) = OK trans
      ∧ summaryBlocks oneAcademic rawName (orElse rawName (u "______ (student name)"))
        = OK summ
      ∧ renderedParts oneAcademic = intro ++ acad ++ func ++ trans ++ summ
      ∧ academicParts rawName (orElse rawName (u "______ (student name)"))
          (EObj (newSection academic 1700000000001)) (length l) = OK block
      ∧ generatePreviewParts data'
        = OK (intro ++ acad ++ block ++ func ++ trans ++ summ)
      ∧ Forall (placeholderPiece (length l)) block
      ∧ block !! 0%nat = Some (Text (u "<strong>Academics: "))
      ∧ block !! 1%nat
        = Some (Text (sanitize (u "(Subject " ++ numToString (N.of_nat (length l + 1))
                                ++ u ")"))).
Proof.
  assert (generatePreviewParts oneAcademic = OK (renderedParts oneAcademic)) as H
    by by_computation.
  split; [exact H|].
  exact (added_academic_section_adds_one_block _ 1700000000001 _ H).
Defined.

(** ** Saved documents across loads of the page *)

(** Unfolds the setters and the projections of the state and of the
    store. *)
Ltac state_simpl :=
  cbv beta iota zeta delta
    [apiKey data currentStep activeField savedPlaafps currentPlaafpId localStorage
     geminiApiKey plaafpDocuments plaafpCurrentId
     setApiKey setData setCurrentStep setActiveField setSavedPlaafps setCurrentPlaafpId
     onStorage setApiKeyItem setDocumentsItem removeDocumentsItem setCurrentIdItem
     removeCurrentIdItem handleNew handleClearAll handleSaveApiKey initialApp
     storedDocuments shownAfterLoad] in *.

Section SessionFacts.

Implicit Types (st : appState) (a : action) (store : storage).

Lemma truthy_true (s : option jsstring) : truthy s = true → ∃ c k, s = Some (c :: k).
Proof. destruct s as [[|c k]|]; try done. by exists c, k. Qed.

Lemma trim_truthy s c k : trim s = c :: k → truthy (Some (trim s)) = true.
Proof. by intros ->. Qed.

Lemma getDoc_own docs id doc : docs !! id = Some doc → getDoc docs id = Own doc.
Proof. intros H. unfold getDoc. by rewrite H. Qed.

Lemma consistent_keyed st :
  truthy (apiKey st) = true →
  geminiApiKey (localStorage st) = apiKey st →
  storedDocuments (localStorage st) = Some (savedPlaafps st) →
  savedPlaafps st !! [] = None →
  match currentPlaafpId st with
  | Some id => plaafpCurrentId (localStorage st) = Some id
               ∧ is_Some (savedPlaafps st !! id)
  | None => plaafpDocuments (localStorage st) = Some Malformed
            ∨ plaafpCurrentId (localStorage st) = None
  end →
  consistent st.
Proof. intros Hk ????. unfold consistent. by rewrite Hk. Qed.

Lemma consistent_inv st :
  truthy (apiKey st) = true → consistent st →
  geminiApiKey (localStorage st) = apiKey st
  ∧ storedDocuments (localStorage st) = Some (savedPlaafps st)
  ∧ savedPlaafps st !! [] = None
  ∧ match currentPlaafpId st with
    | Some id => plaafpCurrentId (localStorage st) = Some id
                 ∧ is_Some (savedPlaafps st !! id)
    | None => plaafpDocuments (localStorage st) = Some Malformed
              ∨ plaafpCurrentId (localStorage st) = None
    end.
Proof. intros Hk. unfold consistent. by rewrite Hk. Qed.

(** The second effect establishes the agreement of state and store. *)
Lemma loadDocumentsEffect_consistent st st' :
  truthy (apiKey st) = true →
  geminiApiKey (localStorage st) = apiKey st →
  noEmptyId (localStorage st) →
  loadDocumentsEffect st = Some st' → consistent st'.
Proof.
  intros Hkey Hgk Hclean. unfold loadDocumentsEffect. rewrite Hkey.
  unfold noEmptyId in Hclean.
  destruct st as [key d step af saved cur [gk docs cid]]. state_simpl.
  assert (∀ docs0,
    docs0 !! [] = None →
    (docs = None ∨ docs = Some EmptyText → docs0 = ∅) →
    (∀ m, docs = Some (Stringified m) → docs0 = m) →
    docs ≠ Some Malformed → docs ≠ Some Foreign →
    (if truthy cid
     then match getDoc docs0 (default [] cid) with
          | Own doc => Some (AppState key doc step af docs0 cid (Storage gk docs cid))
          | Inherited => None
          | Undefined =>
              Some (AppState key initialPlaafpData step af docs0 None (Storage gk docs None))
          end
     else Some (AppState key initialPlaafpData step af docs0 None (Storage gk docs None)))
    = Some st' → consistent st') as Hwith.
  { intros docs0 Hempty Hnone Hsome Hmal Hfor Heff.
    assert (match docs with
            | None | Some EmptyText | Some Malformed => Some ∅
            | Some (Stringified m) => Some m
            | Some Foreign => None
            end = Some docs0) as Hstored.
    { destruct docs as [[m| | |]|]; try done.
      - by rewrite (Hsome m eq_refl).
      - by rewrite Hnone by auto.
      - by rewrite Hnone by auto. }
    destruct (truthy cid) eqn:Ecid.
    - apply truthy_true in Ecid as (c & k & ->). simpl in Heff.
      unfold getDoc in Heff. destruct (docs0 !! (c :: k)) as [doc|] eqn:Elook.
      + injection Heff as <-.
        apply consistent_keyed; state_simpl;
          first [done | split; [done|]; rewrite Elook; by eexists].
      + case_bool_decide; [done|]. injection Heff as <-.
        apply consistent_keyed; state_simpl; first [done | by right].
    - injection Heff as <-. apply consistent_keyed; state_simpl; first [done | by right]. }
  destruct docs as [[m| | |]|] eqn:Edocs; simpl.
  - apply Hwith;
      first [done | by apply Hclean | by intros [|] | by intros ? [= ->]].
  - apply Hwith; first [done | by intros ? [=]].
  - intros [= <-]. apply consistent_keyed; state_simpl; first [done | by left].
  - done.
  - apply Hwith; first [done | by intros ? [=]].
Qed.

(** Mounting [App] establishes it. *)
Lemma mount_consistent store st :
  noEmptyId store → mount store = Some st → consistent st.
Proof.
  intros Hclean. unfold mount, loadApiKeyEffect.
  destruct store as [gk docs cid]. state_simpl.
  destruct (truthy gk) eqn:Egk.
  - apply loadDocumentsEffect_consistent; done.
  - unfold loadDocumentsEffect. simpl. intros [= <-].
    unfold consistent. simpl. by rewrite Egk.
Qed.

(** Every action of a session in which the store takes the writes keeps
    it. *)
Lemma perform_consistent a st st' :
  consistent st → storeAccepts a → perform a st = Some st' → consistent st'.
Proof.
  intros Hst Hacc. unfold perform.
  destruct (truthy (apiKey st)) eqn:Hkey; simpl.
  - destruct (consistent_inv st Hkey Hst) as (Hgk & Hdocs & Hempty & Hcur).
    assert (∀ d, consistent (setData d st)) as Hdata.
    { intros d. destruct st. by apply consistent_keyed. }
    destruct a as [accepted input|name value|kind index name value|kind now|fields|info|step
                   |now accepted| |accepted id|confirmed accepted id|confirmed]; try done.
    + intros [= <-]. apply Hdata.
    + case_bool_decide; [|done].
      destruct (handleSectionChange _ _ _ _ _); intros [= <-]; [apply Hdata|done].
    + destruct (handleAddSection _ _ _); [|done]. intros [= <-]. apply Hdata.
    + destruct (handlePreviewEdit _ _); [|done]. intros [= <-]. apply Hdata.
    + intros [= <-]. destruct st. by apply consistent_keyed.
    + intros [= <-]. destruct st. by apply consistent_keyed.
    + (* Save *)
      unfold handleSave.
      destruct (getStr (data st) (u "studentName") ≫= defined) as [name|];
        [|by intros [= <-]].
      simpl. destruct (trim name) as [|c k]; [by intros [= <-]|].
      simpl in Hacc. destruct accepted as [|[|accepted]]; [lia..|].
      intros [= <-].
      assert (orElse (currentPlaafpId st) (numToString now) ≠ []) as Hid.
      { destruct (currentPlaafpId st) as [[|c' id]|]; simpl; try done;
          apply numToString_nonempty. }
      destruct st as [key d step af saved cur [gk docs cid]]. state_simpl.
      apply consistent_keyed; state_simpl;
        first [ done | by rewrite lookup_insert_ne
              | split; [done|]; rewrite lookup_insert_eq; by eexists ].
    + (* New *)
      intros [= <-]. destruct st as [key d step af saved cur [gk docs cid]]. state_simpl.
      apply consistent_keyed; state_simpl; first [done | by right].
    + (* Load *)
      case_bool_decide as Hown; [|done]. destruct Hown as [doc Hown].
      simpl in Hacc. subst accepted.
      unfold handleLoad. rewrite (getDoc_own _ _ _ Hown). intros [= <-].
      destruct st as [key d step af saved cur [gk docs cid]]. state_simpl.
      apply consistent_keyed; state_simpl; first [done | split; [done|]; by eexists].
    + (* Delete *)
      case_bool_decide as Hown; [|done]. destruct Hown as [doc Hown].
      simpl in Hacc. subst accepted.
      unfold handleDelete. rewrite (getDoc_own _ _ _ Hown).
      destruct confirmed; simpl; [|by intros [= <-]].
      destruct st as [key d step af saved cur [gk docs cid]]. state_simpl.
      case_bool_decide as Hopen; intros [= <-]; state_simpl.
      * apply consistent_keyed; state_simpl;
          first [done | by apply lookup_delete_None; right | by right].
      * apply consistent_keyed; state_simpl;
          first [done | by apply lookup_delete_None; right | idtac].
        destruct cur as [id'|].
        -- destruct Hcur as [Hcid Hsome]. split; [done|].
           rewrite lookup_delete_ne; [done|]. intros ->. done.
        -- right. destruct Hcur as [Hmal|Hcid]; [|done].
           rewrite Hmal in Hdocs. injection Hdocs as <-. by rewrite lookup_empty in Hown.
    + (* ClearAll *)
      destruct confirmed; intros [= <-]; [|done].
      destruct st as [key d step af saved cur [gk docs cid]]. state_simpl.
      apply consistent_keyed; state_simpl; first [done | by right].
  - destruct a as [accepted input| | | | | | | | | | |]; try done.
    simpl in Hacc. subst accepted.
    unfold consistent in Hst. rewrite Hkey in Hst. destruct Hst as (Hgk & Hclean & Hinit).
    unfold ApiKeyModal.handleSave.
    destruct (trim input) as [|c k] eqn:Etrim.
    + unfold loadDocumentsEffect. rewrite Hkey. simpl. intros [= <-].
      unfold consistent. by rewrite Hkey.
    + apply loadDocumentsEffect_consistent; destruct st as [key d step af saved cur store];
        by state_simpl.
Qed.

Lemma performAll_consistent actions st st' :
  consistent st → Forall storeAccepts actions → performAll actions st = Some st' →
  consistent st'.
Proof.
  intros Hst Hacc. revert st Hst.
  induction Hacc as [|a actions Ha _ IH]; intros st Hst; simpl.
  - by intros [= <-].
  - destruct (perform a st) as [st1|] eqn:E; [|done]. simpl.
    apply IH. by eapply perform_consistent.
Qed.

(** Where state and store agree, a load of the page finds the state again,
    but for the record shown. *)
Lemma consistent_mount st :
  consistent st →
  mount (localStorage st)
  = Some (AppState (apiKey st) (shownAfterLoad st) 0 None (savedPlaafps st)
                   (currentPlaafpId st) (localStorage st)).
Proof.
  intros Hst. unfold mount, loadApiKeyEffect.
  destruct (truthy (apiKey st)) eqn:Hkey.
  - destruct (consistent_inv st Hkey Hst) as (Hgk & Hdocs & Hempty & Hcur).
    destruct st as [key d step af saved cur [gk docs cid]]. state_simpl. subst gk.
    rewrite Hkey. unfold loadDocumentsEffect. state_simpl. rewrite Hkey. simpl.
    destruct cur as [id|].
    + destruct Hcur as [-> [doc Hdoc]].
      rewrite Hdoc. simpl.
      destruct docs as [[m| | |]|]; simplify_eq; try (by rewrite lookup_empty in Hdoc).
      destruct id as [|c id]; [by rewrite Hempty in Hdoc|].
      simpl. by rewrite (getDoc_own _ _ _ Hdoc).
    + destruct docs as [[m| | |]|]; simplify_eq; try done;
        destruct Hcur as [?| ->]; by simplify_eq.
  - unfold consistent in Hst. rewrite Hkey in Hst. destruct Hst as (Hgk & _ & ->).
    state_simpl. rewrite Hgk. unfold loadDocumentsEffect. by state_simpl.
Qed.

(** The proviso on the store is needed: when the store refuses the write
    of [handleLoad], the document is open in the state and not in the
    store, and a load of the page shows no open document. *)
Lemma refused_load_is_not_restored :
  ¬ Forall storeAccepts sessionRefusedLoad
  ∧ performAll sessionRefusedLoad (initialApp emptyStorage)
    = Some (stateAfter sessionRefusedLoad)
  ∧ currentPlaafpId (stateAfter sessionRefusedLoad) = Some (u "1700000000000")
  ∧ plaafpCurrentId (localStorage (stateAfter sessionRefusedLoad)) = None
  ∧ currentPlaafpId <$> mount (localStorage (stateAfter sessionRefusedLoad)) = Some None.
Proof.
  split; [|split; [|split; [|split]]].
  - intros H. apply Forall_app in H as [_ H].
    apply Forall_cons in H as [_ H]. apply Forall_cons in H as [_ H].
    apply Forall_cons in H as [H _]. discriminate H.
  - by_computation.
  - by_computation.
  - by_computation.
  - by_computation.
Qed.

End SessionFacts.

(** X11.  A load of the page brings back what was saved.  Take a store in
    which no document is filed under the empty id, mount the application on
    it and let the user act, every write to the store finding room (both
    writes of each [Save], and the write of the key dialog, of each [Load]
    and of each [Delete]).  Then
    the id of the open document, if there is one, names a saved document,
    and mounting the application again on the store as the session left it
    gives the same key, the same saved documents and the same open id; the
    record shown is the open document as it was last saved (edits made
    after the last save are not kept), or the empty record when no document
    is open. *)
Theorem reload_restores_saved_documents (store : storage) (actions : list action)
    (st0 st : appState) :
  noEmptyId store → mount store = Some st0 →
  Forall storeAccepts actions → performAll actions st0 = Some st →
  (∀ id, currentPlaafpId st = Some id → is_Some (savedPlaafps st !! id))
  ∧ mount (localStorage st)
    = Some (AppState (apiKey st) (shownAfterLoad st) 0 None (savedPlaafps st)
                     (currentPlaafpId st) (localStorage st)).
Proof.
  intros Hclean Hmount Hacc Hrun.
  pose proof (mount_consistent _ _ Hclean Hmount) as H0.
  pose proof (performAll_consistent _ _ _ H0 Hacc Hrun) as Hst.
  split; [|by apply consistent_mount].
  intros id Hid. destruct (truthy (apiKey st)) eqn:Hkey.
  - destruct (consistent_inv st Hkey Hst) as (_ & _ & _ & Hcur).
    rewrite Hid in Hcur. by destruct Hcur.
  - unfold consistent in Hst. rewrite Hkey in Hst. destruct Hst as (_ & _ & Hinit).
    rewrite Hinit in Hid. done.
Qed.

Lemma reload_restores_saved_documents_witness :
  noEmptyId emptyStorage
  ∧ mount emptyStorage = Some (initialApp emptyStorage)
  ∧ Forall storeAccepts sessionJordan
  ∧ performAll sessionJordan (initialApp emptyStorage) = Some (stateAfter sessionJordan)
  ∧ mount (localStorage (stateAfter sessionJordan))
    = Some (AppState (apiKey (stateAfter sessionJordan))
                     (shownAfterLoad (stateAfter sessionJordan)) 0 None
                     (savedPlaafps (stateAfter sessionJordan))
                     (currentPlaafpId (stateAfter sessionJordan))
                     (localStorage (stateAfter sessionJordan))).
Proof.
  assert (noEmptyId emptyStorage) as Hclean by (by intros docs [= <-]).
  assert (mount emptyStorage = Some (initialApp emptyStorage)) as Hmount by reflexivity.
  assert (Forall storeAccepts sessionJordan) as Hacc by by_computation.
  assert (performAll sessionJordan (initialApp emptyStorage)
          = Some (stateAfter sessionJordan)) as Hrun by by_computation.
  exact (conj Hclean (conj Hmount (conj Hacc (conj Hrun
           (proj2 (reload_restores_saved_documents _ _ _ _ Hclean Hmount Hacc Hrun)))))).
Defined.

(** X12.  A saved record survives a load of the page.  In a session as in
    X11, when the record has a student name that is not blank and the store
    takes both writes, [handleSave] files the record under
    [currentPlaafpId || Date.now().toString()]: the id of the open
    document, or the reading of the clock in decimal when no document is
    open.  Mounting the application on the store it leaves shows that
    record again, open under that very id and saved under it; every
    document filed under another id is kept as it was. *)
Theorem saved_record_survives_reload (store : storage) (actions : list action)
    (st0 st st' : appState) (now : N) (accepted : nat) (name : jsstring) :
  noEmptyId store → mount store = Some st0 →
  Forall storeAccepts actions → performAll actions st0 = Some st →
  data st !! u "studentName" = Some (TStr name) → trim name ≠ [] → 2 ≤ accepted →
  perform (Save now accepted) st = Some st' →
  let id := orElse (currentPlaafpId st) (numToString now) in
  (∀ open, currentPlaafpId st = Some open → id = open)
  ∧ (currentPlaafpId st = None → id = numToString now)
  ∧ ∃ st'',
      mount (localStorage st') = Some st''
      ∧ data st'' = data st
      ∧ currentPlaafpId st'' = Some id
      ∧ savedPlaafps st'' !! id = Some (data st)
      ∧ ∀ id', id' ≠ id → savedPlaafps st'' !! id' = savedPlaafps st !! id'.
Proof.
  intros Hclean Hmount Hacc Hrun Hname Hblank Haccepted Hsave id.
  pose proof (mount_consistent _ _ Hclean Hmount) as H0.
  pose proof (performAll_consistent _ _ _ H0 Hacc Hrun) as Hst.
  pose proof (perform_consistent (Save now accepted) st st' Hst Haccepted Hsave) as Hst'.
  assert (truthy (apiKey st) = true) as Hkey.
  { unfold perform in Hsave. by destruct (truthy (apiKey st)). }
  split; [|split; [by subst id; intros ->|]].
  { intros open Hopen. subst id. rewrite Hopen.
    destruct (consistent_inv st Hkey Hst) as (_ & _ & Hempty & Hcur).
    rewrite Hopen in Hcur. destruct Hcur as [_ [doc Hdoc]].
    destruct open as [|c k]; [by rewrite Hempty in Hdoc|done]. }
  rewrite (consistent_mount st' Hst'). clear Hst' Hst H0.
  unfold perform in Hsave. rewrite Hkey in Hsave. simpl in Hsave.
  unfold handleSave, getStr in Hsave. rewrite Hname in Hsave. simpl in Hsave.
  destruct (trim name) as [|c k]; [done|].
  destruct accepted as [|[|accepted]]; [lia..|]. injection Hsave as <-.
  subst id. destruct st as [key d step af saved cur [gk docs cid]]. state_simpl.
  eexists. split; [done|]. state_simpl.
  rewrite lookup_insert_eq. simpl.
  split; [done|]. split; [done|]. split; [done|].
  intros id' Hne. by rewrite lookup_insert_ne.
Qed.

Lemma saved_record_survives_reload_witness :
  ∃ st'',
    mount (localStorage (stateAfter (sessionName ++ [Save 1700000000000 2]))) = Some st''
    ∧ data st'' = data (stateAfter sessionName)
    ∧ currentPlaafpId st'' = Some (u "1700000000000")
    ∧ savedPlaafps st'' !! u "1700000000000" = Some (data (stateAfter sessionName))
    ∧ ∀ id', id' ≠ u "1700000000000" →
             savedPlaafps st'' !! id' = savedPlaafps (stateAfter sessionName) !! id'.
Proof.
  apply (saved_record_survives_reload emptyStorage sessionName (initialApp emptyStorage)
           (stateAfter sessionName) (stateAfter (sessionName ++ [Save 1700000000000 2]))
           1700000000000 2 (u "Jordan")).
  - by intros docs [= <-].
  - reflexivity.
  - by_computation.
  - by_computation.
  - by_computation.
  - by_computation.
  - lia.
  - by_computation.
Defined.
